(** * A shallow embedding of gitlab-pages

  The development follows the layout of the repository.  Definitions come
  first, one module per package; the properties follow, in modules of the
  same names with the suffix [Facts].

  - [GoStrings], [GoPath], and the query encoding in [Http]: the functions
    of Go's [strings], [path] and [net/url] packages that the sources call
    (library code, written here after the Go standard library and checked
    against its documented examples);
  - [Gitlab]: [internal/source/gitlab/gitlab.go], the lookup-path resolver;
  - [Zip]: [internal/vfs/zip/archive.go], the index of an archive, the guess
    of its public directory and the lookup of a path;
  - [ZipOpen]: [openArchive] and [readArchive] of the same file, as the
    interleaving of their callers;
  - [App]: [app.go], the status short-circuit and the TLS certificate
    callback;
  - [Domain]: the domain of package [main] that [app.go] serves from
    ([tryFile], [serveFromGroup], [serveFromConfig]), over a file system
    given as a parameter;
  - [OldZip]: the earlier [zipArchive] of package [zip], which keeps the
    files under [public/];
  - [Auth]: the OAuth layer (the first [auth] package of the sources);
  - [Netutil]: [internal/netutil/shared_limit_listener.go], as the
    interleaving of the goroutines that share a limiter.

  Go strings are byte strings; they are modelled by [string] (a list of
  8-bit [ascii]).  A Go pair [(value, err)] is modelled by a pair of options
  or a sum, a nil pointer by [None], a map by [gmap], and a run-time panic by
  an outcome of its own.  Code outside the sources (the TLS and HTTP
  libraries, the session store, packages of the repository that are not
  among the sources) enters as a parameter, gathered in a class
  [Externals] per package. *)

From Stdlib Require Import ZArith Lia Bool Ascii String Sorted.
From stdpp Require Import base option list strings gmap fin_maps pretty.

Local Open Scope string_scope.

(** ** Go's [strings] package *)

Module GoStrings.

(** [strings.HasPrefix(s, prefix)] *)
Definition HasPrefix (s prefix : string) : bool := String.prefix prefix s.

(** [s[n:]] for [n <= len(s)] *)
Fixpoint drop_bytes (n : nat) (s : string) : string :=
  match n, s with
  | O, _ => s
  | S n', String _ s' => drop_bytes n' s'
  | S _, EmptyString => EmptyString
  end.

(** [strings.TrimPrefix(s, prefix)]: [s] without the leading [prefix];
    [s] itself when [prefix] does not lead it. *)
Definition TrimPrefix (s prefix : string) : string :=
  if HasPrefix s prefix then drop_bytes (String.length prefix) s else s.

(** [strings.HasSuffix(s, suffix)] *)
Definition HasSuffix (s suffix : string) : bool :=
  (String.length suffix <=? String.length s)%nat
  && String.eqb (drop_bytes (String.length s - String.length suffix) s) suffix.

(** [strings.Contains(s, substr)]: [substr] occurs somewhere within [s]. *)
Fixpoint Contains (s substr : string) : bool :=
  HasPrefix s substr ||
  match s with
  | EmptyString => false
  | String _ s' => Contains s' substr
  end.

(** The position of the first ["/"] splits a name in two: the bytes before
    it and the bytes after it.  [None] when the name has no ["/"]. *)
Fixpoint cut_slash (s : string) : option (string * string) :=
  match s with
  | EmptyString => None
  | String c s' =>
      if Ascii.eqb c "/"%char then Some (EmptyString, s')
      else match cut_slash s' with
           | Some (a, b) => Some (String c a, b)
           | None => None
           end
  end.

(** [strings.SplitN(s, "/", 2)]: at most two pieces, never fewer than one. *)
Definition SplitN2 (s : string) : list string :=
  match cut_slash s with
  | Some (a, b) => [a; b]
  | None => [s]
  end.

(** [strings.Split(s, "/")] *)
Fixpoint split_slash_aux (cur : string) (s : string) : list string :=
  match s with
  | EmptyString => [cur]
  | String c s' =>
      if Ascii.eqb c "/"%char then cur :: split_slash_aux EmptyString s'
      else split_slash_aux (cur ++ String c EmptyString) s'
  end.

Definition Split (s : string) : list string := split_slash_aux EmptyString s.

(** [strings.Join(elems, "/")] *)
Fixpoint Join (elems : list string) : string :=
  match elems with
  | [] => EmptyString
  | [e] => e
  | e :: rest => e ++ "/" ++ Join rest
  end.

End GoStrings.

(** ** Go's [path] package *)

Module GoPath.
Import GoStrings.

(** The bytes of [s] up to and including its last ["/"], and the bytes after
it; [None] when [s] has no ["/"]. *)
Fixpoint cut_last_slash (s : string) : option (string * string) :=
  match s with
  | EmptyString => None
  | String c s' =>
      match cut_last_slash s' with
      | Some (dir, file) => Some (String c dir, file)
      | None =>
          if Ascii.eqb c "/"%char then Some (String c EmptyString, s')
          else None
      end
  end.

(** [path.Split(path)]: the directory part ends with the last slash; a path
without slash has an empty directory part. *)
Definition Split (path : string) : string * string :=
  match cut_last_slash path with
  | Some (dir, file) => (dir, file)
  | None => (EmptyString, path)
  end.

(** One element of the path read by [path.Clean].  [out] holds the elements
written so far, last one first.  An empty element and ["."] write nothing;
[".."] removes the last element written unless there is none to remove (then
a path that is not rooted keeps the [".."], a rooted one drops it); any other
element is written. *)
Definition cleanStep (rooted : bool) (out : list string) (elem : string)
  : list string :=
  if String.eqb elem "" then out
  else if String.eqb elem "." then out
  else if String.eqb elem ".." then
    match out with
    | last :: before =>
        if String.eqb last ".." then elem :: out else before
    | [] => if rooted then out else [elem]
    end
  else elem :: out.

(** [path.Clean(path)]: the shortest path equivalent to [path] by purely
lexical processing (Go's rules 1 to 4, and ["."] for the empty result). *)
Definition Clean (path : string) : string :=
  match path with
  | EmptyString => "."
  | String c _ =>
      let rooted := Ascii.eqb c "/"%char in
      let out := rev (fold_left (cleanStep rooted) (GoStrings.Split path) []) in
      if rooted then "/" ++ Join out
      else match out with
           | [] => "."
           | _ => Join out
           end
  end.

End GoPath.

(** ** HTTP requests as the handlers see them *)

Module Http.

(** [url.Values]: a map from a key to the list of its values. *)
Abbreviation Values := (gmap string (list string)).

(** The fields of [*http.Request] that the sources read.  [RequestURI] is
    the unmodified request target of the request line (it keeps the query
    string); [URL_Path] is the path of the parsed URL; [TLS] is
    [r.TLS != nil]. *)
Record Request := {
  Host : string;
  RequestURI : string;
  URL_Scheme : string;
  URL_Path : string;
  URL_Query : Values;
  TLS : bool;
  Header : gmap string string
}.

(** Go's [error] values are identified by their message. *)
Definition error := string.

(** [url.Values.Get]: the first value of the key, or the empty string. *)
Definition Get (v : Values) (key : string) : string :=
  match v !! key with
  | Some (first :: _) => first
  | _ => ""
  end.

(** [url.Values.Del] and [url.Values.Set] *)
Definition Del (v : Values) (key : string) : Values := delete key v.
Definition Set_ (v : Values) (key value : string) : Values := <[key := [value]]> v.

(** [url.QueryEscape]: letters, digits and [-_.~] stand for themselves, a
space becomes [+], every other byte becomes [%XX] in upper-case hexadecimal. *)
Definition unreservedByte (c : ascii) : bool :=
  let n := nat_of_ascii c in
  ((48 <=? n) && (n <=? 57) || (65 <=? n) && (n <=? 90)
   || (97 <=? n) && (n <=? 122))%nat
  || Ascii.eqb c "-" || Ascii.eqb c "_" || Ascii.eqb c "." || Ascii.eqb c "~".

Definition upperhex (n : nat) : ascii :=
  if (n <? 10)%nat then ascii_of_nat (48 + n) else ascii_of_nat (55 + n).

Fixpoint QueryEscape (s : string) : string :=
  match s with
  | EmptyString => EmptyString
  | String c s' =>
      if unreservedByte c then String c (QueryEscape s')
      else if Ascii.eqb c " " then String "+" (QueryEscape s')
      else String "%" (String (upperhex (nat_of_ascii c / 16))
                         (String (upperhex (nat_of_ascii c mod 16)) (QueryEscape s')))
  end.

(** [sort.Strings] on the keys of a map. *)
Fixpoint insertKey (k : string) (sorted : list string) : list string :=
  match sorted with
  | [] => [k]
  | x :: rest => if String.leb k x then k :: sorted else x :: insertKey k rest
  end.

Definition sortStrings (keys : list string) : list string :=
  fold_right insertKey [] keys.

(** [url.Values.Encode]: [key=value] for every value of every key, keys in
sorted order, joined by [&]. *)
Definition encodePairs (v : Values) : list string :=
  flat_map (fun k =>
              match v !! k with
              | Some vs => map (fun x => QueryEscape k ++ "=" ++ QueryEscape x) vs
              | None => []
              end)
           (sortStrings (map fst (map_to_list v))).

Fixpoint joinAmp (pairs : list string) : string :=
  match pairs with
  | [] => ""
  | [p] => p
  | p :: rest => p ++ "&" ++ joinAmp rest
  end.

Definition Encode (v : Values) : string := joinAmp (encodePairs v).

(** *** Reading a URL back

What the receiver of a redirect makes of its URL: [net/url] cuts the
fragment at the first [#] and the query at the first [?], and [ParseQuery]
(as of Go 1.17, the version the pipeline builds with) reads the query
segment by segment. *)














(** A value of a session ([interface{}]): a string, or something else. *)
Inductive value :=
| VString (s : string)
| VOther (repr : string).

(** [sessions.Options]: the cookie attributes the handlers set. *)
Record Options := {
  OptPath : string;
  OptHttpOnly : bool;
  OptSecure : bool;
  OptMaxAge : Z
}.

(** [sessions.Session]: its values and its options. *)
Record Session := {
  Values_ : gmap string value;
  SessionOptions : Options
}.

(** What a handler does to its [http.ResponseWriter], one entry per call, in
the order of the calls:
- [Write body] is [w.Write(body)];
- [Error msg code] is [http.Error(w, msg, code)];
- [Redirect url code] is [http.Redirect(w, r, url, code)];
- [ServeError code] is [httperrors.Serve<code>(w)], the built-in error page;
- [SetCookie session] is a successful [session.Save(r, w)];
- [Handled by_ what] stands for a handler outside this development that
  served the request ([by_] names it). *)
Inductive action :=
| Write (body : string)
| Error (msg : string) (code : Z)
| Redirect (url : string) (code : Z)
| ServeError (code : Z)
| SetCookie (session : Session)
| Handled (by_ : string) (what : string).

(** The status code and the body a fresh response ends with after [Write] or
[http.Error] alone: a first [Write] sends the header with status 200;
[http.Error] sends the given status and prints the message on a line. *)
Definition recorded (calls : list action) : option (Z * string) :=
  match calls with
  | [Write body] => Some (200%Z, body)
  | [Error msg code] => Some (code, msg ++ String (ascii_of_nat 10) "")
  | _ => None
  end.

End Http.

(** ** internal/source/gitlab: the lookup-path resolver *)

Module Api.

(** Modelled from the spec: the declarations of [api.VirtualDomain] and
    [api.LookupPath] are not among the sources; section 6 (Domain-source
    API) gives their fields: certificate, key and a list of lookup paths,
    each with prefix, source (type, path), https_only, access_control and
    project_id.  [ProjectID] is a Go [int]. *)
Record LookupSource := { Type_ : string; Path : string }.

Record LookupPath := {
  ProjectID : Z;
  AccessControl : bool;
  HTTPSOnly : bool;
  Prefix : string;
  Source : LookupSource
}.

Record VirtualDomain := {
  Certificate : string;
  Key : string;
  LookupPaths : list LookupPath
}.

End Api.

Module Serving.

(** [serving.LookupPath], with the fields [Resolve] fills. *)
Record LookupPath := {
  Prefix : string;
  Path : string;
  IsNamespaceProject : bool;
  IsHTTPSOnly : bool;
  HasAccessControl : bool;
  ProjectID : Z
}.

End Serving.

Module Gitlab.
Import GoStrings Http.

(** The [Client] interface: [GetVirtualDomain(host)] returns a response
    pointer and an error. *)
Definition Client := string -> option Api.VirtualDomain * option error.

(** What a call of [Resolve] does: it panics (nil dereference), returns an
    error, or returns a lookup path with the request path. *)
Inductive resolved :=
| ResolvePanic
| ResolveErr (err : error)
| Resolved (lookupPath : Serving.LookupPath) (requestPath : string).

Definition errNoLookupMatch : error := "could not match lookup path".

(** The conversion [uint64(n)] of a Go [int]. *)
Definition uint64 (n : Z) : Z := n mod 2 ^ 64.

(** The [serving.LookupPath] built at gitlab.go:58-65. *)
Definition newLookupPath (response : Api.VirtualDomain) (lookup : Api.LookupPath)
  : Serving.LookupPath :=
  {| Serving.Prefix := Api.Prefix lookup;
     Serving.Path := TrimPrefix (Api.Path (Api.Source lookup)) "/";
     Serving.IsNamespaceProject :=
       String.eqb (Api.Prefix lookup) "/"
       && (1 <? length (Api.LookupPaths response))%nat;
     Serving.IsHTTPSOnly := Api.HTTPSOnly lookup;
     Serving.HasAccessControl := Api.AccessControl lookup;
     Serving.ProjectID := uint64 (Api.ProjectID lookup) |}.

(** The [for _, lookup := range response.LookupPaths] loop of [Resolve]. *)
Fixpoint resolveLoop (response : Api.VirtualDomain) (urlPath : string)
    (lookups : list Api.LookupPath) : resolved :=
  match lookups with
  | [] => ResolveErr errNoLookupMatch
  | lookup :: rest =>
      if Contains urlPath (Api.Prefix lookup)
      then Resolved (newLookupPath response lookup)
                    (TrimPrefix urlPath (Api.Prefix lookup))
      else resolveLoop response urlPath rest
  end.

(** [func (g *Gitlab) Resolve(r *http.Request)] *)
Definition Resolve (g : Client) (r : Request) : resolved :=
  match g (Host r) with
  | (_, Some err) => ResolveErr err
  | (None, None) => ResolvePanic
  | (Some response, None) =>
      resolveLoop response (URL_Path r) (Api.LookupPaths response)
  end.

(** [domain.Domain], with the fields [GetDomain] fills; its [Resolver] is
the source itself. *)
Record Domain := {
  DomainName : string;
  CertificateCert : string;
  CertificateKey : string
}.

(** [func (g *Gitlab) GetDomain(name string)] *)
Definition GetDomain (g : Client) (name : string) : option Domain * option error :=
  match g name with
  | (_, Some err) => (None, Some err)
  | (None, None) => (None, Some "could not fetch a domain information")
  | (Some response, None) =>
      (Some {| DomainName := name;
               CertificateCert := Api.Certificate response;
               CertificateKey := Api.Key response |}, None)
  end.

(** *** The selection rule in the words of the specification *)

(** [a] is preferred to [b]: longer prefix first, and among prefixes of the
    same length the lexicographically smaller one. *)
Definition preferred (a b : Api.LookupPath) : bool :=
  (String.length (Api.Prefix b) <? String.length (Api.Prefix a))%nat
  || ((String.length (Api.Prefix a) =? String.length (Api.Prefix b))%nat
      && String.leb (Api.Prefix a) (Api.Prefix b)).

(** The lookup path the specification selects: among the entries whose
    prefix is a prefix of [urlPath], the preferred one. *)
Fixpoint specSelect (urlPath : string) (lookups : list Api.LookupPath)
  : option Api.LookupPath :=
  match lookups with
  | [] => None
  | l :: rest =>
      if HasPrefix urlPath (Api.Prefix l) then
        match specSelect urlPath rest with
        | Some best => if preferred l best then Some l else Some best
        | None => Some l
        end
      else specSelect urlPath rest
  end.

(** The response lists its lookup paths by decreasing prefix length. *)
Definition byDecreasingLength (lookups : list Api.LookupPath) : Prop :=
  StronglySorted
    (fun a b => (String.length (Api.Prefix b) <= String.length (Api.Prefix a))%nat) lookups.

(** *** Concrete requests *)

Definition mkLookup (prefix path : string) : Api.LookupPath :=
  {| Api.ProjectID := 1; Api.AccessControl := false; Api.HTTPSOnly := false;
     Api.Prefix := prefix;
     Api.Source := {| Api.Type_ := "zip"; Api.Path := path |} |}.

Definition mkRequest (host path : string) : Request :=
  {| Host := host; RequestURI := path; URL_Scheme := "http"; URL_Path := path;
     URL_Query := ∅; TLS := false; Header := ∅ |}.

Definition rootLookup := mkLookup "/" "/group/group.test/public.zip".
Definition fooLookup := mkLookup "/foo/" "/group/foo/public.zip".
Definition bLookup := mkLookup "/b" "/group/b/public.zip".

Definition clientOf (lookups : list Api.LookupPath) : Client :=
  fun _ => (Some {| Api.Certificate := ""; Api.Key := "";
                    Api.LookupPaths := lookups |}, None).

End Gitlab.

(** ** internal/vfs/zip/archive.go *)

Module Zip.
Import GoStrings Http.

(** *** [os.FileMode] *)

Definition ModeDir : Z := Z.shiftl 1 31.
Definition ModeSymlink : Z := Z.shiftl 1 27.
Definition ModeDevice : Z := Z.shiftl 1 26.
Definition ModeNamedPipe : Z := Z.shiftl 1 25.
Definition ModeSocket : Z := Z.shiftl 1 24.
Definition ModeCharDevice : Z := Z.shiftl 1 21.
Definition ModeIrregular : Z := Z.shiftl 1 19.

Definition ModeType : Z :=
  Z.lor ModeDir (Z.lor ModeSymlink (Z.lor ModeNamedPipe (Z.lor ModeSocket
    (Z.lor ModeDevice (Z.lor ModeCharDevice ModeIrregular))))).

Definition IsDir (m : Z) : bool := negb (Z.land m ModeDir =? 0)%Z.
Definition IsRegular (m : Z) : bool := (Z.land m ModeType =? 0)%Z.

(** *** [zip.FileHeader] and [zip.File] *)

(** [AttrMode] is the mode that [FileHeader.Mode] derives from the creator
version and the external attributes of the record. *)
Record FileHeader := {
  Name : string;
  AttrMode : Z;
  Method : Z;
  CompressedSize64 : Z
}.

(** The last byte of a string. *)
Fixpoint lastByte (s : string) : option ascii :=
  match s with
  | EmptyString => None
  | String c EmptyString => Some c
  | String _ s' => lastByte s'
  end.

(** [FileHeader.Mode]: a name that ends with a slash is a directory whatever
the attributes say. *)
Definition Mode (h : FileHeader) : Z :=
  match lastByte (Name h) with
  | Some c => if Ascii.eqb c "/"%char then Z.lor (AttrMode h) ModeDir else AttrMode h
  | None => AttrMode h
  end.

(** A [zip.File]: its header, and what reading the entry from the remote
resource yields: the offset of its data ([File.DataOffset]) and the first
bytes of its content (read by [Readlink]). *)
Record File := {
  Header : FileHeader;
  DataOffset : Z + error;
  LinkData : string + error
}.

Definition FileName (f : File) : string := Name (Header f).

(** [httprange.Resource]: the URL it reads, the size it learned and the last
error it met. *)
Record Resource := {
  URL : string;
  Size : Z;
  ResourceErr : option error
}.

(** *** [zipArchive] *)

(** The fields of [zipArchive] that the archive operations read and write.
[archiveFile] is [a.archive.File] ([None]: [a.archive] is nil). *)
Record zipArchive := {
  resource : option Resource;
  archiveFile : option (list File);
  err : option error;
  files : gmap string File;
  directories : gmap string FileHeader;
  publicDirectoryName : string
}.

(** [newArchive]: empty maps, nothing read yet. *)
Definition newArchive : zipArchive :=
  {| resource := None; archiveFile := None; err := None;
     files := ∅; directories := ∅; publicDirectoryName := "" |}.

Definition maxSymlinkSize : nat := 256.

Definition errNotSymlink : error := "not a symlink".
Definition errSymlinkSize : error := "symlink too long".
Definition errNotFile : error := "not a file".
(** [os.ErrNotExist] *)
Definition ErrNotExist : error := "file does not exist".

(** [sliceContains] *)
Fixpoint sliceContains (slice : list string) (value : string) : bool :=
  match slice with
  | [] => false
  | item :: rest => if String.eqb item value then true else sliceContains rest value
  end.

(** The loop of [getAllRootDirectories] over [a.archive.File]; the [break]
on an empty split is kept (it is never taken: [SplitN] returns a piece). *)
Fixpoint rootDirectoriesLoop (archive : list File) (rootDirectories : list string)
  : list string :=
  match archive with
  | [] => rootDirectories
  | file :: rest =>
      match SplitN2 (FileName file) with
      | [] => rootDirectories
      | rootDir :: _ =>
          if sliceContains rootDirectories rootDir
          then rootDirectoriesLoop rest rootDirectories
          else rootDirectoriesLoop rest (rootDirectories ++ [rootDir])
      end
  end.

(** [getAllRootDirectories] *)
Definition getAllRootDirectories (archive : list File) : list string :=
  rootDirectoriesLoop archive [].

(** Folder names used by popular site generators, in the order of the source. *)
Definition commonPrefixes : list string :=
  ["public"; "build"; "dist"; "out"; "_site"].

(** The loop over [commonPrefixes] in [guessPublicDirectoryName]. *)
Fixpoint firstCommonPrefix (prefixes rootDirectories : list string) : string :=
  match prefixes with
  | [] => ""
  | pref :: rest =>
      if sliceContains rootDirectories pref then pref
      else firstCommonPrefix rest rootDirectories
  end.

(** [guessPublicDirectoryName] *)
Definition guessPublicDirectoryName (archive : list File) : string :=
  let rootDirectories := getAllRootDirectories archive in
  match rootDirectories with
  | [only] => only
  | _ => firstCommonPrefix commonPrefixes rootDirectories
  end.

(** [addPathDirectory]: the directory part of [pathname] gets an entry unless
it is empty or has one.  The entry is a header with nothing but its name:
[Mode] derives the permission bits [0666] from its zero attributes, and the
directory bit from the slash that ends the name. *)
Definition addPathDirectory (directories : gmap string FileHeader) (pathname : string)
  : gmap string FileHeader :=
  let pathname := fst (GoPath.Split pathname) in
  if String.eqb pathname "" then directories
  else match directories !! pathname with
       | Some _ => directories
       | None =>
           <[pathname := {| Name := pathname; AttrMode := 438; Method := 0;
                            CompressedSize64 := 0 |}]> directories
       end.

(** One turn of the loop of [readArchive] (archive.go:143-155). *)
Definition recordFile (a : zipArchive) (file : File) : zipArchive :=
  if negb (HasPrefix (FileName file) (publicDirectoryName a)) then a
  else
    let a' :=
      if IsDir (Mode (Header file))
      then {| resource := resource a; archiveFile := archiveFile a; err := err a;
              files := files a;
              directories := <[FileName file := Header file]> (directories a);
              publicDirectoryName := publicDirectoryName a |}
      else {| resource := resource a; archiveFile := archiveFile a; err := err a;
              files := <[FileName file := file]> (files a);
              directories := directories a;
              publicDirectoryName := publicDirectoryName a |} in
    {| resource := resource a'; archiveFile := archiveFile a'; err := err a';
       files := files a';
       directories := addPathDirectory (directories a') (FileName file);
       publicDirectoryName := publicDirectoryName a' |}.

(** [readArchive], the goroutine's body without the closing of [done]:
[newResource] is what [httprange.NewResource] returns and [newReader] what
[zip.NewReader] leaves in [a.archive] and [a.err]. *)
Definition readArchive (a : zipArchive)
    (newResource : Resource + error)
    (newReader : option (list File) * option error) : zipArchive :=
  match newResource with
  | inr e =>
      {| resource := None; archiveFile := archiveFile a; err := Some e;
         files := files a; directories := directories a;
         publicDirectoryName := publicDirectoryName a |}
  | inl res =>
      match newReader with
      | (Some archive, None) =>
          let a1 :=
            {| resource := Some res; archiveFile := Some archive; err := None;
               files := files a; directories := directories a;
               publicDirectoryName := guessPublicDirectoryName archive |} in
          let a2 := fold_left recordFile archive a1 in
          {| resource := resource a2; archiveFile := Some []; err := err a2;
             files := files a2; directories := directories a2;
             publicDirectoryName := publicDirectoryName a2 |}
      | (archive, e) =>
          {| resource := Some res; archiveFile := archive; err := e;
             files := files a; directories := directories a;
             publicDirectoryName := publicDirectoryName a |}
      end
  end.

(** [findFile] *)
Definition findFile (a : zipArchive) (name : string) : option File :=
  files a !! GoPath.Clean (publicDirectoryName a ++ "/" ++ name).

(** [findDirectory] *)
Definition findDirectory (a : zipArchive) (name : string) : option FileHeader :=
  directories a !! (GoPath.Clean (publicDirectoryName a ++ "/" ++ name) ++ "/").

(** What [Lstat] returns: the [FileInfo] of a file or of a directory header,
or an error. *)
Inductive lstatResult :=
| FileInfoOfFile (f : File)
| FileInfoOfDirectory (h : FileHeader)
| LstatErr (e : error).

(** [Lstat] *)
Definition Lstat (a : zipArchive) (name : string) : lstatResult :=
  match findFile a name with
  | Some file => FileInfoOfFile file
  | None =>
      match findDirectory a name with
      | Some directory => FileInfoOfDirectory directory
      | None => LstatErr ErrNotExist
      end
  end.

(** The compression methods [zip.Store] and [zip.Deflate]. *)
Definition Store : Z := 0.
Definition Deflate : Z := 8.

(** What [Open] returns: a reader over the data of [file] (through an
inflater for [Deflate]), or an error. *)
Inductive openResult :=
| DeflateReader (file : File) (dataOffset : Z)
| SectionReader (file : File) (dataOffset : Z)
| UnsupportedMethod (method : Z)
| OpenErr (e : error).

(** [Open] *)
Definition Open (a : zipArchive) (name : string) : openResult :=
  match findFile a name with
  | None =>
      match findDirectory a name with
      | Some _ => OpenErr errNotFile
      | None => OpenErr ErrNotExist
      end
  | Some file =>
      if negb (IsRegular (Mode (Header file))) then OpenErr errNotFile
      else match DataOffset file with
           | inr e => OpenErr e
           | inl dataOffset =>
               if (Method (Header file) =? Deflate)%Z then DeflateReader file dataOffset
               else if (Method (Header file) =? Store)%Z then SectionReader file dataOffset
               else UnsupportedMethod (Method (Header file))
           end
  end.

(** [Readlink]; [LinkData] holds what [io.ReadFull] read into the buffer of
[maxSymlinkSize + 1] bytes. *)
Definition Readlink (a : zipArchive) (name : string) : string + error :=
  match findFile a name with
  | None =>
      match findDirectory a name with
      | Some _ => inr errNotSymlink
      | None => inr ErrNotExist
      end
  | Some file =>
      if negb (Z.land (Mode (Header file)) ModeSymlink =? ModeSymlink)%Z
      then inr errNotSymlink
      else match LinkData file with
           | inr e => inr e
           | inl symlink =>
               if (maxSymlinkSize <? String.length symlink)%nat
               then inr errSymlinkSize
               else inl symlink
           end
  end.

(** *** The public directory in the words of the specification *)

(** The top-level directories of an archive: the first path element of every
entry that lies in a directory (its name has a slash), without repeats, in
the order of the archive. *)
Fixpoint specTopLevelDirectories (archive : list File) (seen : list string)
  : list string :=
  match archive with
  | [] => seen
  | file :: rest =>
      match cut_slash (FileName file) with
      | Some (dir, _) =>
          if sliceContains seen dir then specTopLevelDirectories rest seen
          else specTopLevelDirectories rest (seen ++ [dir])
      | None => specTopLevelDirectories rest seen
      end
  end.

(** The public prefix of the specification: the sole top-level directory,
else the first candidate among the top-level directories, else empty. *)
Definition specPublicPrefix (archive : list File) : string :=
  let dirs := specTopLevelDirectories archive [] in
  match dirs with
  | [only] => only
  | _ => firstCommonPrefix commonPrefixes dirs
  end.

(** [name] lies in the subtree of the directory [prefix]: it is the
directory itself or a path below it.  Every name lies in the subtree of the
empty prefix. *)
Definition inSubtree (prefix name : string) : bool :=
  String.eqb prefix ""
  || String.eqb name prefix
  || HasPrefix name (prefix ++ "/").

(** Every recorded file that lies in a directory has an entry for that
directory. *)
Definition parentsRecorded (a : zipArchive) : Prop :=
  forall name f,
    files a !! name = Some f ->
    fst (GoPath.Split name) <> "" ->
    is_Some (directories a !! fst (GoPath.Split name)).

(** [Lstat] did not fail. *)
Definition lstatFound (r : lstatResult) : bool :=
  match r with
  | LstatErr _ => false
  | _ => true
  end.

(** The first path element of every record, in the order of the archive:
what [getAllRootDirectories] reads off each name. *)
Definition firstElements (archive : list File) : list string :=
  map (fun file => hd "" (SplitN2 (FileName file))) archive.

(** A name without slash: a single path element. *)
Definition noSlash (s : string) : Prop := cut_slash s = None.

(** Every key of the two indexes is the name of its entry and starts with
the bytes of the public directory name. *)
Definition namesStartWithPrefix (a : zipArchive) : Prop :=
  (forall name f, files a !! name = Some f ->
     FileName f = name /\ HasPrefix name (publicDirectoryName a) = true)
  /\ (forall name h, directories a !! name = Some h ->
        Name h = name /\ HasPrefix name (publicDirectoryName a) = true).

(** *** Concrete archives *)

Definition regularFile (name : string) : File :=
  {| Header := {| Name := name; AttrMode := 420; Method := Deflate;
                  CompressedSize64 := 6 |};
     DataOffset := inl 64%Z;
     LinkData := inr errNotSymlink |}.

Definition opened (archive : list File) : zipArchive :=
  readArchive newArchive
    (inl {| URL := "http://store/public.zip"; Size := 1024; ResourceErr := None |})
    (Some archive, None).

(** A symbolic link: the symlink bit in its mode, the target as content. *)
Definition symlinkFile (name target : string) : File :=
  {| Header := {| Name := name; AttrMode := Z.lor ModeSymlink 511; Method := Store;
                  CompressedSize64 := Z.of_nat (String.length target) |};
     DataOffset := inl 128%Z;
     LinkData := inl target |}.

End Zip.

(** ** internal/vfs/zip/archive.go: opening an archive once *)

Module ZipOpen.
Import Http Zip.
Local Open Scope nat_scope.

(** The callers of [openArchive] on one [zipArchive] and the goroutine that
runs [readArchive] are interleaved.  The state holds what they share; an
[event] is one atomic step of one of them, or of the world around them (a
context that ends, a resource that fails).  Time is not measured: a deadline
is an event that may happen at any moment. *)

Inductive archiveStatus :=
| archiveOpening
| archiveOpenError
| archiveOpened
| archiveCorrupted.

(** How a context ends: [context.Canceled] or [context.DeadlineExceeded]. *)
Inductive ctxError :=
| Canceled
| DeadlineExceeded.

Definition ctxErr (e : ctxError) : error :=
  match e with
  | Canceled => "context canceled"
  | DeadlineExceeded => "context deadline exceeded"
  end.

(** Where a call of [openArchive] stands:
- [Entered]: called, before line 79;
- [AtOnce]: the status was [archiveOpening]; before [a.once.Do] (line 91);
- [Waiting]: at the [select] (line 98);
- [Returned e]: returned [e]. *)
Inductive callerPc :=
| Entered
| AtOnce
| Waiting
| Returned (e : option error).

(** A caller: the URL it passed, whether its context has ended (the context
of line 88: the parent's, cut at [openTimeout]), and where it stands. *)
Record caller := {
  url : string;
  ctxDone : option ctxError;
  pc : callerPc
}.

(** The archive and its synchronization: [onceDone] is the state of [a.once], [reading]
says that the goroutine of [readArchive] runs, [reads] counts the goroutines
started, [doneClosed] says that [a.done] is closed. *)
Record state := {
  archive : zipArchive;
  onceDone : bool;
  reading : bool;
  reads : nat;
  doneClosed : bool;
  callers : list caller
}.

(** [newArchive] with nobody calling. *)
Definition init : state :=
  {| archive := newArchive; onceDone := false; reading := false; reads := 0;
     doneClosed := false; callers := [] |}.

(** [openStatus] *)
Definition openStatus (s : state) : archiveStatus * option error :=
  if doneClosed s then
    match err (archive s) with
    | Some e => (archiveOpenError, Some e)
    | None =>
        match resource (archive s) with
        | Some res =>
            match ResourceErr res with
            | Some e => (archiveCorrupted, Some e)
            | None => (archiveOpened, None)
            end
        | None => (archiveOpened, None)
        end
    end
  else (archiveOpening, None).

(** [a.resource.SetURL(url)] when the resource is there. *)
Definition setURL (a : zipArchive) (u : string) : zipArchive :=
  match resource a with
  | Some res =>
      {| resource := Some {| URL := u; Size := Size res; ResourceErr := ResourceErr res |};
         archiveFile := archiveFile a; err := err a; files := files a;
         directories := directories a;
         publicDirectoryName := publicDirectoryName a |}
  | None => a
  end.

(** The resource reports the error [e] from now on. *)
Definition failResource (a : zipArchive) (e : error) : zipArchive :=
  match resource a with
  | Some res =>
      {| resource := Some {| URL := URL res; Size := Size res; ResourceErr := Some e |};
         archiveFile := archiveFile a; err := err a; files := files a;
         directories := directories a;
         publicDirectoryName := publicDirectoryName a |}
  | None => a
  end.

Inductive event :=
| Call (u : string)
| CtxDone (i : nat) (e : ctxError)
| CheckStatus (i : nat)
| OnceDo (i : nat)
| SelectDone (i : nat)
| SelectCtx (i : nat)
| ReadFinish (newResource : Resource + error)
             (newReader : option (list File) * option error)
| ResourceFails (e : error).

Definition setCaller (s : state) (i : nat) (c : caller) : state :=
  {| archive := archive s; onceDone := onceDone s; reading := reading s;
     reads := reads s; doneClosed := doneClosed s;
     callers := <[i := c]> (callers s) |}.

Definition at_ (c : caller) (p : callerPc) : caller :=
  {| url := url c; ctxDone := ctxDone c; pc := p |}.

(** One step.
- [Call u]: a goroutine calls [openArchive(parentCtx, u)].
- [CtxDone i e]: the context of caller [i] ends with [e].
- [CheckStatus i] (lines 79-86): the URL of the resource is updated; the
  caller returns the error of [openStatus] unless the status is
  [archiveOpening].
- [OnceDo i] (lines 88-95): the first caller to get here starts the goroutine
  of [readArchive]; every caller goes on to the [select].
- [SelectDone i] (lines 99-100): [a.done] is closed; the caller returns
  [a.err].
- [SelectCtx i] (lines 101-110): the context has ended; the caller returns
  its error.
- [ReadFinish newResource newReader]: the goroutine runs [readArchive] to its
  end, with what the resource and the ZIP reader gave it, and closes [a.done].
- [ResourceFails e]: a later read of the resource fails. *)
Definition exec (s : state) (ev : event) : option state :=
  match ev with
  | Call u =>
      Some {| archive := archive s; onceDone := onceDone s; reading := reading s;
              reads := reads s; doneClosed := doneClosed s;
              callers := callers s ++ [{| url := u; ctxDone := None; pc := Entered |}] |}
  | CtxDone i e =>
      match callers s !! i with
      | Some c =>
          match ctxDone c with
          | None => Some (setCaller s i {| url := url c; ctxDone := Some e; pc := pc c |})
          | Some _ => None
          end
      | None => None
      end
  | CheckStatus i =>
      match callers s !! i with
      | Some c =>
          match pc c with
          | Entered =>
              let s1 :=
                {| archive := setURL (archive s) (url c); onceDone := onceDone s;
                   reading := reading s; reads := reads s;
                   doneClosed := doneClosed s; callers := callers s |} in
              match openStatus s1 with
              | (archiveOpening, _) => Some (setCaller s1 i (at_ c AtOnce))
              | (_, e) => Some (setCaller s1 i (at_ c (Returned e)))
              end
          | _ => None
          end
      | None => None
      end
  | OnceDo i =>
      match callers s !! i with
      | Some c =>
          match pc c with
          | AtOnce =>
              if onceDone s then Some (setCaller s i (at_ c Waiting))
              else
                Some (setCaller
                        {| archive := archive s; onceDone := true; reading := true;
                           reads := S (reads s); doneClosed := doneClosed s;
                           callers := callers s |}
                        i (at_ c Waiting))
          | _ => None
          end
      | None => None
      end
  | SelectDone i =>
      match callers s !! i with
      | Some c =>
          match pc c with
          | Waiting =>
              if doneClosed s
              then Some (setCaller s i (at_ c (Returned (err (archive s)))))
              else None
          | _ => None
          end
      | None => None
      end
  | SelectCtx i =>
      match callers s !! i with
      | Some c =>
          match pc c, ctxDone c with
          | Waiting, Some e => Some (setCaller s i (at_ c (Returned (Some (ctxErr e)))))
          | _, _ => None
          end
      | None => None
      end
  | ReadFinish newResource newReader =>
      if reading s
      then Some {| archive := readArchive (archive s) newResource newReader;
                   onceDone := onceDone s; reading := false; reads := reads s;
                   doneClosed := true; callers := callers s |}
      else None
  | ResourceFails e =>
      Some {| archive := failResource (archive s) e; onceDone := onceDone s;
              reading := reading s; reads := reads s; doneClosed := doneClosed s;
              callers := callers s |}
  end.

Fixpoint run (s : state) (trace : list event) : option state :=
  match trace with
  | [] => Some s
  | ev :: rest =>
      match exec s ev with
      | Some s' => run s' rest
      | None => None
      end
  end.

Definition reachable (s : state) : Prop := exists trace, run init trace = Some s.

(** The event is a step of a caller or of a caller's context. *)
Definition ofCaller (ev : event) : bool :=
  match ev with
  | ReadFinish _ _ | ResourceFails _ => false
  | _ => true
  end.

(** What every reachable state satisfies: one goroutine is started when the
[once] fires and none otherwise; it runs from then until [done] is closed;
a closed [done] means that the [once] has fired. *)
Record invariant (s : state) : Prop := {
  inv_reads : reads s = if onceDone s then 1 else 0;
  inv_reading : reading s = onceDone s && negb (doneClosed s);
  inv_done : doneClosed s = true -> onceDone s = true
}.

(** What an archive that has been read answers to a caller: the error of the
read, or after a successful read the error its resource reports. *)
Definition storedResult (a : zipArchive) : option error :=
  match err a with
  | Some e => Some e
  | None =>
      match resource a with
      | Some res => ResourceErr res
      | None => None
      end
  end.

(** Every caller that was returned no error stands on an archive whose read
has finished and stored no error. *)
Definition nilMeansRead (s : state) : Prop :=
  forall i c,
    callers s !! i = Some c -> pc c = Returned None ->
    doneClosed s = true /\ err (archive s) = None.

(** A healthy resource and the archive with the file [public/index.html]. *)
Definition goodResource : Resource :=
  {| URL := "http://store/public.zip?sig=1"; Size := 1024; ResourceErr := None |}.

Definition goodReader : option (list File) * option error :=
  (Some [regularFile "public/index.html"], None).

End ZipOpen.

(** ** app.go *)

Module App.
Import GoStrings Http.

(** [appConfig]: the fields the request path reads. *)
Record appConfig := {
  Domain : string;
  ArtifactsServer : string;
  RedirectHTTP : bool;
  StatusPath : string;
  DisableCrossOriginRequests : bool
}.

(** The per-domain configuration read by [ensureCertificate]. *)
Record domainConfig := {
  Certificate : string;
  Key : string
}.

(** What lies outside [app.go]: the TLS library ([tls.Certificate],
[tls.X509KeyPair]), [strings.ToLower], [net.SplitHostPort] (the host, or an
error), [url.URL.String] for the URL of a request with its scheme and host
replaced, the artifact proxy ([Artifact.TryMakeRequest]: the calls it made on
the response when it took the request) and the domain's [IsHTTPSOnly]. *)
Class Externals := {
  TLSCertificate : Type;
  X509KeyPair : string -> string -> TLSCertificate + error;
  ToLower : string -> string;
  SplitHostPort : string -> string + error;
  URLString : string -> string -> Request -> string;
  TryMakeRequest : string -> Request -> option (list action);
  IsHTTPSOnly : string -> Request -> bool
}.

Section WithExternals.
Context {ext : Externals}.

(** A domain of the domain map: its group and project, its configuration (nil
for a group domain) and the certificate assembled so far. *)
Record domain := {
  Group : string;
  Project : string;
  Config : option domainConfig;
  certificate : option TLSCertificate
}.

(** [theApp]: [dm] is the domain map ([None]: the nil map of an application
whose domains were never updated). *)
Record theApp := {
  config : appConfig;
  dm : option (gmap string domain)
}.

(** [isReady] *)
Definition isReady (a : theApp) : bool :=
  match dm a with
  | Some _ => true
  | None => false
  end.

(** [theApp.domain]: reading a nil map yields nil. *)
Definition domainOf (a : theApp) (host : string) : option domain :=
  match dm a with
  | Some m => m !! ToLower host
  | None => None
  end.

(** [ensureCertificate] (the domain's [EnsureCertificate]): the certificate and
the error it returns, and the domain with the certificate it has cached. *)
Definition ensureCertificate (d : domain)
  : (option TLSCertificate * option error) * domain :=
  match Config d with
  | None =>
      ((None, Some "tls certificates can be loaded only for pages with configuration"), d)
  | Some cfg =>
      match certificate d with
      | Some cert => ((Some cert, None), d)
      | None =>
          match X509KeyPair (Certificate cfg) (Key cfg) with
          | inr e => ((None, Some e), d)
          | inl tls =>
              ((Some tls, None),
               {| Group := Group d; Project := Project d; Config := Config d;
                  certificate := Some tls |})
          end
      end
  end.

(** [tls.ClientHelloInfo] *)
Record ClientHelloInfo := { ServerName : string }.

(** [ServeTLS]: the certificate and the error handed to the TLS stack, and
the application with the domain as [ensureCertificate] left it. *)
Definition ServeTLS (a : theApp) (ch : ClientHelloInfo)
  : (option TLSCertificate * option error) * theApp :=
  if String.eqb (ServerName ch) "" then ((None, None), a)
  else match domainOf a (ServerName ch) with
       | Some domain =>
           let '((tls, _), domain') := ensureCertificate domain in
           ((tls, None),
            {| config := config a;
               dm := (fun m => <[ToLower (ServerName ch) := domain']> m) <$> dm a |})
       | None => ((None, None), a)
       end.

(** [healthCheck] *)
Definition healthCheck (a : theApp) (w : list action) : list action :=
  if isReady a then (w ++ [Write "success"])%list
  else (w ++ [Error "not yet ready" 503])%list.

(** [redirectToHTTPS]: the URL of the request with the scheme [https], the
host of the request and no user. *)
Definition redirectToHTTPS (r : Request) (w : list action) (statusCode : Z)
  : list action :=
  (w ++ [Redirect (URLString "https" (Host r) r) statusCode])%list.

(** [getHostAndDomain] *)
Definition getHostAndDomain (a : theApp) (r : Request) : string * option domain :=
  let host := match SplitHostPort (Host r) with
              | inl host => host
              | inr _ => Host r
              end in
  (host, domainOf a host).

(** [tryAuxiliaryHandlers]: whether the request was handled, and the calls
made on the response. *)
Definition tryAuxiliaryHandlers (a : theApp) (w : list action) (r : Request)
    (https : bool) (host : string) (domain : option domain)
  : bool * list action :=
  if String.eqb (RequestURI r) (StatusPath (config a)) then
    (true, healthCheck a w)
  else if negb https && RedirectHTTP (config a) then
    (true, redirectToHTTPS r w 307)
  else match TryMakeRequest host r with
       | Some calls => (true, (w ++ calls)%list)
       | None =>
           if negb (isReady a) then (true, (w ++ [ServeError 503])%list)
           else match domain with
                | None => (true, (w ++ [ServeError 404])%list)
                | Some d =>
                    if negb https && IsHTTPSOnly host r then
                      (true, redirectToHTTPS r w 301)
                    else (false, w)
                end
       end.

(** [serveContent]: the calls made on the response.  A request that no
auxiliary handler took is served by the domain ([domain.ServeHTTP], behind
the CORS handler unless cross-origin requests are disabled). *)
Definition serveContent (a : theApp) (r : Request) (https : bool) : list action :=
  let '(host, domain) := getHostAndDomain a r in
  match tryAuxiliaryHandlers a [] r https host domain with
  | (true, w) => w
  | (false, w) =>
      if DisableCrossOriginRequests (config a)
      then (w ++ [Handled "domain.ServeHTTP" host])%list
      else (w ++ [Handled "corsHandler" host])%list
  end.

(** [ServeHTTP] and [ServeProxy] *)
Definition ServeHTTP (a : theApp) (r : Request) : list action :=
  serveContent a r (TLS r).

Definition ServeProxy (a : theApp) (r : Request) : list action :=
  serveContent a r
    (match Header r !! "X-Forwarded-Proto" with
     | Some proto => String.eqb proto "https"
     | None => false
     end).

(** [UpdateDomains] *)
Definition UpdateDomains (a : theApp) (m : gmap string domain) : theApp :=
  {| config := config a; dm := Some m |}.

End WithExternals.

(** *** A concrete application *)

(** No artifact server, hosts taken as they are, key pairs that never
assemble. *)
Definition plainExternals : Externals :=
  {| TLSCertificate := string;
     X509KeyPair := fun _ _ => inr "tls: failed to find any PEM data in certificate input";
     ToLower := fun host => host;
     SplitHostPort := fun hostport => inr "missing port in address";
     URLString := fun scheme host r => scheme ++ "://" ++ host ++ RequestURI r;
     TryMakeRequest := fun _ _ => None;
     IsHTTPSOnly := fun _ _ => false |}.

Definition plainConfig : appConfig :=
  {| Domain := "pages.test"; ArtifactsServer := ""; RedirectHTTP := false;
     StatusPath := "/-/healthy"; DisableCrossOriginRequests := false |}.

(** An application whose (empty) domain map has been set, one that never got
a domain map, and one with a domain whose key pair does not assemble. *)
Definition readyApp : @theApp plainExternals :=
  {| config := plainConfig; dm := Some ∅ |}.

Definition coldApp : @theApp plainExternals :=
  {| config := plainConfig; dm := None |}.

Definition brokenDomain : @domain plainExternals :=
  {| Group := "group"; Project := "project";
     Config := Some {| Certificate := "not a certificate"; Key := "not a key" |};
     certificate := None |}.

Definition brokenApp : @theApp plainExternals :=
  {| config := plainConfig; dm := Some {[ "broken.test" := brokenDomain ]} |}.

(** [GET /-/healthy] and [GET /-/healthy?probe=1] over clear text. *)
Definition statusRequest : Request :=
  {| Host := "pages.test"; RequestURI := "/-/healthy"; URL_Scheme := "http";
     URL_Path := "/-/healthy"; URL_Query := ∅; TLS := false; Header := ∅ |}.

Definition statusRequestWithQuery : Request :=
  {| Host := "pages.test"; RequestURI := "/-/healthy?probe=1"; URL_Scheme := "http";
     URL_Path := "/-/healthy"; URL_Query := {[ "probe" := ["1"] ]}; TLS := false;
     Header := ∅ |}.

(** A TLS library whose key pairs assemble (to the two texts side by side),
and an application with a domain that has not assembled its pair yet. *)
Definition pairingExternals : Externals :=
  {| TLSCertificate := string;
     X509KeyPair := fun cert key => inl (cert ++ "+" ++ key);
     ToLower := fun host => host;
     SplitHostPort := fun hostport => inr "missing port in address";
     URLString := fun scheme host r => scheme ++ "://" ++ host ++ RequestURI r;
     TryMakeRequest := fun _ _ => None;
     IsHTTPSOnly := fun _ _ => false |}.

Definition securedDomain : @domain pairingExternals :=
  {| Group := "group"; Project := "project";
     Config := Some {| Certificate := "certificate"; Key := "key" |};
     certificate := None |}.

Definition securedApp : @theApp pairingExternals :=
  {| config := plainConfig; dm := Some {[ "secure.test" := securedDomain ]} |}.

(** [GET /index.html] for the host [secure.test] over clear text. *)
Definition pageRequest : Request :=
  {| Host := "secure.test"; RequestURI := "/index.html"; URL_Scheme := "http";
     URL_Path := "/index.html"; URL_Query := ∅; TLS := false; Header := ∅ |}.

End App.

(** ** The domain of package [main] (tryFile, serveFromGroup, serveFromConfig) *)

(** [path/filepath] on a system whose separator is the slash. *)
Module GoFilepath.
Import GoStrings.

(** The elements from the first one that is not empty. *)
Fixpoint fromFirstNonEmpty (elem : list string) : list string :=
  match elem with
  | [] => []
  | e :: rest => if String.eqb e "" then fromFirstNonEmpty rest else elem
  end.

(** [filepath.Join(elem...)]: the elements from the first non-empty one
joined by slashes and cleaned; the empty string when all are empty. *)
Definition Join (elem : list string) : string :=
  match fromFirstNonEmpty elem with
  | [] => ""
  | l => GoPath.Clean (GoStrings.Join l)
  end.

(** [filepath.Clean] *)
Definition Clean (path : string) : string := GoPath.Clean path.

End GoFilepath.

Module Domain.
Import GoStrings Http App.

(** An open [*os.File]: the error of its [Stat]. *)
Record File := { StatErr : option error }.

(** The file system and the flag [pagesRoot]: [os.Lstat] gives the mode of a
path or an error, [os.Open] a file or an error. *)
Class FileSystem := {
  pagesRoot : string;
  osLstat : string -> Z + error;
  osOpen : string -> File + error
}.

(** [strings.SplitN(s, "/", 3)]: at most three pieces, the last one whole. *)
Definition SplitN3 (s : string) : list string :=
  match cut_slash s with
  | None => [s]
  | Some (a, rest) =>
      match cut_slash rest with
      | None => [a; rest]
      | Some (b, rest') => [a; b; rest']
      end
  end.

Section WithExternals.
Context {ext : Externals} {fs : FileSystem}.

(** [notFound]: [http.NotFound(w, r)] *)
Definition notFound (w : list action) : list action :=
  (w ++ [Error "404 page not found" 404])%list.

(** The public directory of a project of the domain's group. *)
Definition publicPathOf (d : domain) (projectName : string) : string :=
  GoFilepath.Join [pagesRoot; Group d; projectName; "public"].

(** The first value of [fullPath] in [tryFile] (lines 25-26). *)
Definition fullPathOf (d : domain) (projectName subPath : string) : string :=
  GoFilepath.Clean (GoFilepath.Join [publicPathOf d projectName; subPath]).

(** [tryFile]: whether the file was served, and the calls made on the
response.  [Handled "http.ServeContent" fullPath] stands for the call of
[http.ServeContent] with the file opened at [fullPath]. *)
Definition tryFile (d : domain) (w : list action) (r : Request)
    (projectName subPath : string) : bool * list action :=
  let publicPath := publicPathOf d projectName in
  let fullPath := fullPathOf d projectName subPath in
  if negb (HasPrefix fullPath publicPath) then (false, w)
  else
    match osLstat fullPath with
    | inr _ => (false, w)
    | inl fi =>
        let indexed :=
          if Zip.IsDir fi then
            let fullPath := GoFilepath.Join [fullPath; "index.html"] in
            match osLstat fullPath with
            | inr e => inr e
            | inl fi => inl (fullPath, fi)
            end
          else inl (fullPath, fi) in
        match indexed with
        | inr _ => (false, w)
        | inl (fullPath, fi) =>
            if negb (Zip.IsRegular fi) then (false, w)
            else
              match osOpen fullPath with
              | inr _ => (false, w)
              | inl file =>
                  match StatErr file with
                  | Some _ => (false, w)
                  | None => (true, (w ++ [Handled "http.ServeContent" fullPath])%list)
                  end
              end
        end
    end.

(** [serveFromGroup] *)
Definition serveFromGroup (d : domain) (w : list action) (r : Request)
  : list action :=
  let split := SplitN3 (URL_Path r) in
  let first :=
    match split with
    | _ :: project :: rest =>
        let subPath := match rest with
                       | sub :: _ => sub
                       | [] => ""
                       end in
        tryFile d w r project subPath
    | _ => (false, w)
    end in
  match first with
  | (true, w') => w'
  | (false, w') =>
      match tryFile d w' r (ToLower (Host r)) (URL_Path r) with
      | (true, w'') => w''
      | (false, w'') => notFound w''
      end
  end.

(** [serveFromConfig] *)
Definition serveFromConfig (d : domain) (w : list action) (r : Request)
  : list action :=
  match tryFile d w r (Project d) (URL_Path r) with
  | (true, w') => w'
  | (false, w') => notFound w'
  end.

(** [ServeHTTP] *)
Definition ServeHTTP (d : domain) (w : list action) (r : Request) : list action :=
  match Config d with
  | Some _ => serveFromConfig d w r
  | None => serveFromGroup d w r
  end.

End WithExternals.

(** *** A concrete tree *)

(** The pages of [group/project] under [/srv/pages]: the public directory
with its [index.html], and beside it a directory [public-old] with a file. *)
Definition plainTree : FileSystem :=
  {| pagesRoot := "/srv/pages";
     osLstat := fun p =>
       if String.eqb p "/srv/pages/group/project/public" then inl (Z.lor Zip.ModeDir 493)
       else if String.eqb p "/srv/pages/group/project/public/index.html" then inl 420%Z
       else if String.eqb p "/srv/pages/group/project/public-old/secret.txt" then inl 420%Z
       else inr "no such file or directory";
     osOpen := fun _ => inl {| StatErr := None |} |}.

(** A group domain, and requests for its project. *)
Definition groupDomain : @domain plainExternals :=
  {| Group := "group"; Project := ""; Config := None; certificate := None |}.

Definition projectRequest (path : string) : Request :=
  {| Host := "group.pages.test"; RequestURI := path; URL_Scheme := "http";
     URL_Path := path; URL_Query := ∅; TLS := false; Header := ∅ |}.

End Domain.

(** ** The archive that keeps the files under [public/] (package [zip],
an earlier [zipArchive]) *)

Module OldZip.
Import GoStrings Http.

Definition dirPrefix : string := "public/".

(** [zipArchive]: [zip] is [a.zip] with its [File] slice ([None]: nil), and
[files] the map of the files ([None]: the nil map, which can be read and
cannot be written). *)
Record zipArchive := {
  path : string;
  zip : option (list Zip.File);
  files : option (gmap string Zip.File);
  zipErr : option error
}.

(** [newArchive]: the path and the channel; the map is left nil. *)
Definition newArchive (path : string) : zipArchive :=
  {| path := path; zip := None; files := None; zipErr := None |}.

Inductive outcome :=
| Returned (a : zipArchive)
| Panicked.

(** The loop of [processZip]: an assignment to an entry of the nil map
panics ([None]). *)
Fixpoint processLoop (archive : list Zip.File) (files : option (gmap string Zip.File))
  : option (option (gmap string Zip.File)) :=
  match archive with
  | [] => Some files
  | file :: rest =>
      if negb (HasPrefix (Zip.FileName file) dirPrefix) then processLoop rest files
      else match files with
           | None => None
           | Some m => processLoop rest (Some (<[Zip.FileName file := file]> m))
           end
  end.

(** [processZip] *)
Definition processZip (a : zipArchive) : outcome :=
  match zip a with
  | None => Panicked
  | Some archive =>
      match processLoop archive (files a) with
      | None => Panicked
      | Some files' =>
          Returned {| path := path a; zip := Some []; files := files';
                      zipErr := zipErr a |}
      end
  end.

(** The function that [openArchive] passes to [a.once.Do], without the
closing of [done]; [opened] is what [openZIPArchive(a.path)] returns. *)
Definition openOnce (a : zipArchive) (opened : option (list Zip.File) * option error)
  : outcome :=
  let a1 := {| path := path a; zip := fst opened; files := files a;
               zipErr := snd opened |} in
  match zip a1 with
  | Some _ => processZip a1
  | None => Returned a1
  end.

(** [a.files[name]] *)
Definition fileAt (a : zipArchive) (name : string) : option Zip.File :=
  match files a with
  | Some m => m !! name
  | None => None
  end.

(** [findFile] *)
Definition findFile (a : zipArchive) (name : string) : option Zip.File :=
  fileAt a (TrimPrefix (GoFilepath.Clean name) "/").

(** [Lstat]: the file whose [FileInfo] is returned, or an error. *)
Definition Lstat (a : zipArchive) (name : string) : Zip.File + error :=
  match findFile a name with
  | None => inr Zip.ErrNotExist
  | Some file => inl file
  end.

(** [EvalSymlinks] *)
Definition EvalSymlinks (a : zipArchive) (name : string) : string + error :=
  match findFile a name with
  | None => inr Zip.ErrNotExist
  | Some file =>
      if negb (Z.land (Zip.Mode (Zip.Header file)) Zip.ModeSymlink =? Zip.ModeSymlink)%Z
      then inl name
      else inr "to be implemented"
  end.

(** What [Open] returns: [file.Open()] for a local archive; for an archive
read over HTTP a reader of the URL from the data offset of the file (its
length is the uncompressed size of the file), behind an inflater for
[Deflate]; or an error. *)
Inductive openResult :=
| FileOpen (file : Zip.File)
| HttpReader (url : string) (off : Z) (file : Zip.File)
| HttpDeflateReader (url : string) (off : Z) (file : Zip.File)
| UnsupportedCompression (method : Z)
| OpenErr (e : error).

(** [Open]; [isHTTPArchive] is the test of the same name on the path. *)
Definition Open (isHTTPArchive : string -> bool) (a : zipArchive) (name : string)
  : openResult :=
  match fileAt a name with
  | None => OpenErr Zip.ErrNotExist
  | Some file =>
      match Zip.DataOffset file with
      | inr e => OpenErr e
      | inl dataOffset =>
          if negb (isHTTPArchive (path a)) then FileOpen file
          else if (Zip.Method (Zip.Header file) =? Zip.Deflate)%Z
               then HttpDeflateReader (path a) dataOffset file
          else if (Zip.Method (Zip.Header file) =? Zip.Store)%Z
               then HttpReader (path a) dataOffset file
          else UnsupportedCompression (Zip.Method (Zip.Header file))
      end
  end.

End OldZip.

(** ** The OAuth layer (package [auth]) *)

Module Auth.
Import GoStrings Http.

(** *** Handlers: calls on the response, and panics *)

(** A handler either returns, having made calls on the response, or panics
(a nil dereference, a failed type assertion). *)
Inductive outcome (A : Type) :=
| Returned (x : A) (w : list action)
| Panicked.
Arguments Returned {A} x w.
Arguments Panicked {A}.

(** A computation that reads and extends the calls made so far. *)
Definition M (A : Type) : Type := list action -> outcome A.

Definition ret {A} (x : A) : M A := fun w => Returned x w.

Definition bind {A B} (m : M A) (k : A -> M B) : M B :=
  fun w => match m w with
           | Returned x w' => k x w'
           | Panicked => Panicked
           end.

Definition panic {A} : M A := fun _ => Panicked.

(** One call on the response writer. *)
Definition call (act : action) : M unit :=
  fun w => Returned tt (w ++ [act])%list.

Notation "x <- m ;; k" := (bind m (fun x => k))
  (at level 100, m at next level, right associativity).
Notation "m ;;; k" := (bind m (fun _ => k))
  (at level 100, right associativity).

(** *** The types of the package *)

(** A request to the GitLab API and its response. *)
Record ApiRequest := {
  ApiMethod : string;
  ApiURL : string;
  ApiBody : string;
  Authorization : option string
}.

Record ApiResponse := {
  StatusCode : Z;
  Body : string
}.

Record tokenResponse := {
  AccessToken : string;
  TokenType : string;
  ExpiresIn : Z;
  RefreshToken : string
}.

Record errorResponse := {
  ErrorField : string;
  ErrorDescription : string
}.

(** The envelope of the code relay. *)
Record envelope := {
  envCode : string;
  envAudience : string;
  envExpiry : Z;
  envKey : string
}.

(** [Auth].  [store] is the session store ([store.Get(r, "gitlab-pages")]),
[apiClient] is [apiClient.Do], [now] the time [a.now()] returns (seconds),
[jwtExpiry] a [time.Duration] (nanoseconds). *)
Record Auth := {
  pagesDomain : string;
  clientID : string;
  clientSecret : string;
  redirectURI : string;
  gitLabServer : string;
  authSecret : string;
  authScope : string;
  jwtSigningKey : string;
  jwtExpiry : Z;
  apiClient : ApiRequest -> ApiResponse + error;
  store : Request -> option Session * option error;
  now : Z
}.

(** The [domain] interface of the package. *)
Record domain := {
  GetProjectID : Request -> Z
}.

(** The [source.Source] a request is checked against: [GetDomain(name)]
returns a domain (here its name) and an error. *)
Definition Source := string -> option string * option error.

(** What lies outside the package: [request.IsHTTPS], [session.Save] (its
error), [url.Parse] (the host of the parsed URL, or an error),
[net.SplitHostPort], [http.NewRequest] (its error), the JSON decoders of the
two response bodies, the random state of
[securecookie.GenerateRandomKey] in base 64, the HKDF reader (the [i]-th key
of 32 bytes derived from a secret), [sessions.NewCookieStore], the HTTP
client of [New], and the sealing and opening of a code-relay envelope
(signing and encryption with the JWT key). *)
Class Externals := {
  IsHTTPS : Request -> bool;
  SessionSave : Session -> Request -> option error;
  urlParseHost : string -> string + error;
  SplitHostPort : string -> string + error;
  NewRequest : string -> string -> option error;
  decodeToken : string -> tokenResponse + error;
  decodeError : string -> errorResponse + error;
  GenerateRandomState : string;
  hkdfKey : string -> nat -> string + error;
  NewCookieStore : string -> string -> Request -> option Session * option error;
  defaultClient : ApiRequest -> ApiResponse + error;
  currentTime : Z;
  seal : envelope -> string + error;
  unseal : string -> string -> envelope + error
}.

Section WithExternals.
Context {ext : Externals}.

Definition callbackPath : string := "/auth".
Definition authSessionMaxAge : Z := 60 * 10.
Definition Minute : Z := 60 * 1000000000.

Definition errResponseNotOk : error := "response was not ok".
Definition errAuthNotConfigured : error := "authentication is not configured".
Definition errGenerateKeys : error := "could not generate auth keys".

(** A method reads a field of its receiver: a nil receiver panics there. *)
Definition receiver {A} (a : option Auth) (k : Auth -> M A) : M A :=
  match a with
  | Some a' => k a'
  | None => panic
  end.

(** A method is called on a session pointer: a nil session panics there. *)
Definition deref {A} (session : option Session) (k : Session -> M A) : M A :=
  match session with
  | Some s => k s
  | None => panic
  end.

(** [session.Save(r, w)]: the cookie is written unless saving fails. *)
Definition Save (session : Session) (r : Request) : M (option error) :=
  match SessionSave session r with
  | Some e => ret (Some e)
  | None => call (SetCookie session) ;;; ret None
  end.

(** [getSessionFromStore] *)
Definition getSessionFromStore (a : option Auth) (r : Request)
  : M (option Session * option error) :=
  receiver a (fun a' =>
    let '(session, err) := store a' r in
    ret (match session with
         | Some s =>
             Some {| Values_ := Values_ s;
                     SessionOptions :=
                       {| OptPath := "/"; OptHttpOnly := true;
                          OptSecure := IsHTTPS r;
                          OptMaxAge := authSessionMaxAge |} |}
         | None => None
         end, err)).

(** [getRequestAddress] and [getRequestDomain] *)
Definition getRequestAddress (r : Request) : string :=
  if IsHTTPS r then "https://" ++ Host r ++ RequestURI r
  else "http://" ++ Host r ++ RequestURI r.

Definition getRequestDomain (r : Request) : string :=
  if IsHTTPS r then "https://" ++ Host r
  else "http://" ++ Host r.

(** [checkSession] *)
Definition checkSession (a : option Auth) (r : Request)
  : M (option Session * option error) :=
  res <- getSessionFromStore a r ;;
  match res with
  | (session, Some errsession) =>
      deref session (fun s =>
        errsave <- Save s r ;;
        match errsave with
        | Some e => call (ServeError 500) ;;; ret (None, Some e)
        | None =>
            call (Redirect (getRequestAddress r) 302) ;;;
            ret (None, Some errsession)
        end)
  | (session, None) => ret (session, None)
  end.

(** [shouldProxyAuthToGitlab] *)
Definition shouldProxyAuthToGitlab (r : Request) : bool :=
  negb (String.eqb (Get (URL_Query r) "domain") "")
  && negb (String.eqb (Get (URL_Query r) "state") "").

(** [shouldProxyCallbackToCustomDomain] *)
Definition shouldProxyCallbackToCustomDomain (session : Session) : bool :=
  match Values_ session !! "proxy_auth_domain" with
  | Some _ => true
  | None => false
  end.

(** [validateState] *)
Definition validateState (r : Request) (session : Session) : M bool :=
  let state := Get (URL_Query r) "state" in
  if String.eqb state "" then ret false
  else match Values_ session !! "state" with
       | None => ret false
       | Some (VString s) => ret (String.eqb s state)
       | Some (VOther _) => panic
       end.

(** [verifyCodeAndStateGiven] *)
Definition verifyCodeAndStateGiven (r : Request) : bool :=
  negb (String.eqb (Get (URL_Query r) "code") "")
  && negb (String.eqb (Get (URL_Query r) "state") "").

(** [domainAllowed] *)
Definition domainAllowed (a' : Auth) (name : string) (domains : Source) : bool :=
  let isConfigured :=
    String.eqb name (pagesDomain a') || HasSuffix ("." ++ name) (pagesDomain a') in
  if isConfigured then true
  else match domains name with
       | (Some _, None) => true
       | _ => false
       end.

(** Modelled from the spec: [EncryptAndSignCode] is not among the sources.
Section 4.I has the pages domain encrypt and sign the code, bound to the
tenant domain, as a JWT that lives one minute, with the JWT key; section 9
describes it as a signed and encrypted envelope that binds code, audience and
expiry. *)
Definition EncryptAndSignCode (a : option Auth) (domain code : string)
  : M (string + error) :=
  receiver a (fun a' =>
    ret (seal {| envCode := code; envAudience := domain;
                 envExpiry := now a' + jwtExpiry a' / 1000000000;
                 envKey := jwtSigningKey a' |})).

(** Modelled from the spec: [DecryptCode] is not among the sources.  Section
4.I has the tenant decrypt and verify the JWT: its audience is the tenant
domain and it has not expired. *)
Definition DecryptCode (a : option Auth) (jwt domain : string)
  : M (string + error) :=
  receiver a (fun a' =>
    ret (match unseal (jwtSigningKey a') jwt with
         | inr e => inr e
         | inl env =>
             if negb (String.eqb (envAudience env) domain)
             then inr "domain does not match"
             else if (envExpiry env <? now a')%Z then inr "token is expired"
             else inl (envCode env)
         end)).

(** The URLs and the form body built with [fmt.Sprintf]. *)
Definition authorizeURL (a' : Auth) (state : string) : string :=
  gitLabServer a' ++ "/oauth/authorize?client_id=" ++ clientID a'
  ++ "&redirect_uri=" ++ redirectURI a' ++ "&response_type=code&state=" ++ state
  ++ "&scope=" ++ authScope a'.

Definition tokenURL (a' : Auth) : string := gitLabServer a' ++ "/oauth/token".

Definition tokenContent (a' : Auth) (code : string) : string :=
  "client_id=" ++ clientID a' ++ "&client_secret=" ++ clientSecret a'
  ++ "&code=" ++ code ++ "&grant_type=authorization_code&redirect_uri="
  ++ redirectURI a'.

Definition apiURLUser (a' : Auth) : string := gitLabServer a' ++ "/api/v4/user".

Definition apiURLProject (a' : Auth) (projectID : Z) : string :=
  gitLabServer a' ++ "/api/v4/projects/" ++ pretty projectID ++ "/pages_access".

(** [handleProxyingAuth] *)
Definition handleProxyingAuth (a : option Auth) (session : option Session)
    (r : Request) (domains : Source) : M bool :=
  if shouldProxyAuthToGitlab r then
    let domain := Get (URL_Query r) "domain" in
    let state := Get (URL_Query r) "state" in
    match urlParseHost domain with
    | inr _ => call (ServeError 500) ;;; ret true
    | inl proxyHost =>
        let host := match SplitHostPort proxyHost with
                    | inl h => h
                    | inr _ => proxyHost
                    end in
        receiver a (fun a' =>
          if negb (domainAllowed a' host domains) then
            call (ServeError 401) ;;; ret true
          else
            deref session (fun s =>
              let s' := {| Values_ := <["proxy_auth_domain" := VString domain]> (Values_ s);
                           SessionOptions := SessionOptions s |} in
              err <- Save s' r ;;
              match err with
              | Some _ => call (ServeError 500) ;;; ret true
              | None =>
                  call (Redirect (authorizeURL a' state) 302) ;;; ret true
              end))
    end
  else
    deref session (fun s =>
      if shouldProxyCallbackToCustomDomain s then
        match Values_ s !! "proxy_auth_domain" with
        | Some (VString proxyDomain) =>
            let s' := {| Values_ := delete "proxy_auth_domain" (Values_ s);
                         SessionOptions := SessionOptions s |} in
            err <- Save s' r ;;
            match err with
            | Some _ => call (ServeError 500) ;;; ret true
            | None =>
                let query := URL_Query r in
                signed <- EncryptAndSignCode a proxyDomain (Get query "code") ;;
                match signed with
                | inr _ => call (ServeError 503) ;;; ret true
                | inl signedCode =>
                    let query := Del query "token" in
                    let query := Set_ query "code" signedCode in
                    call (Redirect (proxyDomain ++ URL_Path r ++ "?" ++ Encode query) 302) ;;;
                    ret true
                end
            end
        | _ => panic
        end
      else ret false).

(** [fetchAccessToken] *)
Definition fetchAccessToken (a : option Auth) (code : string)
  : M (tokenResponse + error) :=
  receiver a (fun a' =>
    let url := tokenURL a' in
    let content := tokenContent a' code in
    match NewRequest "POST" url with
    | Some e => ret (inr e)
    | None =>
        match apiClient a' {| ApiMethod := "POST"; ApiURL := url;
                              ApiBody := content; Authorization := None |} with
        | inr e => ret (inr e)
        | inl resp =>
            if negb (StatusCode resp =? 200)%Z then ret (inr errResponseNotOk)
            else ret (decodeToken (Body resp))
        end
    end).

(** [checkAuthenticationResponse] *)
Definition checkAuthenticationResponse (a : option Auth) (session : option Session)
    (r : Request) : M unit :=
  deref session (fun s =>
    ok <- validateState r s ;;
    if negb ok then call (ServeError 401)
    else
      match Values_ s !! "uri" with
      | Some (VString redirectURI) =>
          decrypted <- DecryptCode a (Get (URL_Query r) "code") (getRequestDomain r) ;;
          match decrypted with
          | inr _ => call (ServeError 500)
          | inl decryptedCode =>
              token <- fetchAccessToken a decryptedCode ;;
              match token with
              | inr _ => call (ServeError 503)
              | inl tok =>
                  let s' := {| Values_ := <["access_token" := VString (AccessToken tok)]>
                                            (Values_ s);
                               SessionOptions := SessionOptions s |} in
                  err <- Save s' r ;;
                  match err with
                  | Some _ => call (ServeError 500)
                  | None => call (Redirect redirectURI 302)
                  end
              end
          end
      | _ => call (ServeError 500)
      end).

(** [TryAuthenticate] *)
Definition TryAuthenticate (a : option Auth) (r : Request) (domains : Source)
  : M bool :=
  match a with
  | None => ret false
  | Some _ =>
      res <- checkSession a r ;;
      match res with
      | (_, Some _) => ret true
      | (session, None) =>
          if negb (String.eqb (URL_Path r) callbackPath) then ret false
          else
            handled <- handleProxyingAuth a session r domains ;;
            if handled then ret true
            else if negb (String.eqb (Get (URL_Query r) "error") "") then
              call (ServeError 401) ;;; ret true
            else if verifyCodeAndStateGiven r then
              checkAuthenticationResponse a session r ;;; ret true
            else ret false
      end
  end.

(** [getProxyAddress] *)
Definition getProxyAddress (a : option Auth) (r : Request) (state : string)
  : M string :=
  receiver a (fun a' =>
    ret (redirectURI a' ++ "?domain=" ++ getRequestDomain r ++ "&state=" ++ state)).

(** [checkTokenExists] *)
Definition checkTokenExists (a : option Auth) (session : option Session)
    (r : Request) : M bool :=
  deref session (fun s =>
    match Values_ s !! "access_token" with
    | Some _ => ret false
    | None =>
        let state := GenerateRandomState in
        let s' := {| Values_ := delete "proxy_auth_domain"
                                  (<["uri" := VString (getRequestAddress r)]>
                                     (<["state" := VString state]> (Values_ s)));
                     SessionOptions := SessionOptions s |} in
        err <- Save s' r ;;
        match err with
        | Some _ => call (ServeError 500) ;;; ret true
        | None =>
            address <- getProxyAddress a r state ;;
            call (Redirect address 302) ;;; ret true
        end
    end).

(** [checkSessionIsValid]: nil when the response has been written. *)
Definition checkSessionIsValid (a : option Auth) (r : Request)
  : M (option Session) :=
  res <- checkSession a r ;;
  match res with
  | (_, Some _) => ret None
  | (session, None) =>
      redirected <- checkTokenExists a session r ;;
      if redirected then ret None else ret session
  end.

(** [destroySession] *)
Definition destroySession (session : option Session) (r : Request) : M unit :=
  deref session (fun s =>
    let s' := {| Values_ := delete "access_token" (Values_ s);
                 SessionOptions := SessionOptions s |} in
    err <- Save s' r ;;
    match err with
    | Some _ => call (ServeError 500)
    | None => call (Redirect (getRequestAddress r) 302)
    end).

(** [IsAuthSupported] *)
Definition IsAuthSupported (a : option Auth) : bool :=
  match a with
  | Some _ => true
  | None => false
  end.

(** The package function [checkResponseForInvalidToken] *)
Definition checkResponseForInvalidToken_ (resp : ApiResponse)
    (session : option Session) (r : Request) : M bool :=
  if (StatusCode resp =? 401)%Z then
    match decodeError (Body resp) with
    | inr _ => ret false
    | inl errResp =>
        if String.eqb (ErrorField errResp) "invalid_token" then
          destroySession session r ;;; ret true
        else ret false
    end
  else ret false.

(** [checkAuthentication] *)
Definition checkAuthentication (a : option Auth) (r : Request) (d : domain)
  : M bool :=
  session <- checkSessionIsValid a r ;;
  match session with
  | None => ret true
  | Some s =>
      let projectID := GetProjectID d r in
      receiver a (fun a' =>
        let url := if (0 <? projectID)%Z then apiURLProject a' projectID
                   else apiURLUser a' in
        match NewRequest "GET" url with
        | Some _ => call (ServeError 500) ;;; ret true
        | None =>
            match Values_ s !! "access_token" with
            | Some (VString token) =>
                match apiClient a' {| ApiMethod := "GET"; ApiURL := url; ApiBody := "";
                                      Authorization := Some ("Bearer " ++ token) |} with
                | inl resp =>
                    invalid <- checkResponseForInvalidToken_ resp (Some s) r ;;
                    if invalid then ret true
                    else if negb (StatusCode resp =? 200)%Z then
                      call (Handled "ServeNotFoundAuthFailed" (Host r)) ;;; ret true
                    else ret false
                | inr _ =>
                    call (Handled "ServeNotFoundAuthFailed" (Host r)) ;;; ret true
                end
            | _ => panic
            end
        end)
  end.

(** [CheckAuthenticationWithoutProject] *)
Definition CheckAuthenticationWithoutProject (a : option Auth) (r : Request)
    (d : domain) : M bool :=
  match a with
  | None => ret false
  | Some _ => checkAuthentication a r d
  end.

(** [GetTokenIfExists] *)
Definition GetTokenIfExists (a : option Auth) (r : Request)
  : M (string * option error) :=
  match a with
  | None => ret ("", None)
  | Some _ =>
      res <- checkSession a r ;;
      match res with
      | (_, Some _) => ret ("", Some "Error retrieving the session")
      | (session, None) =>
          deref session (fun s =>
            match Values_ s !! "access_token" with
            | Some (VString token) => ret (token, None)
            | Some (VOther _) => panic
            | None => ret ("", None)
            end)
      end
  end.

(** [RequireAuth] *)
Definition RequireAuth (a : option Auth) (r : Request) : M bool :=
  session <- checkSessionIsValid a r ;;
  ret (match session with
       | None => true
       | Some _ => false
       end).

(** [CheckAuthentication] *)
Definition CheckAuthentication (a : option Auth) (r : Request) (d : domain)
  : M bool :=
  match a with
  | None => call (ServeError 500) ;;; ret true
  | Some _ => checkAuthentication a r d
  end.

(** [CheckResponseForInvalidToken] *)
Definition CheckResponseForInvalidToken (a : option Auth) (r : Request)
    (resp : ApiResponse) : M bool :=
  match a with
  | None => ret false
  | Some _ =>
      res <- checkSession a r ;;
      match res with
      | (_, Some _) => ret true
      | (session, None) =>
          invalid <- checkResponseForInvalidToken_ resp session r ;;
          if invalid then ret true else ret false
      end
  end.

(** [generateKeys]: [count] keys of 32 bytes read from the HKDF reader. *)
Fixpoint generateKeysFrom (secret : string) (i count : nat)
  : list string + error :=
  match count with
  | O => inl []
  | S count' =>
      match hkdfKey secret i with
      | inr e => inr e
      | inl key =>
          match generateKeysFrom secret (S i) count' with
          | inr e => inr e
          | inl keys => inl (key :: keys)
          end
      end
  end.

Definition generateKeys (secret : string) (count : nat) : list string + error :=
  match generateKeysFrom secret 0 count with
  | inr e => inr e
  | inl keys =>
      if (length keys <? count)%nat then inr errGenerateKeys else inl keys
  end.

(** [strings.TrimRight(s, "/")] *)
Fixpoint TrimRightSlash (s : string) : string :=
  match s with
  | EmptyString => EmptyString
  | String c s' =>
      match TrimRightSlash s' with
      | EmptyString => if Ascii.eqb c "/"%char then EmptyString else String c EmptyString
      | t => String c t
      end
  end.

(** [New] *)
Definition New (pagesDomain storeSecret clientID clientSecret redirectURI
                gitLabServer authScope : string) : Auth + error :=
  match generateKeys storeSecret 3 with
  | inl [k0; k1; k2] =>
      inl {| pagesDomain := pagesDomain;
             clientID := clientID;
             clientSecret := clientSecret;
             redirectURI := redirectURI;
             gitLabServer := TrimRightSlash gitLabServer;
             authSecret := storeSecret;
             authScope := authScope;
             jwtSigningKey := k2;
             jwtExpiry := Minute;
             apiClient := defaultClient;
             store := NewCookieStore k0 k1;
             now := currentTime |}
  | inl _ => inr errGenerateKeys
  | inr e => inr e
  end.



(** The session as [checkTokenExists] saves it before the redirect to the
login: a fresh state, the address asked for, no proxying domain. *)
Definition loginSession (s : Session) (r : Request) : Session :=
  {| Values_ := delete "proxy_auth_domain"
                  (<["uri" := VString (getRequestAddress r)]>
                     (<["state" := VString GenerateRandomState]> (Values_ s)));
     SessionOptions := SessionOptions s |}.

End WithExternals.

(** *** Answers *)

(** A call that answers the request: a page, an error or a redirect; the
cookie that [Save] sets is not an answer. *)
Definition isResponse (act : action) : bool :=
  match act with
  | SetCookie _ => false
  | _ => true
  end.

(** How many answers a response has been given. *)
Fixpoint responses (w : list action) : nat :=
  match w with
  | [] => 0
  | act :: rest => (if isResponse act then 1 else 0) + responses rest
  end.

(** *** A concrete deployment *)

(** Requests are HTTPS by their scheme, sessions save, the store reads the
session from the [Cookie] header (here: the proxying session when the header
is [proxying], an empty session otherwise), and an envelope is sealed as the
text of its fields. *)
Definition emptyOptions : Options :=
  {| OptPath := ""; OptHttpOnly := false; OptSecure := false; OptMaxAge := 0 |}.

Definition proxyingSession : Session :=
  {| Values_ := {[ "state" := VString "state";
                   "proxy_auth_domain" := VString "https://domain.com" ]};
     SessionOptions := emptyOptions |}.

Definition plainStore (r : Request) : option Session * option error :=
  match Header r !! "Cookie" with
  | Some "proxying" => (Some proxyingSession, None)
  | _ => (Some {| Values_ := ∅; SessionOptions := emptyOptions |}, None)
  end.

Definition plainExternals : Externals :=
  {| IsHTTPS := fun r => String.eqb (URL_Scheme r) "https";
     SessionSave := fun _ _ => None;
     urlParseHost := fun domain => inl (TrimPrefix (TrimPrefix domain "https://") "http://");
     SplitHostPort := fun hostport => inr "missing port in address";
     NewRequest := fun _ _ => None;
     decodeToken := fun _ => inr "unexpected end of JSON input";
     decodeError := fun _ => inr "unexpected end of JSON input";
     GenerateRandomState := "c3RhdGUtc3RhdGUtc3RhdGU=";
     hkdfKey := fun secret i => inl (secret ++ pretty i);
     NewCookieStore := fun _ _ => plainStore;
     defaultClient := fun _ => inr "connection refused";
     currentTime := 1700000000;
     seal := fun env =>
       inl ("jwt." ++ envAudience env ++ "." ++ envCode env ++ "."
            ++ pretty (envExpiry env));
     unseal := fun _ _ => inr "token is malformed" |}.

(** The authenticator of the package's tests, as [New] builds it from
["pages.gitlab-example.com"], ["something-very-secret"], ["id"], ["secret"],
["http://pages.gitlab-example.com/auth"], [""] and ["scope"]. *)
Definition testAuth : Auth :=
  {| pagesDomain := "pages.gitlab-example.com";
     clientID := "id";
     clientSecret := "secret";
     redirectURI := "http://pages.gitlab-example.com/auth";
     gitLabServer := "";
     authSecret := "something-very-secret";
     authScope := "scope";
     jwtSigningKey := "something-very-secret2";
     jwtExpiry := 60000000000;
     apiClient := fun _ => inr "connection refused";
     store := plainStore;
     now := 1700000000 |}.

(** A source that knows no domain. *)
Definition noDomains : string -> option string * option error :=
  fun _ => (None, None).

(** The callback [/auth?code=1&state=state&token=secret] arriving at the
pages domain with the proxying session, and a plain request. *)
Definition callbackRequest : Request :=
  {| Host := "pages.gitlab-example.com";
     RequestURI := "/auth?code=1&state=state&token=secret";
     URL_Scheme := "https"; URL_Path := "/auth";
     URL_Query := {[ "code" := ["1"]; "state" := ["state"]; "token" := ["secret"] ]};
     TLS := true; Header := {[ "Cookie" := "proxying" ]} |}.

Definition plainRequest : Request :=
  {| Host := "pages.gitlab-example.com"; RequestURI := "/test";
     URL_Scheme := "http"; URL_Path := "/test"; URL_Query := ∅;
     TLS := false; Header := ∅ |}.

(** A session that holds the token [abc], and an authenticator whose store
returns it and whose API answers 200 to that token and 401 to any other. *)
Definition tokenSession : Session :=
  {| Values_ := {[ "access_token" := VString "abc" ]};
     SessionOptions := emptyOptions |}.

Definition grantingAuth : Auth :=
  {| pagesDomain := "pages.gitlab-example.com";
     clientID := "id";
     clientSecret := "secret";
     redirectURI := "http://pages.gitlab-example.com/auth";
     gitLabServer := "https://gitlab.example.com";
     authSecret := "something-very-secret";
     authScope := "scope";
     jwtSigningKey := "something-very-secret2";
     jwtExpiry := 60000000000;
     apiClient := fun req =>
       match Authorization req with
       | Some "Bearer abc" => inl {| StatusCode := 200; Body := "{}" |}
       | _ => inl {| StatusCode := 401; Body := "{}" |}
       end;
     store := fun _ => (Some tokenSession, None);
     now := 1700000000 |}.

(** A domain whose requests belong to project 1000. *)
Definition projectDomain : domain := {| GetProjectID := fun _ => 1000%Z |}.





End Auth.

(** ** internal/netutil/shared_limit_listener.go *)

Module Netutil.
Local Open Scope nat_scope.

(** The goroutines that use a limiter are interleaved: the state below holds
what they share, and an [event] is one atomic step of one goroutine (a channel
operation, a call of the underlying listener).  [exec] gives the state after
an event, or [None] when the event cannot happen in that state (the goroutine
is elsewhere, or the operation blocks). *)

(** A [sharedLimitListener]: whether the embedded [net.Listener] has been
closed, and whether its [done] channel has been closed. *)
Record listener := {
  underlyingClosed : bool;
  doneClosed : bool
}.

(** Where a call of [Accept] stands:
- [Acquiring]: in [acquire], at the [select] (line 50);
- [Accepting acquired]: in [l.Listener.Accept()] (line 62);
- [Releasing]: the underlying accept failed and a slot was acquired; at
  [l.release()] (line 65);
- [AcceptFailed], [Accepted c]: returned an error, returned connection [c]. *)
Inductive acceptPc :=
| Acquiring
| Accepting (acquired : bool)
| Releasing
| AcceptFailed
| Accepted (c : nat).

Record acceptCall := {
  onListener : nat;
  pc : acceptPc
}.

(** A [sharedLimitListenerConn]: whether its [releaseOnce] has run
[release], and how often [Close] was called. *)
Record conn := {
  released : bool;
  closeCalls : nat
}.

(** The limiter ([sem] is a channel of [capacity] slots; [sem] below is the
number of values it holds), the listeners that share it, the calls of
[Accept] and the connections they returned. *)
Record state := {
  capacity : nat;
  sem : nat;
  listeners : list listener;
  accepts : list acceptCall;
  conns : list conn
}.

(** [NewLimiter(n)] shared by [k] listeners made by [SharedLimitListener]. *)
Definition NewLimiter (n k : nat) : state :=
  {| capacity := n; sem := 0;
     listeners := replicate k {| underlyingClosed := false; doneClosed := false |};
     accepts := []; conns := [] |}.

Inductive event :=
| StartAccept (l : nat)
| AcquireSlot (i : nat)
| AcquireClosed (i : nat)
| AcceptOk (i : nat)
| AcceptErr (i : nat)
| ReleaseAfterErr (i : nat)
| CloseConn (c : nat)
| CloseUnderlying (l : nat)
| CloseDone (l : nat).

Definition setSem (s : state) (n : nat) : state :=
  {| capacity := capacity s; sem := n; listeners := listeners s;
     accepts := accepts s; conns := conns s |}.

Definition setListener (s : state) (l : nat) (x : listener) : state :=
  {| capacity := capacity s; sem := sem s; listeners := <[l := x]> (listeners s);
     accepts := accepts s; conns := conns s |}.

Definition setPc (s : state) (i : nat) (call : acceptCall) (p : acceptPc) : state :=
  {| capacity := capacity s; sem := sem s; listeners := listeners s;
     accepts := <[i := {| onListener := onListener call; pc := p |}]> (accepts s);
     conns := conns s |}.

Definition setConn (s : state) (c : nat) (x : conn) : state :=
  {| capacity := capacity s; sem := sem s; listeners := listeners s;
     accepts := accepts s; conns := <[c := x]> (conns s) |}.

(** One step.
- [StartAccept l]: a goroutine calls [Accept] on listener [l].
- [AcquireSlot i]: the [select] of [acquire] sends to [sem]; possible while
  the channel is not full; [acquire] returns true.
- [AcquireClosed i]: the [select] of [acquire] receives from the closed
  [done]; [acquire] returns false.
- [AcceptOk i]: the underlying [Accept] returns a connection; [Accept] wraps
  it with [release: l.release] and returns it.  A [net.Listener] that has been
  closed returns an error from [Accept], so this needs an open one.
- [AcceptErr i]: the underlying [Accept] returns an error; the call goes on
  to [l.release()] if it acquired a slot and returns the error otherwise.
- [ReleaseAfterErr i]: [<-l.limiter.sem]; it blocks on an empty channel.
- [CloseConn c]: [Close] on a connection: [releaseOnce.Do(c.release)] runs
  [<-sem] the first time (it blocks on an empty channel) and nothing later.
- [CloseUnderlying l], [CloseDone l]: the two statements of the listener's
  [Close]: [l.Listener.Close()], then [closeOnce.Do(close(l.done))]. *)
Definition exec (s : state) (e : event) : option state :=
  match e with
  | StartAccept l =>
      match listeners s !! l with
      | Some _ =>
          Some {| capacity := capacity s; sem := sem s; listeners := listeners s;
                  accepts := accepts s ++ [{| onListener := l; pc := Acquiring |}];
                  conns := conns s |}
      | None => None
      end
  | AcquireSlot i =>
      match accepts s !! i with
      | Some call =>
          match pc call with
          | Acquiring =>
              if sem s <? capacity s
              then Some (setPc (setSem s (S (sem s))) i call (Accepting true))
              else None
          | _ => None
          end
      | None => None
      end
  | AcquireClosed i =>
      match accepts s !! i with
      | Some call =>
          match pc call, listeners s !! onListener call with
          | Acquiring, Some l =>
              if doneClosed l then Some (setPc s i call (Accepting false)) else None
          | _, _ => None
          end
      | None => None
      end
  | AcceptOk i =>
      match accepts s !! i with
      | Some call =>
          match pc call, listeners s !! onListener call with
          | Accepting _, Some l =>
              if underlyingClosed l then None
              else
                let s' := setPc s i call (Accepted (length (conns s))) in
                Some {| capacity := capacity s'; sem := sem s';
                        listeners := listeners s'; accepts := accepts s';
                        conns := conns s' ++ [{| released := false; closeCalls := 0 |}] |}
          | _, _ => None
          end
      | None => None
      end
  | AcceptErr i =>
      match accepts s !! i with
      | Some call =>
          match pc call with
          | Accepting true => Some (setPc s i call Releasing)
          | Accepting false => Some (setPc s i call AcceptFailed)
          | _ => None
          end
      | None => None
      end
  | ReleaseAfterErr i =>
      match accepts s !! i with
      | Some call =>
          match pc call, sem s with
          | Releasing, S n => Some (setPc (setSem s n) i call AcceptFailed)
          | _, _ => None
          end
      | None => None
      end
  | CloseConn c =>
      match conns s !! c with
      | Some x =>
          if released x
          then Some (setConn s c {| released := true; closeCalls := S (closeCalls x) |})
          else match sem s with
               | S n => Some (setConn (setSem s n) c
                                {| released := true; closeCalls := S (closeCalls x) |})
               | O => None
               end
      | None => None
      end
  | CloseUnderlying l =>
      match listeners s !! l with
      | Some x =>
          Some (setListener s l {| underlyingClosed := true; doneClosed := doneClosed x |})
      | None => None
      end
  | CloseDone l =>
      match listeners s !! l with
      | Some x =>
          if underlyingClosed x
          then Some (setListener s l {| underlyingClosed := true; doneClosed := true |})
          else None
      | None => None
      end
  end.

(** A run: events one after the other. *)
Fixpoint run (s : state) (trace : list event) : option state :=
  match trace with
  | [] => Some s
  | e :: rest =>
      match exec s e with
      | Some s' => run s' rest
      | None => None
      end
  end.

(** The states a limiter of capacity [n] shared by [k] listeners can reach. *)
Definition reachable (n k : nat) (s : state) : Prop :=
  exists trace, run (NewLimiter n k) trace = Some s.

(** A call of [Accept] holds a slot from the moment it acquired one until it
hands it to the connection or releases it. *)
Definition holdsAt (p : acceptPc) : nat :=
  match p with
  | Accepting true | Releasing => 1
  | _ => 0
  end.

Definition holdsSlot (call : acceptCall) : nat := holdsAt (pc call).

(** A connection holds its slot until its first [Close]. *)
Definition holdsConn (x : conn) : nat := if released x then 0 else 1.

(** The slots held by calls of [Accept] and by connections. *)
Definition slotsHeld (s : state) : nat :=
  sum_list_with holdsSlot (accepts s) + sum_list_with holdsConn (conns s).

(** What every reachable state satisfies: the channel holds one value per
slot held and never more than its capacity; a listener whose [done] is closed
has a closed underlying listener; a call whose [acquire] returned false is on
a listener whose [done] is closed. *)
Record invariant (s : state) : Prop := {
  inv_sem : sem s = slotsHeld s;
  inv_cap : sem s <= capacity s;
  inv_done : forall l x, listeners s !! l = Some x ->
               doneClosed x = true -> underlyingClosed x = true;
  inv_call : forall i call, accepts s !! i = Some call ->
               exists x, listeners s !! onListener call = Some x
                         /\ (pc call = Accepting false -> doneClosed x = true)
}.

End Netutil.

(** * Properties *)

(** ** Go's [strings] package *)

Module GoStringsFacts.
Import GoStrings.

Lemma HasPrefix_nil s : HasPrefix s "" = true.
Proof. destruct s; reflexivity. Qed.

Lemma HasPrefix_correct s p : HasPrefix s p = true <-> exists t, s = p ++ t.
Proof.
  unfold HasPrefix. revert s. induction p as [|c p IH]; intros s; simpl.
  - split; [intros _; exists s; reflexivity | intros _; destruct s; reflexivity].
  - destruct s as [|d s]; simpl.
    + split; [discriminate | intros [t Ht]; discriminate].
    + destruct (Ascii.ascii_dec c d) as [->|Hne].
      * rewrite IH. split; intros [t Ht]; exists t.
        -- rewrite Ht. reflexivity.
        -- change (String d p ++ t) with (String d (p ++ t)) in Ht. congruence.
      * split; [discriminate | intros [t Ht]].
        change (String c p ++ t) with (String c (p ++ t)) in Ht. congruence.
Qed.

Lemma drop_bytes_app p t : drop_bytes (String.length p) (p ++ t) = t.
Proof. induction p as [|c p IH]; [reflexivity | exact IH]. Qed.

Lemma TrimPrefix_app p t : TrimPrefix (p ++ t) p = t.
Proof.
  unfold TrimPrefix.
  assert (H : HasPrefix (p ++ t) p = true) by (apply HasPrefix_correct; eauto).
  rewrite H. apply drop_bytes_app.
Qed.

Lemma HasPrefix_Contains s p : HasPrefix s p = true -> Contains s p = true.
Proof. intros H. destruct s; cbn [Contains]; rewrite H; reflexivity. Qed.

(** Two prefixes of one string that have the same length are equal: a tie
    between matching prefixes of equal length is a tie between equal
    strings. *)
Lemma HasPrefix_same_length s p q :
  HasPrefix s p = true -> HasPrefix s q = true ->
  String.length p = String.length q -> p = q.
Proof.
  unfold HasPrefix. revert p q.
  induction s as [|c s IH]; intros [|a p] [|b q]; simpl; try congruence.
  destruct (Ascii.ascii_dec a c), (Ascii.ascii_dec b c); try congruence.
  intros Hp Hq Hlen. subst. f_equal. apply IH; auto.
Qed.

Lemma drop_bytes_suffix n : forall s, exists front, s = front ++ drop_bytes n s.
Proof.
  induction n as [|n IH]; intros s; simpl.
  - exists "". reflexivity.
  - destruct s as [|c s]; [exists ""; reflexivity|].
    destruct (IH s) as [front Hfront].
    exists (String c front).
    change (String c front ++ drop_bytes n s) with (String c (front ++ drop_bytes n s)).
    rewrite <- Hfront. reflexivity.
Qed.

Lemma length_app p : forall t,
  String.length (p ++ t) = (String.length p + String.length t)%nat.
Proof.
  induction p as [|c p IH]; intros t; [reflexivity|].
  change (String c p ++ t) with (String c (p ++ t)). simpl. rewrite IH. reflexivity.
Qed.

(** [HasSuffix] holds exactly of the strings that end with the bytes of the
    suffix. *)
Lemma HasSuffix_correct s suffix :
  HasSuffix s suffix = true <-> exists front, s = front ++ suffix.
Proof.
  unfold HasSuffix. split.
  - intros H. apply andb_true_iff in H as [_ Heq].
    apply String.eqb_eq in Heq.
    destruct (drop_bytes_suffix (String.length s - String.length suffix) s)
      as [front Hfront].
    exists front. rewrite Heq in Hfront. exact Hfront.
  - intros [front ->]. rewrite length_app. apply andb_true_iff. split.
    + apply Nat.leb_le. lia.
    + replace (String.length front + String.length suffix - String.length suffix)%nat
        with (String.length front) by lia.
      rewrite drop_bytes_app. apply String.eqb_refl.
Qed.

Lemma append_assoc a : forall b c, (a ++ b) ++ c = a ++ (b ++ c).
Proof.
  induction a as [|x a IH]; intros b c; [reflexivity|].
  change ((String x a ++ b) ++ c) with (String x ((a ++ b) ++ c)).
  rewrite IH. reflexivity.
Qed.

Lemma append_nil_r a : a ++ "" = a.
Proof.
  induction a as [|x a IH]; [reflexivity|].
  change (String x a ++ "") with (String x (a ++ "")). rewrite IH. reflexivity.
Qed.

End GoStringsFacts.

(** ** Go's [path] package: the cases of its own test table *)

Module GoPathFacts.
Import GoPath.

Example Clean_already_clean :
  map Clean ["abc"; "abc/def"; "a/b/c"; "."; ".."; "../.."; "../../abc"; "/abc"; "/"]
  = ["abc"; "abc/def"; "a/b/c"; "."; ".."; "../.."; "../../abc"; "/abc"; "/"].
Proof. reflexivity. Qed.

Example Clean_empty_and_trailing_slash :
  map Clean [""; "abc/"; "abc/def/"; "a/b/c/"; "./"; "../"; "../../"; "/abc/"]
  = ["."; "abc"; "abc/def"; "a/b/c"; "."; ".."; "../.."; "/abc"].
Proof. reflexivity. Qed.

Example Clean_doubled_slash_and_dot :
  map Clean ["abc//def//ghi"; "//abc"; "///abc"; "//abc//"; "abc//";
             "abc/./def"; "/./abc/def"; "abc/."]
  = ["abc/def/ghi"; "/abc"; "/abc"; "/abc"; "abc";
     "abc/def"; "/abc/def"; "abc"].
Proof. reflexivity. Qed.

Example Clean_dotdot :
  map Clean ["abc/def/ghi/../jkl"; "abc/def/../ghi/../jkl"; "abc/def/..";
             "abc/def/../.."; "/abc/def/../.."; "abc/def/../../..";
             "/abc/def/../../.."; "abc/def/../../../ghi/jkl/../../../mno";
             "abc/./../def"; "abc//./../def"; "abc/../../././../def"]
  = ["abc/def/jkl"; "abc/jkl"; "abc";
     "."; "/"; "..";
     "/"; "../../mno";
     "def"; "def"; "../../def"].
Proof. reflexivity. Qed.

Example Split_cases :
  map Split ["a/b"; "a/b/"; "a/"; "a"; "/"; ""]
  = [("a/", "b"); ("a/b/", ""); ("a/", ""); ("", "a"); ("/", ""); ("", "")].
Proof. reflexivity. Qed.

End GoPathFacts.

(** ** Query strings: what [Encode] writes, [ParseQuery] reads *)

Module HttpFacts.
Import GoStrings GoStringsFacts Http.







(** *** The bytes of an escaped string *)







(** *** Segments *)








(** *** The pairs of a map *)




End HttpFacts.

(** ** internal/source/gitlab: [Resolve] *)

Module GitlabFacts.
Import GoStrings GoStringsFacts Http Gitlab.

(** The loop stops at the first entry, in the order of the response, whose
    prefix occurs in the path. *)
Lemma resolveLoop_find response urlPath lookups :
  resolveLoop response urlPath lookups =
  match List.find (fun l => Contains urlPath (Api.Prefix l)) lookups with
  | Some l => Resolved (newLookupPath response l)
                       (TrimPrefix urlPath (Api.Prefix l))
  | None => ResolveErr errNoLookupMatch
  end.
Proof.
  induction lookups as [|l rest IH]; simpl; [reflexivity|].
  destruct (Contains urlPath (Api.Prefix l)); [reflexivity | exact IH].
Qed.

(** Where every prefix that occurs in the path leads it, searching by
    [Contains] and searching by [HasPrefix] find the same entry. *)
Lemma find_Contains_HasPrefix urlPath lookups :
  (forall l, In l lookups ->
             Contains urlPath (Api.Prefix l) = true ->
             HasPrefix urlPath (Api.Prefix l) = true) ->
  List.find (fun l => Contains urlPath (Api.Prefix l)) lookups =
  List.find (fun l => HasPrefix urlPath (Api.Prefix l)) lookups.
Proof.
  induction lookups as [|l rest IH]; intros Hlead; simpl; [reflexivity|].
  destruct (HasPrefix urlPath (Api.Prefix l)) eqn:Hp.
  - rewrite (HasPrefix_Contains _ _ Hp). reflexivity.
  - destruct (Contains urlPath (Api.Prefix l)) eqn:Hc.
    + rewrite (Hlead l (or_introl eq_refl) Hc) in Hp. discriminate.
    + apply IH. intros l' Hin. apply Hlead. right. exact Hin.
Qed.

(** In a list sorted by decreasing prefix length the first match is a
    longest match. *)
Lemma find_longest (f : Api.LookupPath -> bool) lookups l :
  byDecreasingLength lookups ->
  List.find f lookups = Some l ->
  forall l', In l' lookups -> f l' = true ->
    (String.length (Api.Prefix l') <= String.length (Api.Prefix l))%nat.
Proof.
  unfold byDecreasingLength.
  induction 1 as [|a rest Hsorted IH Hall]; simpl; [discriminate|].
  destruct (f a) eqn:Hfa.
  - intros [= <-] l' [<- | Hin] _; [lia|].
    rewrite List.Forall_forall in Hall. apply Hall. exact Hin.
  - intros Hfind l' [<- | Hin] Hfl'; [congruence|].
    apply IH; assumption.
Qed.

(** C1, as the code has it.  [Resolve] walks the lookup paths in the order
    of the response and selects the first one whose prefix is a prefix of
    the request path; the request path it returns is the path with that
    prefix stripped; when the response lists the lookup paths by decreasing
    prefix length the selected prefix is a longest matching one (and two
    matching prefixes of the same length are the same prefix); when no
    prefix occurs in the path, resolution fails with the no-match error.
    Requests in which a listed prefix occurs inside the path without
    leading it are left out by the second hypothesis. *)
Theorem Resolve_first_listed_prefix
    (g : Client) (r : Request) (response : Api.VirtualDomain) :
  g (Host r) = (Some response, None) ->
  (forall l, In l (Api.LookupPaths response) ->
             Contains (URL_Path r) (Api.Prefix l) = true ->
             HasPrefix (URL_Path r) (Api.Prefix l) = true) ->
  match List.find (fun l => HasPrefix (URL_Path r) (Api.Prefix l))
                  (Api.LookupPaths response) with
  | Some l =>
      (exists rest,
          URL_Path r = Api.Prefix l ++ rest /\
          Resolve g r = Resolved (newLookupPath response l) rest) /\
      (byDecreasingLength (Api.LookupPaths response) ->
       forall l', In l' (Api.LookupPaths response) ->
         HasPrefix (URL_Path r) (Api.Prefix l') = true ->
         (String.length (Api.Prefix l') <= String.length (Api.Prefix l))%nat /\
         (String.length (Api.Prefix l') = String.length (Api.Prefix l) ->
          Api.Prefix l' = Api.Prefix l))
  | None => Resolve g r = ResolveErr errNoLookupMatch
  end.
Proof.
  intros Hresp Hlead. unfold Resolve. rewrite Hresp.
  rewrite resolveLoop_find, (find_Contains_HasPrefix _ _ Hlead).
  destruct (List.find _ _) as [l|] eqn:Hfind; [|reflexivity].
  pose proof (List.find_some _ _ Hfind) as [_ Hp].
  split.
  - apply HasPrefix_correct in Hp as [rest Hrest].
    exists rest. split; [exact Hrest|].
    rewrite Hrest at 1. rewrite TrimPrefix_app. reflexivity.
  - intros Hsorted l' Hin Hp'. split.
    + exact (find_longest _ _ _ Hsorted Hfind l' Hin Hp').
    + intros Hlen. exact (HasPrefix_same_length _ _ _ Hp' Hp Hlen).
Qed.

(** A response sorted by decreasing prefix length, resolved for a path
    under the longer prefix. *)
Lemma Resolve_first_listed_prefix_witness :
  Resolve (clientOf [fooLookup; rootLookup]) (mkRequest "group.test" "/foo/index.html")
  = Resolved (newLookupPath {| Api.Certificate := ""; Api.Key := "";
                               Api.LookupPaths := [fooLookup; rootLookup] |}
                            fooLookup)
             "index.html".
Proof.
  pose proof (Resolve_first_listed_prefix
                (clientOf [fooLookup; rootLookup])
                (mkRequest "group.test" "/foo/index.html")
                {| Api.Certificate := ""; Api.Key := "";
                   Api.LookupPaths := [fooLookup; rootLookup] |}
                eq_refl) as H.
  destruct H as [[rest [Hrest Hres]] _].
  - intros l [<- | [<- | []]] _; reflexivity.
  - assert (rest = "index.html") as -> by (cbv in Hrest; congruence).
    exact Hres.
Defined.

(** C1, as stated, fails on the code.  (1) With the lookup paths listed
    ["/"] before ["/foo/"], the path ["/foo/index.html"] resolves to the
    entry ["/"], although ["/foo/"] is the longest matching prefix.
    (2) With the single lookup path ["/b"], the path ["/a/b"] has no
    matching prefix, yet resolution succeeds and returns the path
    unchanged. *)
Lemma Resolve_not_longest_prefix :
  (specSelect "/foo/index.html" [rootLookup; fooLookup] = Some fooLookup /\
   Resolve (clientOf [rootLookup; fooLookup]) (mkRequest "group.test" "/foo/index.html")
   = Resolved (newLookupPath {| Api.Certificate := ""; Api.Key := "";
                                Api.LookupPaths := [rootLookup; fooLookup] |}
                             rootLookup)
              "foo/index.html") /\
  (specSelect "/a/b" [bLookup] = None /\
   Resolve (clientOf [bLookup]) (mkRequest "group.test" "/a/b")
   = Resolved (newLookupPath {| Api.Certificate := ""; Api.Key := "";
                                Api.LookupPaths := [bLookup] |}
                             bLookup)
              "/a/b").
Proof. repeat split. Qed.

(** *** Further properties of the source *)

Lemma resolveLoop_success response urlPath lookups lp rp :
  resolveLoop response urlPath lookups = Resolved lp rp ->
  exists before l after,
    lookups = (before ++ l :: after)%list
    /\ Forall (fun l' => Contains urlPath (Api.Prefix l') = false) before
    /\ Contains urlPath (Api.Prefix l) = true
    /\ lp = newLookupPath response l
    /\ rp = TrimPrefix urlPath (Api.Prefix l).
Proof.
  induction lookups as [|l0 rest IH]; simpl; [discriminate|].
  destruct (Contains urlPath (Api.Prefix l0)) eqn:Hc.
  - intros [= <- <-]. exists [], l0, rest. repeat split; auto.
  - intros Hrest. destruct (IH Hrest) as (before & l & after & -> & Hb & Hl & Hlp & Hrp).
    exists (l0 :: before), l, after. repeat split; auto.
Qed.

(** What a successful [Resolve] returned: the response was there, the lookup
path chosen is the first one of the response whose prefix occurs in the URL
path, the [serving.LookupPath] is built from it, and the request path is the
URL path without that prefix when the prefix leads it and the whole URL path
otherwise; in both cases an end piece of the URL path. *)
Theorem Resolve_success_shape
    (g : Client) (r : Request) (lp : Serving.LookupPath) (rp : string) :
  Resolve g r = Resolved lp rp ->
  exists response before l after,
    g (Host r) = (Some response, None)
    /\ Api.LookupPaths response = (before ++ l :: after)%list
    /\ Forall (fun l' => Contains (URL_Path r) (Api.Prefix l') = false) before
    /\ Contains (URL_Path r) (Api.Prefix l) = true
    /\ lp = newLookupPath response l
    /\ (URL_Path r = Api.Prefix l ++ rp
        \/ (HasPrefix (URL_Path r) (Api.Prefix l) = false /\ rp = URL_Path r))
    /\ exists front, URL_Path r = front ++ rp.
Proof.
  unfold Resolve. destruct (g (Host r)) as [[response|] [e|]] eqn:Hg;
    try discriminate.
  intros Hloop.
  destruct (resolveLoop_success _ _ _ _ _ Hloop)
    as (before & l & after & Hsplit & Hb & Hl & Hlp & Hrp).
  exists response, before, l, after. repeat split; auto.
  - subst rp. unfold TrimPrefix.
    destruct (HasPrefix (URL_Path r) (Api.Prefix l)) eqn:Hp.
    + left. apply HasPrefix_correct in Hp as [t Ht].
      rewrite Ht at 2. rewrite drop_bytes_app. exact Ht.
    + right. auto.
  - subst rp. unfold TrimPrefix.
    destruct (HasPrefix (URL_Path r) (Api.Prefix l)).
    + apply drop_bytes_suffix.
    + exists "". reflexivity.
Qed.

(** The path [/a/b] against the lookup paths [/foo/], [/b], [/]: the first
prefix that occurs is [/b], and the path is returned whole. *)
Lemma Resolve_success_shape_witness :
  exists response before l after,
    clientOf [fooLookup; bLookup; rootLookup] "group.test" = (Some response, None)
    /\ Api.LookupPaths response = (before ++ l :: after)%list
    /\ l = bLookup
    /\ exists front, "/a/b" = front ++ "/a/b".
Proof.
  destruct (Resolve_success_shape (clientOf [fooLookup; bLookup; rootLookup])
              (mkRequest "group.test" "/a/b")
              (newLookupPath {| Api.Certificate := ""; Api.Key := "";
                                Api.LookupPaths := [fooLookup; bLookup; rootLookup] |}
                             bLookup)
              "/a/b" eq_refl)
    as (response & before & l & after & Hg & Hsplit & Hb & Hl & Hlp & _ & Hfront).
  exists response, before, l, after. repeat split; auto.
  injection Hg as <-. simpl in Hsplit.
  destruct before as [|b0 [|b1 [|b2 before]]]; simpl in Hsplit.
  - injection Hsplit as <- _. simpl in Hl. discriminate.
  - injection Hsplit as _ <- _. reflexivity.
  - injection Hsplit as _ <- <- _. apply Forall_cons in Hb as [_ Hb].
    apply Forall_cons in Hb as [Hb _]. simpl in Hb. discriminate.
  - injection Hsplit as _ _ _ Hnil. destruct before; discriminate.
Defined.

(** [GetDomain] returns a domain or an error, never both and never neither:
the domain, for a response without error, carries the name asked for and the
certificate and key of the response; the error is the client's, or the
failure to fetch when the client returned neither response nor error.  On
that last answer of the client [Resolve] panics. *)
Theorem GetDomain_or_error (g : Client) (name : string) :
  (forall response,
     g name = (Some response, None) ->
     GetDomain g name
     = (Some {| DomainName := name;
                CertificateCert := Api.Certificate response;
                CertificateKey := Api.Key response |}, None))
  /\ (forall e, snd (g name) = Some e -> GetDomain g name = (None, Some e))
  /\ (fst (GetDomain g name) = None <-> snd (GetDomain g name) <> None)
  /\ (g name = (None, None) ->
      GetDomain g name = (None, Some "could not fetch a domain information")
      /\ forall r, Host r = name -> Resolve g r = ResolvePanic).
Proof.
  unfold GetDomain, Resolve. split; [|split; [|split]].
  - intros response ->. reflexivity.
  - intros e He. destruct (g name) as [resp err]. simpl in He. subst err.
    destruct resp; reflexivity.
  - destruct (g name) as [[response|] [e|]]; simpl; split; congruence.
  - intros Hg. rewrite Hg. split; [reflexivity|].
    intros r ->. rewrite Hg. reflexivity.
Qed.

End GitlabFacts.

(** ** internal/vfs/zip: the archive index *)

Module ZipFacts.
Import GoStrings GoStringsFacts Http Zip.

(** *** Directory entries *)

Lemma addPathDirectory_keeps directories pathname key :
  is_Some (directories !! key) ->
  is_Some (addPathDirectory directories pathname !! key).
Proof.
  intros Hkey. unfold addPathDirectory.
  destruct (String.eqb _ ""); [exact Hkey|].
  destruct (directories !! fst (GoPath.Split pathname)) eqn:Hdir; [exact Hkey|].
  destruct (decide (fst (GoPath.Split pathname) = key)) as [<-|Hne].
  - rewrite lookup_insert_eq. eauto.
  - rewrite lookup_insert_ne by exact Hne. exact Hkey.
Qed.

Lemma addPathDirectory_adds directories pathname :
  fst (GoPath.Split pathname) <> "" ->
  is_Some (addPathDirectory directories pathname !! fst (GoPath.Split pathname)).
Proof.
  intros Hne. unfold addPathDirectory.
  destruct (String.eqb_spec (fst (GoPath.Split pathname)) "") as [Heq|_];
    [contradiction|].
  destruct (directories !! fst (GoPath.Split pathname)) eqn:Hdir.
  - rewrite Hdir. eauto.
  - rewrite lookup_insert_eq. eauto.
Qed.

Lemma recordFile_publicDirectoryName a file :
  publicDirectoryName (recordFile a file) = publicDirectoryName a.
Proof.
  unfold recordFile.
  destruct (negb _); [reflexivity|].
  destruct (IsDir _); reflexivity.
Qed.

Lemma recordFile_parentsRecorded a file :
  parentsRecorded a -> parentsRecorded (recordFile a file).
Proof.
  intros Hinv. unfold recordFile.
  destruct (negb _); [exact Hinv|].
  destruct (IsDir _); intros name f; simpl; intros Hf Hdir.
  - apply addPathDirectory_keeps.
    destruct (Hinv name f Hf Hdir) as [h Hh].
    destruct (decide (FileName file = fst (GoPath.Split name))) as [Heq|Hne].
    + rewrite Heq, lookup_insert_eq. eauto.
    + rewrite lookup_insert_ne by exact Hne. eauto.
  - destruct (decide (FileName file = name)) as [Heq|Hne].
    + subst name. apply addPathDirectory_adds. exact Hdir.
    + rewrite lookup_insert_ne in Hf by exact Hne.
      apply addPathDirectory_keeps. exact (Hinv name f Hf Hdir).
Qed.

Lemma fold_recordFile_parentsRecorded archive a :
  parentsRecorded a -> parentsRecorded (fold_left recordFile archive a).
Proof.
  revert a. induction archive as [|file rest IH]; intros a Hinv; simpl.
  - exact Hinv.
  - apply IH, recordFile_parentsRecorded, Hinv.
Qed.

Lemma readArchive_parentsRecorded res archive :
  parentsRecorded (readArchive newArchive (inl res) (Some archive, None)).
Proof.
  unfold readArchive.
  intros name f; simpl; intros Hf Hdir.
  refine (fold_recordFile_parentsRecorded archive _ _ name f Hf Hdir).
  intros name' f'; simpl. rewrite lookup_empty. discriminate.
Qed.

(** C5, as stated, fails on the code: in the archive with the single record
[public/a/b/c.txt] the file is recorded, its ancestor [public/a/] has no
directory entry, and [Lstat] on [a] reports that the file does not exist. *)
Lemma ancestor_directory_missing :
  is_Some (files (opened [regularFile "public/a/b/c.txt"]) !! "public/a/b/c.txt")
  /\ HasPrefix "public/a/b/c.txt" "public/a/" = true
  /\ directories (opened [regularFile "public/a/b/c.txt"]) !! "public/a/" = None
  /\ Lstat (opened [regularFile "public/a/b/c.txt"]) "a" = LstatErr ErrNotExist.
Proof.
  split; [|split; [|split]].
  - vm_compute. eauto.
  - reflexivity.
  - vm_compute. reflexivity.
  - vm_compute. reflexivity.
Qed.

(** *** The public directory *)

Lemma sliceContains_In slice value :
  sliceContains slice value = true <-> In value slice.
Proof.
  induction slice as [|item rest IH]; simpl.
  - split; [discriminate | tauto].
  - destruct (String.eqb_spec item value) as [->|Hne].
    + tauto.
    + rewrite IH. split; [tauto | intros [Heq | Hin]; [contradiction | exact Hin]].
Qed.

Lemma SplitN2_cons s : exists first rest, SplitN2 s = first :: rest.
Proof.
  unfold SplitN2. destruct (cut_slash s) as [[a b]|]; eauto.
Qed.

Lemma rootDirectoriesLoop_spec archive seen :
  NoDup seen ->
  NoDup (rootDirectoriesLoop archive seen)
  /\ forall x, In x (rootDirectoriesLoop archive seen)
               <-> In x seen \/ In x (firstElements archive).
Proof.
  revert seen. induction archive as [|file rest IH]; intros seen Hnodup; simpl.
  - split; [exact Hnodup | tauto].
  - destruct (SplitN2_cons (FileName file)) as (first & more & Hsplit).
    rewrite Hsplit. simpl.
    destruct (sliceContains seen first) eqn:Hseen.
    + apply sliceContains_In in Hseen.
      destruct (IH seen Hnodup) as [Hnd Hin]. split; [exact Hnd|].
      intros x. rewrite Hin. split; [tauto|].
      intros [H | [<- | H]]; tauto.
    + assert (Hnotin : ~ In first seen).
      { rewrite <- sliceContains_In, Hseen. discriminate. }
      assert (Hnodup' : NoDup (seen ++ [first])%list).
      { apply NoDup_app. split; [exact Hnodup|]. split.
        - intros x Hx Hx'. apply list_elem_of_In in Hx.
          apply list_elem_of_In in Hx'. destruct Hx' as [<- | []]. tauto.
        - apply NoDup_singleton. }
      destruct (IH (seen ++ [first])%list Hnodup') as [Hnd Hin]. split; [exact Hnd|].
      intros x. rewrite Hin, in_app_iff. simpl. tauto.
Qed.

Lemma getAllRootDirectories_spec archive :
  NoDup (getAllRootDirectories archive)
  /\ forall x, In x (getAllRootDirectories archive) <-> In x (firstElements archive).
Proof.
  destruct (rootDirectoriesLoop_spec archive [] (NoDup_nil_2)) as [Hnd Hin].
  split; [exact Hnd|]. intros x. unfold getAllRootDirectories.
  rewrite Hin. simpl. tauto.
Qed.

Lemma firstCommonPrefix_find prefixes roots :
  firstCommonPrefix prefixes roots
  = match List.find (sliceContains roots) prefixes with
    | Some pref => pref
    | None => ""
    end.
Proof.
  induction prefixes as [|pref rest IH]; simpl; [reflexivity|].
  destruct (sliceContains roots pref); [reflexivity | exact IH].
Qed.

(** Where every record lies in a directory, the first path elements are the
top-level directories and the guess is the public prefix of the
specification. *)
Lemma rootDirectoriesLoop_nested archive seen :
  Forall (fun file => is_Some (cut_slash (FileName file))) archive ->
  rootDirectoriesLoop archive seen = specTopLevelDirectories archive seen.
Proof.
  intros Hall. revert seen.
  induction Hall as [|file rest [[dir after] Hcut] _ IH]; intros seen; simpl.
  - reflexivity.
  - unfold SplitN2. rewrite Hcut.
    destruct (sliceContains seen dir); apply IH.
Qed.

(** For an archive in which every record lies in a directory (every name has
a slash), [guessPublicDirectoryName] returns the public prefix of the
specification: the sole top-level directory, else the first candidate among
the top-level directories, else the empty prefix. *)
Lemma guessPublicDirectoryName_nested archive :
  Forall (fun file => is_Some (cut_slash (FileName file))) archive ->
  guessPublicDirectoryName archive = specPublicPrefix archive.
Proof.
  intros Hall. unfold guessPublicDirectoryName, specPublicPrefix, getAllRootDirectories.
  rewrite (rootDirectoriesLoop_nested archive [] Hall). reflexivity.
Qed.

(** An archive whose records all lie in the directory [site]. *)
Lemma guessPublicDirectoryName_nested_witness :
  guessPublicDirectoryName [regularFile "site/index.html"; regularFile "site/css/a.css"]
  = specPublicPrefix [regularFile "site/index.html"; regularFile "site/css/a.css"]
  /\ specPublicPrefix [regularFile "site/index.html"; regularFile "site/css/a.css"]
     = "site".
Proof.
  split; [|reflexivity].
  apply guessPublicDirectoryName_nested.
  repeat constructor; vm_compute; eauto.
Defined.

(** C3 at the archive whose only record is the regular file [index.html]:
the archive has no directory, the public prefix of the specification is
empty, and [guessPublicDirectoryName] returns the name of the file.  In the
archive with [README.md] beside the directory [site] the sole top-level
directory is [site], and the guess is empty. *)
Theorem guessPublicDirectoryName_counts_root_files :
  (specTopLevelDirectories [regularFile "index.html"] [] = []
   /\ specPublicPrefix [regularFile "index.html"] = ""
   /\ guessPublicDirectoryName [regularFile "index.html"] = "index.html")
  /\ (specTopLevelDirectories
        [regularFile "README.md"; regularFile "site/index.html"] [] = ["site"]
      /\ specPublicPrefix [regularFile "README.md"; regularFile "site/index.html"]
         = "site"
      /\ guessPublicDirectoryName
           [regularFile "README.md"; regularFile "site/index.html"] = "").
Proof. repeat split. Qed.

(** *** Path lookup *)

(** C4 at the archive with the records [public/index.html] and
[publicity/secret.txt]: the public directory is [public], the name
[../publicity/secret.txt] is cleaned to [publicity/secret.txt], which is
recorded because it starts with the bytes of [public]; [Lstat] and [Open]
return that file, which lies outside the subtree of [public]. *)
Theorem dotdot_reaches_sibling_directory :
  publicDirectoryName
    (opened [regularFile "public/index.html"; regularFile "publicity/secret.txt"])
  = "public"
  /\ GoPath.Clean ("public" ++ "/" ++ "../publicity/secret.txt")
     = "publicity/secret.txt"
  /\ inSubtree "public" "publicity/secret.txt" = false
  /\ Lstat (opened [regularFile "public/index.html"; regularFile "publicity/secret.txt"])
           "../publicity/secret.txt"
     = FileInfoOfFile (regularFile "publicity/secret.txt")
  /\ Open (opened [regularFile "public/index.html"; regularFile "publicity/secret.txt"])
          "../publicity/secret.txt"
     = DeflateReader (regularFile "publicity/secret.txt") 64.
Proof.
  split; [vm_compute; reflexivity|].
  split; [vm_compute; reflexivity|].
  split; [vm_compute; reflexivity|].
  split; vm_compute; reflexivity.
Qed.

(** *** The public directory, by first path elements *)

Lemma NoDup_singleton_eq (l : list string) (d : string) :
  NoDup l -> (forall x, In x l <-> x = d) -> l = [d].
Proof.
  intros Hnd Hin. destruct l as [|a l].
  - destruct (proj2 (Hin d) eq_refl).
  - assert (Ha : a = d) by (apply Hin; left; reflexivity). subst a.
    destruct l as [|b l]; [reflexivity|].
    assert (Hb : b = d) by (apply Hin; right; left; reflexivity). subst b.
    apply NoDup_cons in Hnd as [Hnotin _].
    exfalso. apply Hnotin. left.
Qed.

Lemma sliceContains_existsb roots elems value :
  (forall x, In x roots <-> In x elems) ->
  sliceContains roots value = existsb (String.eqb value) elems.
Proof.
  intros Hin.
  destruct (existsb (String.eqb value) elems) eqn:Hex.
  - apply existsb_exists in Hex as (x & Hx & Heq).
    apply String.eqb_eq in Heq. subst x.
    apply sliceContains_In, Hin, Hx.
  - destruct (sliceContains roots value) eqn:Hsc; [|reflexivity].
    apply sliceContains_In, Hin in Hsc.
    assert (Htrue : existsb (String.eqb value) elems = true).
    { apply existsb_exists. exists value. split; [exact Hsc|].
      apply String.eqb_refl. }
    congruence.
Qed.

Lemma firstCommonPrefix_ext prefixes roots elems :
  (forall x, In x roots <-> In x elems) ->
  firstCommonPrefix prefixes roots
  = match List.find (fun c => existsb (String.eqb c) elems) prefixes with
    | Some c => c
    | None => ""
    end.
Proof.
  intros Hin. induction prefixes as [|pref rest IH]; simpl; [reflexivity|].
  rewrite (sliceContains_existsb roots elems pref Hin).
  destruct (existsb _ elems); [reflexivity | exact IH].
Qed.

(** What [guessPublicDirectoryName] computes, in terms of the first path
elements of the records (files at the root of the archive included): if they
are all the same element, that element; otherwise the first of [public],
[build], [dist], [out], [_site] that is the first path element of some
record; otherwise the empty string. *)
Theorem guessPublicDirectoryName_by_first_elements (archive : list File) :
  (forall d,
     (forall x, In x (firstElements archive) <-> x = d) ->
     guessPublicDirectoryName archive = d)
  /\ ((forall d, ~ (forall x, In x (firstElements archive) <-> x = d)) ->
      guessPublicDirectoryName archive
      = match List.find (fun c => existsb (String.eqb c) (firstElements archive))
                        commonPrefixes with
        | Some c => c
        | None => ""
        end).
Proof.
  destruct (getAllRootDirectories_spec archive) as [Hnd Hin].
  unfold guessPublicDirectoryName. split.
  - intros d Hd.
    assert (Hroots : getAllRootDirectories archive = [d]).
    { apply NoDup_singleton_eq; [exact Hnd|].
      intros x. rewrite Hin. apply Hd. }
    rewrite Hroots. reflexivity.
  - intros Hnone.
    rewrite <- (firstCommonPrefix_ext commonPrefixes _ _ Hin).
    destruct (getAllRootDirectories archive) as [|d [|d' rest]] eqn:Hroots;
      try reflexivity.
    exfalso. apply (Hnone d). intros x. rewrite <- Hin. simpl.
    split; [intros [<- | []]; reflexivity | intros ->; left; reflexivity].
Qed.

(** *** Entries found start with the bytes of the public directory name *)

Lemma cut_slash_fst_noSlash s a b : cut_slash s = Some (a, b) -> noSlash a.
Proof.
  unfold noSlash. revert a b. induction s as [|c s IH]; intros a b; simpl.
  - discriminate.
  - destruct (Ascii.eqb c "/") eqn:Hc.
    + intros [= <- <-]. reflexivity.
    + destruct (cut_slash s) as [[a' b']|]; [|discriminate].
      intros [= <- <-]. simpl. rewrite Hc, (IH a' b' eq_refl). reflexivity.
Qed.

Lemma firstElements_noSlash archive x :
  In x (firstElements archive) -> noSlash x.
Proof.
  unfold firstElements. rewrite in_map_iff. intros (file & <- & _).
  unfold SplitN2. destruct (cut_slash (FileName file)) as [[a b]|] eqn:Hcut; simpl.
  - exact (cut_slash_fst_noSlash _ _ _ Hcut).
  - exact Hcut.
Qed.

Lemma firstCommonPrefix_noSlash roots : noSlash (firstCommonPrefix commonPrefixes roots).
Proof.
  unfold commonPrefixes. simpl.
  repeat (match goal with
          | |- context [if ?b then _ else _] => destruct b; [reflexivity|]
          end).
  reflexivity.
Qed.

Lemma guessPublicDirectoryName_noSlash archive :
  noSlash (guessPublicDirectoryName archive).
Proof.
  unfold guessPublicDirectoryName.
  destruct (getAllRootDirectories_spec archive) as [_ Hin].
  destruct (getAllRootDirectories archive) as [|d [|d' rest]] eqn:Hroots;
    try apply firstCommonPrefix_noSlash.
  apply (firstElements_noSlash archive), Hin. left. reflexivity.
Qed.

Lemma noSlash_cons c s : noSlash (String c s) -> Ascii.eqb c "/" = false /\ noSlash s.
Proof.
  unfold noSlash. simpl. destruct (Ascii.eqb c "/"); [discriminate|].
  destruct (cut_slash s) as [[a b]|]; [discriminate | auto].
Qed.

Lemma HasPrefix_cons c s p : HasPrefix (String c s) (String c p) = HasPrefix s p.
Proof.
  unfold HasPrefix. simpl. destruct (Ascii.ascii_dec c c); [reflexivity | contradiction].
Qed.

(** The directory part of a name that starts with a slash-free prefix starts
with that prefix too. *)
Lemma cut_last_slash_prefix p : forall n,
  noSlash p -> HasPrefix n p = true ->
  match GoPath.cut_last_slash n with
  | Some (dir, _) => HasPrefix dir p = true
  | None => True
  end.
Proof.
  induction p as [|c p IH]; intros n Hp Hn.
  - destruct (GoPath.cut_last_slash n) as [[dir file]|]; [|exact I].
    apply HasPrefix_nil.
  - apply noSlash_cons in Hp as [Hc Hp].
    destruct n as [|c' n]; [discriminate|].
    assert (c = c').
    { unfold HasPrefix in Hn. simpl in Hn.
      destruct (Ascii.ascii_dec c c'); [assumption | discriminate]. }
    subst c'. rewrite HasPrefix_cons in Hn.
    specialize (IH n Hp Hn). simpl.
    destruct (GoPath.cut_last_slash n) as [[dir file]|].
    + rewrite HasPrefix_cons. exact IH.
    + rewrite Hc. exact I.
Qed.

Lemma Split_dir_prefix p n :
  noSlash p -> HasPrefix n p = true -> fst (GoPath.Split n) <> "" ->
  HasPrefix (fst (GoPath.Split n)) p = true.
Proof.
  intros Hp Hn Hdir. pose proof (cut_last_slash_prefix p n Hp Hn) as H.
  unfold GoPath.Split in *.
  destruct (GoPath.cut_last_slash n) as [[dir file]|]; simpl in *.
  - exact H.
  - contradiction.
Qed.

Lemma HasPrefix_snoc_slash p : forall c,
  noSlash p -> HasPrefix (c ++ "/") p = true -> HasPrefix c p = true.
Proof.
  induction p as [|a p IH]; intros c Hp Hc.
  - apply HasPrefix_nil.
  - apply noSlash_cons in Hp as [Ha Hp].
    destruct c as [|b c].
    + exfalso. change ("" ++ "/") with "/" in Hc.
      unfold HasPrefix in Hc. simpl in Hc.
      destruct (Ascii.ascii_dec a "/") as [->|]; [discriminate Ha | discriminate Hc].
    + change (String b c ++ "/") with (String b (c ++ "/")) in Hc.
      assert (a = b).
      { unfold HasPrefix in Hc. simpl in Hc.
        destruct (Ascii.ascii_dec a b); [assumption | discriminate]. }
      subst b. rewrite HasPrefix_cons in *. exact (IH c Hp Hc).
Qed.

Lemma addPathDirectory_lookup directories pathname key h :
  addPathDirectory directories pathname !! key = Some h ->
  directories !! key = Some h
  \/ (key = fst (GoPath.Split pathname) /\ key <> "" /\ Name h = key).
Proof.
  unfold addPathDirectory.
  destruct (String.eqb_spec (fst (GoPath.Split pathname)) "") as [Heq|Hne];
    [auto|].
  destruct (directories !! fst (GoPath.Split pathname)) eqn:Hdir; [auto|].
  destruct (decide (fst (GoPath.Split pathname) = key)) as [<-|Hkey].
  - rewrite lookup_insert_eq. intros [= <-]. right. auto.
  - rewrite lookup_insert_ne by exact Hkey. auto.
Qed.

Lemma recordFile_namesStartWithPrefix a file :
  noSlash (publicDirectoryName a) ->
  namesStartWithPrefix a -> namesStartWithPrefix (recordFile a file).
Proof.
  intros Hp [Hfiles Hdirs]. unfold recordFile.
  destruct (HasPrefix (FileName file) (publicDirectoryName a)) eqn:Hpre; simpl;
    [|split; assumption].
  destruct (IsDir _); split; simpl.
  - exact Hfiles.
  - intros name h Hh.
    apply addPathDirectory_lookup in Hh as [Hh | (-> & Hne & Hname)].
    + destruct (decide (FileName file = name)) as [<-|Hkey].
      * rewrite lookup_insert_eq in Hh. injection Hh as <-. auto.
      * rewrite lookup_insert_ne in Hh by exact Hkey. exact (Hdirs name h Hh).
    + split; [exact Hname|]. exact (Split_dir_prefix _ _ Hp Hpre Hne).
  - intros name f Hf.
    destruct (decide (FileName file = name)) as [<-|Hkey].
    + rewrite lookup_insert_eq in Hf. injection Hf as <-. auto.
    + rewrite lookup_insert_ne in Hf by exact Hkey. exact (Hfiles name f Hf).
  - intros name h Hh.
    apply addPathDirectory_lookup in Hh as [Hh | (-> & Hne & Hname)].
    + exact (Hdirs name h Hh).
    + split; [exact Hname|]. exact (Split_dir_prefix _ _ Hp Hpre Hne).
Qed.

Lemma fold_recordFile_namesStartWithPrefix archive : forall a,
  noSlash (publicDirectoryName a) ->
  namesStartWithPrefix a ->
  namesStartWithPrefix (fold_left recordFile archive a)
  /\ publicDirectoryName (fold_left recordFile archive a) = publicDirectoryName a.
Proof.
  induction archive as [|file rest IH]; intros a Hp Hinv; simpl.
  - auto.
  - destruct (IH (recordFile a file)) as [H1 H2].
    + rewrite recordFile_publicDirectoryName. exact Hp.
    + apply recordFile_namesStartWithPrefix; assumption.
    + split; [exact H1|]. rewrite H2. apply recordFile_publicDirectoryName.
Qed.

Lemma readArchive_namesStartWithPrefix res archive :
  namesStartWithPrefix (readArchive newArchive (inl res) (Some archive, None))
  /\ noSlash (publicDirectoryName (readArchive newArchive (inl res) (Some archive, None))).
Proof.
  unfold readArchive.
  match goal with
  | |- context [fold_left recordFile archive ?a1] =>
      destruct (fold_recordFile_namesStartWithPrefix archive a1) as [[Hf Hd] Hp]
  end.
  - simpl. apply guessPublicDirectoryName_noSlash.
  - split; intros name x; simpl; rewrite lookup_empty; discriminate.
  - simpl in *. split.
    + split; [exact Hf | exact Hd].
    + rewrite Hp. apply guessPublicDirectoryName_noSlash.
Qed.

(** After an archive has been opened successfully, whatever name is passed:
a file that [findFile] returns, and a directory that [findDirectory]
returns, is recorded under the cleaned path and its name starts with the
bytes of the public directory name; and when the cleaned path does not start
with those bytes, [Lstat], [Open] and [Readlink] fail with the not-exist
error. *)
Theorem found_entries_start_with_public_name
    (res : Resource) (archive : list File) (name : string) :
  (forall f,
     findFile (readArchive newArchive (inl res) (Some archive, None)) name = Some f ->
     FileName f
     = GoPath.Clean
         (publicDirectoryName (readArchive newArchive (inl res) (Some archive, None))
          ++ "/" ++ name)
     /\ HasPrefix (FileName f)
          (publicDirectoryName (readArchive newArchive (inl res) (Some archive, None)))
        = true)
  /\ (forall h,
        findDirectory (readArchive newArchive (inl res) (Some archive, None)) name
        = Some h ->
        HasPrefix (Name h)
          (publicDirectoryName (readArchive newArchive (inl res) (Some archive, None)))
        = true)
  /\ (HasPrefix
        (GoPath.Clean
           (publicDirectoryName (readArchive newArchive (inl res) (Some archive, None))
            ++ "/" ++ name))
        (publicDirectoryName (readArchive newArchive (inl res) (Some archive, None)))
      = false ->
      Lstat (readArchive newArchive (inl res) (Some archive, None)) name
      = LstatErr ErrNotExist
      /\ Open (readArchive newArchive (inl res) (Some archive, None)) name
         = OpenErr ErrNotExist
      /\ Readlink (readArchive newArchive (inl res) (Some archive, None)) name
         = inr ErrNotExist).
Proof.
  destruct (readArchive_namesStartWithPrefix res archive) as [[Hfiles Hdirs] Hp].
  set (a := readArchive newArchive (inl res) (Some archive, None)) in *.
  split; [|split].
  - intros f Hf. unfold findFile in Hf.
    destruct (Hfiles _ f Hf) as [Hname Hpre]. rewrite Hname. auto.
  - intros h Hh. unfold findDirectory in Hh.
    destruct (Hdirs _ h Hh) as [Hname Hpre]. rewrite Hname. exact Hpre.
  - intros Hout.
    assert (Hnofile : findFile a name = None).
    { unfold findFile. destruct (files a !! _) as [f|] eqn:Hf; [|reflexivity].
      destruct (Hfiles _ f Hf) as [_ Hpre]. congruence. }
    assert (Hnodir : findDirectory a name = None).
    { unfold findDirectory. destruct (directories a !! _) as [h|] eqn:Hh; [|reflexivity].
      destruct (Hdirs _ h Hh) as [_ Hpre].
      apply (HasPrefix_snoc_slash _ _ Hp) in Hpre. congruence. }
    unfold Lstat, Open, Readlink. rewrite Hnofile, Hnodir. auto.
Qed.

(** *** What the indexes hold *)

Lemma addPathDirectory_keys directories pathname key :
  is_Some (addPathDirectory directories pathname !! key)
  <-> is_Some (directories !! key)
      \/ (fst (GoPath.Split pathname) = key /\ key <> "").
Proof.
  unfold addPathDirectory.
  destruct (String.eqb_spec (fst (GoPath.Split pathname)) "") as [Heq|Hne].
  - split; [auto|]. intros [H|[<- H]]; [exact H | contradiction].
  - destruct (directories !! fst (GoPath.Split pathname)) eqn:Hdir.
    + split; [auto|]. intros [H|[<- _]]; [exact H|]. rewrite Hdir. eauto.
    + destruct (decide (fst (GoPath.Split pathname) = key)) as [<-|Hkey].
      * rewrite lookup_insert_eq. split; [auto | eauto].
      * rewrite lookup_insert_ne by exact Hkey.
        split; [auto|]. intros [H|[H _]]; [exact H | contradiction].
Qed.

Lemma insert_keys {A} (m : gmap string A) (k key : string) (x : A) :
  is_Some (<[k := x]> m !! key) <-> is_Some (m !! key) \/ k = key.
Proof.
  destruct (decide (k = key)) as [<-|Hne].
  - rewrite lookup_insert_eq. split; eauto.
  - rewrite lookup_insert_ne by exact Hne.
    split; [auto|]. intros [H|H]; [exact H | contradiction].
Qed.

(** The record [file] puts a file under [name], given the public directory
name [p]. *)
Definition putsFile (p name : string) (file : File) : Prop :=
  FileName file = name
  /\ HasPrefix (FileName file) p = true
  /\ IsDir (Mode (Header file)) = false.

(** The record [file] puts a directory under [name]: as a directory record
of that name, or as a record of any kind whose directory part is [name]. *)
Definition putsDirectory (p name : string) (file : File) : Prop :=
  HasPrefix (FileName file) p = true
  /\ ((FileName file = name /\ IsDir (Mode (Header file)) = true)
      \/ (fst (GoPath.Split (FileName file)) = name /\ name <> "")).

Lemma recordFile_files_keys a file name :
  is_Some (files (recordFile a file) !! name)
  <-> is_Some (files a !! name) \/ putsFile (publicDirectoryName a) name file.
Proof.
  unfold recordFile, putsFile.
  destruct (HasPrefix (FileName file) (publicDirectoryName a)); simpl.
  - destruct (IsDir (Mode (Header file))); simpl.
    + split; [auto|]. intros [H|(_ & _ & H)]; [exact H | discriminate].
    + rewrite insert_keys. split.
      * intros [H|H]; auto.
      * intros [H|(H & _)]; auto.
  - split; [auto|]. intros [H|(_ & H & _)]; [exact H | discriminate].
Qed.

Lemma recordFile_directories_keys a file name :
  is_Some (directories (recordFile a file) !! name)
  <-> is_Some (directories a !! name)
      \/ putsDirectory (publicDirectoryName a) name file.
Proof.
  unfold recordFile, putsDirectory.
  destruct (HasPrefix (FileName file) (publicDirectoryName a)); simpl.
  - destruct (IsDir (Mode (Header file))); simpl;
      rewrite addPathDirectory_keys; [rewrite insert_keys|].
    + split.
      * intros [[H|H]|H]; auto.
      * intros [H|[_ [[H _]|H]]]; auto.
    + split.
      * intros [H|H]; auto.
      * intros [H|[_ [[_ H]|H]]]; auto. discriminate.
  - split; [auto|]. intros [H|[H _]]; [exact H | discriminate].
Qed.

Lemma fold_recordFile_publicDirectoryName archive : forall a,
  publicDirectoryName (fold_left recordFile archive a) = publicDirectoryName a.
Proof.
  induction archive as [|file rest IH]; intros a; simpl; [reflexivity|].
  rewrite IH. apply recordFile_publicDirectoryName.
Qed.

Lemma fold_recordFile_keys archive : forall a name,
  (is_Some (files (fold_left recordFile archive a) !! name)
   <-> is_Some (files a !! name)
       \/ exists file, In file archive /\ putsFile (publicDirectoryName a) name file)
  /\ (is_Some (directories (fold_left recordFile archive a) !! name)
      <-> is_Some (directories a !! name)
          \/ exists file,
               In file archive /\ putsDirectory (publicDirectoryName a) name file).
Proof.
  induction archive as [|file rest IH]; intros a name; simpl.
  - split; (split; [auto|]); intros [H|(file & [] & _)]; exact H.
  - destruct (IH (recordFile a file) name) as [Hf Hd].
    rewrite recordFile_publicDirectoryName in Hf, Hd.
    rewrite Hf, Hd, recordFile_files_keys, recordFile_directories_keys.
    split; split.
    + intros [[H|H]|(f & Hin & H)]; eauto 6.
    + intros [H|(f & [<-|Hin] & H)]; eauto 6.
    + intros [[H|H]|(f & Hin & H)]; eauto 6.
    + intros [H|(f & [<-|Hin] & H)]; eauto 6.
Qed.

Lemma readArchive_keys res archive name :
  (is_Some (files (readArchive newArchive (inl res) (Some archive, None)) !! name)
   <-> exists file,
         In file archive /\ putsFile (guessPublicDirectoryName archive) name file)
  /\ (is_Some (directories (readArchive newArchive (inl res) (Some archive, None))
                 !! name)
      <-> exists file,
            In file archive
            /\ putsDirectory (guessPublicDirectoryName archive) name file).
Proof.
  unfold readArchive. cbn [files directories].
  match goal with
  | |- context [fold_left recordFile archive ?a1] =>
      destruct (fold_recordFile_keys archive a1 name) as [Hf Hd]
  end.
  cbn [publicDirectoryName files directories newArchive] in Hf, Hd.
  rewrite Hf, Hd, !lookup_empty.
  split; (split; [intros [[x Hx]|H]; [discriminate | exact H] | auto]).
Qed.

(** The indexes of an archive that was opened successfully hold exactly what
the loop of [readArchive] put there.  A name has a file exactly when a
record of that name is not a directory and starts with the bytes of the
guessed public directory name; a name has a directory exactly when, among
the records that start with those bytes, it is the name of a directory
record or the directory part of a record (the bytes up to its last slash,
not empty).  The public directory name is the guess. *)
Theorem index_holds_prefixed_records
    (res : Resource) (archive : list File) (name : string) :
  publicDirectoryName (readArchive newArchive (inl res) (Some archive, None))
  = guessPublicDirectoryName archive
  /\ (is_Some (files (readArchive newArchive (inl res) (Some archive, None)) !! name)
      <-> exists file,
            In file archive
            /\ FileName file = name
            /\ HasPrefix (FileName file) (guessPublicDirectoryName archive) = true
            /\ IsDir (Mode (Header file)) = false)
  /\ (is_Some (directories (readArchive newArchive (inl res) (Some archive, None))
                 !! name)
      <-> exists file,
            In file archive
            /\ HasPrefix (FileName file) (guessPublicDirectoryName archive) = true
            /\ ((FileName file = name /\ IsDir (Mode (Header file)) = true)
                \/ (fst (GoPath.Split (FileName file)) = name /\ name <> ""))).
Proof.
  split.
  - unfold readArchive. cbn [publicDirectoryName].
    apply fold_recordFile_publicDirectoryName.
  - exact (readArchive_keys res archive name).
Qed.

(** *** Failed reads *)

Lemma empty_index_not_exist a name :
  files a = ∅ -> directories a = ∅ ->
  Lstat a name = LstatErr ErrNotExist
  /\ Open a name = OpenErr ErrNotExist
  /\ Readlink a name = inr ErrNotExist.
Proof.
  intros Hf Hd. unfold Lstat, Open, Readlink, findFile, findDirectory.
  rewrite Hf, Hd, !lookup_empty. auto.
Qed.

(** When the archive could not be read nothing is indexed and every lookup
answers not-exist, whatever the name: when the resource could not be
created the stored error is that of the resource and no resource is kept;
when the zip reader failed, or returned no archive, the stored error is
what the reader left. *)
Theorem failed_read_serves_nothing
    (res : Resource) (e : error) (name : string)
    (newReader : option (list File) * option error) (archive : option (list File)) :
  (err (readArchive newArchive (inr e) newReader) = Some e
   /\ resource (readArchive newArchive (inr e) newReader) = None
   /\ Lstat (readArchive newArchive (inr e) newReader) name = LstatErr ErrNotExist
   /\ Open (readArchive newArchive (inr e) newReader) name = OpenErr ErrNotExist
   /\ Readlink (readArchive newArchive (inr e) newReader) name = inr ErrNotExist)
  /\ (err (readArchive newArchive (inl res) (archive, Some e)) = Some e
      /\ files (readArchive newArchive (inl res) (archive, Some e)) = ∅
      /\ directories (readArchive newArchive (inl res) (archive, Some e)) = ∅
      /\ Lstat (readArchive newArchive (inl res) (archive, Some e)) name
         = LstatErr ErrNotExist
      /\ Open (readArchive newArchive (inl res) (archive, Some e)) name
         = OpenErr ErrNotExist
      /\ Readlink (readArchive newArchive (inl res) (archive, Some e)) name
         = inr ErrNotExist)
  /\ (err (readArchive newArchive (inl res) (None, None)) = None
      /\ Lstat (readArchive newArchive (inl res) (None, None)) name
         = LstatErr ErrNotExist
      /\ Open (readArchive newArchive (inl res) (None, None)) name
         = OpenErr ErrNotExist
      /\ Readlink (readArchive newArchive (inl res) (None, None)) name
         = inr ErrNotExist).
Proof.
  split; [|split].
  - split; [reflexivity|]. split; [reflexivity|].
    apply empty_index_not_exist; reflexivity.
  - assert (Hf : files (readArchive newArchive (inl res) (archive, Some e)) = ∅)
      by (destruct archive; reflexivity).
    assert (Hd : directories (readArchive newArchive (inl res) (archive, Some e)) = ∅)
      by (destruct archive; reflexivity).
    split; [destruct archive; reflexivity|]. split; [exact Hf|]. split; [exact Hd|].
    apply empty_index_not_exist; assumption.
  - split; [reflexivity|]. apply empty_index_not_exist; reflexivity.
Qed.

(** *** File kinds *)

Lemma IsRegular_not_dir_nor_symlink m :
  IsRegular m = true ->
  IsDir m = false /\ Z.land m ModeSymlink = 0%Z.
Proof.
  unfold IsRegular, IsDir. intros H. apply Z.eqb_eq in H.
  assert (Hd : Z.land m ModeDir = 0%Z).
  { replace ModeDir with (Z.land ModeType ModeDir) by reflexivity.
    rewrite Z.land_assoc, H. reflexivity. }
  assert (Hs : Z.land m ModeSymlink = 0%Z).
  { replace ModeSymlink with (Z.land ModeType ModeSymlink) by reflexivity.
    rewrite Z.land_assoc, H. reflexivity. }
  rewrite Hd, Hs. auto.
Qed.

(** [Open] returns a reader only for a file found under the cleaned path that
is regular: neither a directory nor a symbolic link.  The reader starts at
the data offset of the file, inflates exactly when the method is [Deflate]
and is the plain section exactly when it is [Store]; [Readlink] refuses the
same name. *)
Theorem Open_reads_regular_files_only
    (a : zipArchive) (name : string) (file : File) (dataOffset : Z) :
  Open a name = DeflateReader file dataOffset
  \/ Open a name = SectionReader file dataOffset ->
  findFile a name = Some file
  /\ DataOffset file = inl dataOffset
  /\ IsRegular (Mode (Header file)) = true
  /\ IsDir (Mode (Header file)) = false
  /\ Z.land (Mode (Header file)) ModeSymlink = 0%Z
  /\ (Open a name = DeflateReader file dataOffset -> Method (Header file) = Deflate)
  /\ (Open a name = SectionReader file dataOffset -> Method (Header file) = Store)
  /\ Readlink a name = inr errNotSymlink.
Proof.
  unfold Open, Readlink.
  destruct (findFile a name) as [f|];
    [|destruct (findDirectory a name); intros [H|H]; discriminate].
  destruct (IsRegular (Mode (Header f))) eqn:Hreg; simpl;
    [|intros [H|H]; discriminate].
  destruct (IsRegular_not_dir_nor_symlink _ Hreg) as [Hdir Hsym].
  rewrite Hsym.
  destruct (DataOffset f) as [off|e] eqn:Hoff; [|intros [H|H]; discriminate].
  destruct (Method (Header f) =? Deflate)%Z eqn:Hdef;
    [|destruct (Method (Header f) =? Store)%Z eqn:Hsto].
  - intros [H|H]; [|discriminate]. injection H as <- <-.
    apply Z.eqb_eq in Hdef. repeat split; auto. discriminate.
  - intros [H|H]; [discriminate|]. injection H as <- <-.
    apply Z.eqb_eq in Hsto. repeat split; auto. discriminate.
  - intros [H|H]; discriminate.
Qed.

Lemma Open_reads_regular_files_only_witness :
  Open (opened [regularFile "public/index.html"]) "index.html"
  = DeflateReader (regularFile "public/index.html") 64
  /\ Readlink (opened [regularFile "public/index.html"]) "index.html"
     = inr errNotSymlink.
Proof.
  split; [reflexivity|].
  apply (Open_reads_regular_files_only
           (opened [regularFile "public/index.html"]) "index.html"
           (regularFile "public/index.html") 64).
  left. reflexivity.
Defined.

(** [Readlink] returns a target only for a file found under the cleaned path
whose mode has the symlink bit; the target is the link data read from the
file and has at most [maxSymlinkSize] bytes; [Open] refuses the same name
as not a file. *)
Theorem Readlink_returns_short_symlink_target
    (a : zipArchive) (name : string) (symlink : string) :
  Readlink a name = inl symlink ->
  (String.length symlink <= maxSymlinkSize)%nat
  /\ (exists file,
        findFile a name = Some file
        /\ LinkData file = inl symlink
        /\ Z.land (Mode (Header file)) ModeSymlink = ModeSymlink)
  /\ Open a name = OpenErr errNotFile.
Proof.
  unfold Readlink, Open.
  destruct (findFile a name) as [f|];
    [|destruct (findDirectory a name); discriminate].
  destruct (Z.land (Mode (Header f)) ModeSymlink =? ModeSymlink)%Z eqn:Hsym; simpl;
    [|discriminate].
  apply Z.eqb_eq in Hsym.
  destruct (LinkData f) as [s|e] eqn:Hlink; [|discriminate].
  destruct (maxSymlinkSize <? String.length s)%nat eqn:Hlen; [discriminate|].
  intros [= <-]. apply Nat.ltb_ge in Hlen.
  split; [exact Hlen|]. split; [eauto|].
  destruct (IsRegular (Mode (Header f))) eqn:Hreg; [|reflexivity].
  apply IsRegular_not_dir_nor_symlink in Hreg as [_ Hzero].
  rewrite Hzero in Hsym. discriminate.
Qed.

Lemma Readlink_returns_short_symlink_target_witness :
  Readlink (opened [symlinkFile "public/link" "index.html"]) "link" = inl "index.html"
  /\ Open (opened [symlinkFile "public/link" "index.html"]) "link" = OpenErr errNotFile.
Proof.
  split; [reflexivity|].
  apply (Readlink_returns_short_symlink_target
           (opened [symlinkFile "public/link" "index.html"]) "link" "index.html").
  reflexivity.
Defined.

(** *** An archive whose public directory could not be guessed *)

Lemma cut_last_slash_app : forall n dir file,
  GoPath.cut_last_slash n = Some (dir, file) -> n = dir ++ file.
Proof.
  induction n as [|c n IH]; intros dir file; simpl; [discriminate|].
  destruct (GoPath.cut_last_slash n) as [[d f]|].
  - intros [= <- <-]. rewrite (IH d f eq_refl) at 1. reflexivity.
  - destruct (Ascii.eqb c "/"); [|discriminate].
    intros [= <- <-]. reflexivity.
Qed.

Lemma Split_dir_leads n : HasPrefix n (fst (GoPath.Split n)) = true.
Proof.
  unfold GoPath.Split.
  destruct (GoPath.cut_last_slash n) as [[dir file]|] eqn:Hcut; simpl.
  - apply HasPrefix_correct. exists file. exact (cut_last_slash_app _ _ _ Hcut).
  - apply HasPrefix_nil.
Qed.

Lemma HasPrefix_slash_inv s : HasPrefix s "/" = true <-> exists t, s = String "/" t.
Proof. apply HasPrefix_correct. Qed.

Lemma Clean_rooted s : HasPrefix (GoPath.Clean (String "/" s)) "/" = true.
Proof. apply HasPrefix_slash_inv. eexists. reflexivity. Qed.

(** When the public directory name is guessed empty (the archive has no
record, or several first path elements none of which is a common folder
name) and no record name starts with a slash, the opened archive serves
nothing: every path is looked up under a leading slash, so [Lstat], [Open]
and [Readlink] answer not-exist for every name. *)
Theorem unguessed_archive_serves_nothing
    (res : Resource) (archive : list File) (name : string) :
  guessPublicDirectoryName archive = "" ->
  Forall (fun file => HasPrefix (FileName file) "/" = false) archive ->
  Lstat (readArchive newArchive (inl res) (Some archive, None)) name
  = LstatErr ErrNotExist
  /\ Open (readArchive newArchive (inl res) (Some archive, None)) name
     = OpenErr ErrNotExist
  /\ Readlink (readArchive newArchive (inl res) (Some archive, None)) name
     = inr ErrNotExist.
Proof.
  intros Hguess Hnames.
  assert (Hp : publicDirectoryName
                 (readArchive newArchive (inl res) (Some archive, None)) = "").
  { unfold readArchive. cbn [publicDirectoryName].
    rewrite fold_recordFile_publicDirectoryName. exact Hguess. }
  assert (Hnone : forall file, In file archive ->
                    HasPrefix (FileName file) "/" = false).
  { intros file Hin. exact (proj1 (List.Forall_forall _ _) Hnames file Hin). }
  assert (Hnofile :
            findFile (readArchive newArchive (inl res) (Some archive, None)) name
            = None).
  { unfold findFile. rewrite Hp.
    change ("" ++ "/" ++ name) with (String "/" name).
    apply eq_None_not_Some. intros Hsome.
    apply (readArchive_keys res archive) in Hsome as (file & Hin & Hname & _).
    pose proof (Clean_rooted name) as Hroot. rewrite <- Hname in Hroot.
    rewrite (Hnone file Hin) in Hroot. discriminate. }
  assert (Hnodir :
            findDirectory (readArchive newArchive (inl res) (Some archive, None)) name
            = None).
  { unfold findDirectory. rewrite Hp.
    change ("" ++ "/" ++ name) with (String "/" name).
    apply eq_None_not_Some. intros Hsome.
    apply (readArchive_keys res archive) in Hsome as (file & Hin & _ & Hput).
    destruct (proj1 (HasPrefix_slash_inv _) (Clean_rooted name)) as [t Ht].
    rewrite Ht in Hput.
    change (String "/" t ++ "/") with (String "/" (t ++ "/")) in Hput.
    assert (Hlead : HasPrefix (FileName file) "/" = true).
    { destruct Hput as [[Hname _]|[Hdir _]].
      - rewrite Hname. apply HasPrefix_slash_inv. eexists. reflexivity.
      - pose proof (Split_dir_leads (FileName file)) as Hl. rewrite Hdir in Hl.
        apply HasPrefix_correct in Hl as [rest Hrest].
        apply HasPrefix_slash_inv. rewrite Hrest. eexists. reflexivity. }
    rewrite (Hnone file Hin) in Hlead. discriminate. }
  unfold Lstat, Open, Readlink. rewrite Hnofile, Hnodir. auto.
Qed.

(** Two top-level folders, neither of them a common name: the page that
either folder holds is not served. *)
Lemma unguessed_archive_serves_nothing_witness :
  guessPublicDirectoryName [regularFile "site/index.html"; regularFile "docs/index.html"]
  = ""
  /\ Lstat (opened [regularFile "site/index.html"; regularFile "docs/index.html"])
       "site/index.html"
     = LstatErr ErrNotExist.
Proof.
  split; [reflexivity|].
  apply (unguessed_archive_serves_nothing
           {| URL := "http://store/public.zip"; Size := 1024; ResourceErr := None |}
           [regularFile "site/index.html"; regularFile "docs/index.html"]
           "site/index.html").
  - reflexivity.
  - repeat constructor.
Defined.

(** *** The directory that holds a file *)

Lemma cut_last_slash_noSlash : forall s, noSlash s -> GoPath.cut_last_slash s = None.
Proof.
  induction s as [|c s IH]; intros Hs; [reflexivity|].
  apply noSlash_cons in Hs as [Hc Hs]. simpl.
  rewrite (IH Hs), Hc. reflexivity.
Qed.

(** [path.Split] of a path that ends with a slash and a single element. *)
Lemma Split_snoc base : forall x,
  noSlash base -> GoPath.Split (x ++ "/" ++ base) = (x ++ "/", base).
Proof.
  intros x Hbase. unfold GoPath.Split.
  assert (Hcut : GoPath.cut_last_slash (x ++ "/" ++ base) = Some (x ++ "/", base)).
  { induction x as [|c x IH].
    - change ("" ++ "/" ++ base) with (String "/" base). simpl.
      rewrite (cut_last_slash_noSlash base Hbase). reflexivity.
    - change (String c x ++ "/" ++ base) with (String c (x ++ "/" ++ base)).
      simpl. rewrite IH. reflexivity. }
  rewrite Hcut. reflexivity.
Qed.

Lemma split_slash_aux_noSlash p : forall cur t,
  noSlash p ->
  split_slash_aux cur (p ++ "/" ++ t) = (cur ++ p) :: split_slash_aux "" t.
Proof.
  induction p as [|c p IH]; intros cur t Hp.
  - change ("" ++ "/" ++ t) with (String "/" t). simpl.
    rewrite append_nil_r. reflexivity.
  - apply noSlash_cons in Hp as [Hc Hp].
    change (String c p ++ "/" ++ t) with (String c (p ++ "/" ++ t)).
    simpl. rewrite Hc, (IH _ t Hp), append_assoc. reflexivity.
Qed.

(** [path.Clean] drops the slash after a single element. *)
Lemma Clean_element_slash p :
  noSlash p -> p <> "" -> GoPath.Clean (p ++ "/") = p.
Proof.
  intros Hp Hne. destruct p as [|c p]; [contradiction|].
  assert (Hsplit : GoStrings.Split (String c (p ++ "/")) = [String c p; ""])
    by exact (split_slash_aux_noSlash (String c p) "" "" Hp).
  apply noSlash_cons in Hp as [Hc _].
  change (String c p ++ "/") with (String c (p ++ "/")).
  unfold GoPath.Clean. rewrite Hc, Hsplit.
  cbn [fold_left]. unfold GoPath.cleanStep.
  destruct (String.eqb_spec (String c p) "") as [|_]; [discriminate|].
  destruct (String.eqb_spec (String c p) ".") as [->|_]; [reflexivity|].
  destruct (String.eqb_spec (String c p) "..") as [->|_]; reflexivity.
Qed.

(** C5, as the code has it.  After an archive has been opened successfully,
the directory that holds a recorded file (the part of its path up to the last
slash) has a directory entry, whether or not the ZIP has a record for it, and
[Lstat] succeeds on every name that resolves to that directory.  Such a name
exists when the name of the file is the public directory name, a slash and a
relative path: for a file in a sub-directory whose path [path.Clean] leaves
as it is, the relative path of that sub-directory; for a file directly in a
public directory whose name is not empty, the empty name. *)
Theorem parent_directory_has_entry
    (res : Resource) (archive : list File) (name : string) (f : File) :
  files (readArchive newArchive (inl res) (Some archive, None)) !! name = Some f ->
  fst (GoPath.Split name) <> "" ->
  is_Some (directories (readArchive newArchive (inl res) (Some archive, None))
             !! fst (GoPath.Split name))
  /\ (forall n,
        GoPath.Clean
          (publicDirectoryName (readArchive newArchive (inl res) (Some archive, None))
           ++ "/" ++ n) ++ "/"
        = fst (GoPath.Split name) ->
        lstatFound (Lstat (readArchive newArchive (inl res) (Some archive, None)) n)
        = true)
  /\ (forall rel base,
        name
        = publicDirectoryName (readArchive newArchive (inl res) (Some archive, None))
          ++ "/" ++ rel ++ "/" ++ base ->
        noSlash base ->
        GoPath.Clean
          (publicDirectoryName (readArchive newArchive (inl res) (Some archive, None))
           ++ "/" ++ rel)
        = publicDirectoryName (readArchive newArchive (inl res) (Some archive, None))
          ++ "/" ++ rel ->
        fst (GoPath.Split name)
        = publicDirectoryName (readArchive newArchive (inl res) (Some archive, None))
          ++ "/" ++ rel ++ "/"
        /\ lstatFound
             (Lstat (readArchive newArchive (inl res) (Some archive, None)) rel)
           = true)
  /\ (forall base,
        name
        = publicDirectoryName (readArchive newArchive (inl res) (Some archive, None))
          ++ "/" ++ base ->
        noSlash base ->
        publicDirectoryName (readArchive newArchive (inl res) (Some archive, None))
        <> "" ->
        fst (GoPath.Split name)
        = publicDirectoryName (readArchive newArchive (inl res) (Some archive, None))
          ++ "/"
        /\ lstatFound
             (Lstat (readArchive newArchive (inl res) (Some archive, None)) "")
           = true).
Proof.
  intros Hf Hdir.
  pose proof (readArchive_parentsRecorded res archive name f Hf Hdir) as Hentry.
  destruct (readArchive_namesStartWithPrefix res archive) as [_ Hpdn].
  set (a := readArchive newArchive (inl res) (Some archive, None)) in *.
  assert (Hlstat : forall n,
            GoPath.Clean (publicDirectoryName a ++ "/" ++ n) ++ "/"
            = fst (GoPath.Split name) ->
            lstatFound (Lstat a n) = true).
  { intros n Hn. unfold Lstat.
    destruct (findFile a n); [reflexivity|].
    unfold findDirectory. rewrite Hn.
    destruct Hentry as [h ->]. reflexivity. }
  split; [exact Hentry|]. split; [exact Hlstat|]. split.
  - intros rel base Hname Hbase Hclean.
    assert (Hsplit : fst (GoPath.Split name)
                     = publicDirectoryName a ++ "/" ++ rel ++ "/").
    { rewrite Hname.
      replace (publicDirectoryName a ++ "/" ++ rel ++ "/" ++ base)
        with ((publicDirectoryName a ++ "/" ++ rel) ++ "/" ++ base)
        by (rewrite append_assoc; reflexivity).
      rewrite (Split_snoc base _ Hbase). simpl.
      rewrite append_assoc. reflexivity. }
    split; [exact Hsplit|].
    apply Hlstat. rewrite Hclean, Hsplit, append_assoc. reflexivity.
  - intros base Hname Hbase Hne.
    assert (Hsplit : fst (GoPath.Split name) = publicDirectoryName a ++ "/").
    { rewrite Hname, (Split_snoc base _ Hbase). reflexivity. }
    split; [exact Hsplit|].
    apply Hlstat. rewrite Hsplit.
    change (publicDirectoryName a ++ "/" ++ "") with (publicDirectoryName a ++ "/").
    rewrite (Clean_element_slash _ Hpdn Hne). reflexivity.
Qed.

(** The archive with the records [public/a/b/c.txt] and [public/index.html]:
the directory [public/a/b/] gets an entry and [Lstat] finds it under the name
[a/b]; the directory [public/] gets one and [Lstat] finds it under the empty
name. *)
Lemma parent_directory_has_entry_witness :
  is_Some (directories
             (opened [regularFile "public/a/b/c.txt"; regularFile "public/index.html"])
             !! "public/a/b/")
  /\ lstatFound
       (Lstat (opened [regularFile "public/a/b/c.txt"; regularFile "public/index.html"])
              "a/b") = true
  /\ lstatFound
       (Lstat (opened [regularFile "public/a/b/c.txt"; regularFile "public/index.html"])
              "") = true.
Proof.
  destruct (parent_directory_has_entry
              {| URL := "http://store/public.zip"; Size := 1024; ResourceErr := None |}
              [regularFile "public/a/b/c.txt"; regularFile "public/index.html"]
              "public/a/b/c.txt" (regularFile "public/a/b/c.txt"))
    as (Hentry & _ & Hsub & _).
  - vm_compute. reflexivity.
  - vm_compute. discriminate.
  - destruct (parent_directory_has_entry
                {| URL := "http://store/public.zip"; Size := 1024; ResourceErr := None |}
                [regularFile "public/a/b/c.txt"; regularFile "public/index.html"]
                "public/index.html" (regularFile "public/index.html"))
      as (_ & _ & _ & Htop).
    + vm_compute. reflexivity.
    + vm_compute. discriminate.
    + split; [exact Hentry|]. split.
      * apply (Hsub "a/b" "c.txt"); vm_compute; reflexivity.
      * apply (Htop "index.html"); vm_compute; try reflexivity. discriminate.
Defined.

(** Without a public directory name the entry of the parent is there and
[Lstat] does not find it: with the records [site/a/x.txt] and [docs/y.txt]
the name is guessed empty, [site/a/] has an entry, and no spelling of the
directory reaches it. *)
Example parent_not_found_without_public_name :
  publicDirectoryName (opened [regularFile "site/a/x.txt"; regularFile "docs/y.txt"]) = ""
  /\ is_Some (files (opened [regularFile "site/a/x.txt"; regularFile "docs/y.txt"])
                !! "site/a/x.txt")
  /\ is_Some (directories (opened [regularFile "site/a/x.txt"; regularFile "docs/y.txt"])
                !! "site/a/")
  /\ map (Lstat (opened [regularFile "site/a/x.txt"; regularFile "docs/y.txt"]))
         ["site/a"; "/site/a"; "site/a/"; "a"]
     = [LstatErr ErrNotExist; LstatErr ErrNotExist; LstatErr ErrNotExist;
        LstatErr ErrNotExist].
Proof.
  split; [reflexivity|]. split; [vm_compute; eauto|]. split; [vm_compute; eauto|].
  vm_compute. reflexivity.
Qed.

End ZipFacts.

(** ** internal/vfs/zip: opening an archive once *)

Module ZipOpenFacts.
Import Http Zip ZipOpen.
Local Open Scope nat_scope.

Lemma open_invariant_init : invariant init.
Proof. split; simpl; [reflexivity | reflexivity | discriminate]. Qed.

Lemma open_exec_invariant s ev s' :
  invariant s -> exec s ev = Some s' -> invariant s'.
Proof.
  intros [Hreads Hreading Hdone] Hexec.
  destruct ev as [u|i e|i|i|i|i|nr nz|e]; simpl in Hexec.
  - injection Hexec as <-. split; assumption.
  - destruct (callers s !! i) as [c|]; [|discriminate].
    destruct (ctxDone c); [discriminate|].
    injection Hexec as <-. split; assumption.
  - destruct (callers s !! i) as [c|]; [|discriminate].
    destruct (pc c); try discriminate.
    destruct (openStatus _) as [[| | |] e]; injection Hexec as <-; split; assumption.
  - destruct (callers s !! i) as [c|]; [|discriminate].
    destruct (pc c); try discriminate.
    destruct (onceDone s) eqn:Honce; injection Hexec as <-.
    + split; simpl; [rewrite Honce; exact Hreads | rewrite Honce; exact Hreading
                    | intros _; exact Honce].
    + split; simpl; [rewrite Hreads; reflexivity | | reflexivity].
      destruct (doneClosed s) eqn:Hd; [|reflexivity].
      specialize (Hdone eq_refl). discriminate.
  - destruct (callers s !! i) as [c|]; [|discriminate].
    destruct (pc c); try discriminate.
    destruct (doneClosed s) eqn:Hd; [|discriminate].
    injection Hexec as <-. split; simpl; rewrite ?Hd; assumption.
  - destruct (callers s !! i) as [c|]; [|discriminate].
    destruct (pc c); try discriminate.
    destruct (ctxDone c); [|discriminate].
    injection Hexec as <-. split; assumption.
  - destruct (reading s) eqn:Hr; [|discriminate].
    injection Hexec as <-.
    symmetry in Hreading. apply andb_true_iff in Hreading as [Honce _].
    split; simpl.
    + exact Hreads.
    + rewrite Honce. reflexivity.
    + intros _. exact Honce.
  - injection Hexec as <-. split; assumption.
Qed.

Lemma open_run_invariant trace : forall s s',
  invariant s -> run s trace = Some s' -> invariant s'.
Proof.
  induction trace as [|ev rest IH]; intros s s' Hinv Hrun; simpl in Hrun.
  - injection Hrun as <-. exact Hinv.
  - destruct (exec s ev) as [s1|] eqn:Hexec; [|discriminate].
    exact (IH s1 s' (open_exec_invariant s ev s1 Hinv Hexec) Hrun).
Qed.

Lemma setURL_stored a u :
  err (setURL a u) = err a /\ storedResult (setURL a u) = storedResult a
  /\ files (setURL a u) = files a /\ directories (setURL a u) = directories a.
Proof.
  unfold setURL, storedResult.
  destruct (resource a) as [res|] eqn:Hres; simpl; rewrite ?Hres; auto.
Qed.

Lemma failResource_err a e :
  err (failResource a e) = err a /\ files (failResource a e) = files a
  /\ directories (failResource a e) = directories a.
Proof. unfold failResource. destruct (resource a); simpl; auto. Qed.

(** Once [done] is closed a step keeps it closed, starts no read, and
keeps the error and the index that the read stored. *)
Lemma exec_after_done s ev s' :
  invariant s -> doneClosed s = true -> exec s ev = Some s' ->
  doneClosed s' = true /\ reads s' = reads s
  /\ err (archive s') = err (archive s)
  /\ files (archive s') = files (archive s)
  /\ directories (archive s') = directories (archive s).
Proof.
  intros [Hreads Hreading Hdone] Hclosed Hexec.
  destruct ev as [u|i e|i|i|i|i|nr nz|e]; simpl in Hexec.
  - injection Hexec as <-. auto.
  - destruct (callers s !! i) as [c|]; [|discriminate].
    destruct (ctxDone c); [discriminate|].
    injection Hexec as <-. auto.
  - destruct (callers s !! i) as [c|]; [|discriminate].
    destruct (pc c); try discriminate.
    destruct (setURL_stored (archive s) (url c)) as (He & _ & Hf & Hd).
    destruct (openStatus _) as [[| | |] e]; injection Hexec as <-; simpl; auto.
  - destruct (callers s !! i) as [c|]; [|discriminate].
    destruct (pc c); try discriminate.
    rewrite (Hdone Hclosed) in Hexec. injection Hexec as <-. auto.
  - destruct (callers s !! i) as [c|]; [|discriminate].
    destruct (pc c); try discriminate.
    rewrite Hclosed in Hexec. injection Hexec as <-. auto.
  - destruct (callers s !! i) as [c|]; [|discriminate].
    destruct (pc c); try discriminate.
    destruct (ctxDone c); [|discriminate].
    injection Hexec as <-. auto.
  - rewrite Hreading, Hclosed, andb_false_r in Hexec. discriminate.
  - injection Hexec as <-. simpl.
    destruct (failResource_err (archive s) e) as (He & Hf & Hd). auto.
Qed.

Lemma run_after_done trace : forall s s',
  invariant s -> doneClosed s = true -> run s trace = Some s' ->
  doneClosed s' = true /\ reads s' = reads s
  /\ err (archive s') = err (archive s)
  /\ files (archive s') = files (archive s)
  /\ directories (archive s') = directories (archive s).
Proof.
  induction trace as [|ev rest IH]; intros s s' Hinv Hclosed Hrun; simpl in Hrun.
  - injection Hrun as <-. auto.
  - destruct (exec s ev) as [s1|] eqn:Hexec; [|discriminate].
    destruct (exec_after_done s ev s1 Hinv Hclosed Hexec) as (H1 & H2 & H3 & H4 & H5).
    destruct (IH s1 s' (open_exec_invariant s ev s1 Hinv Hexec) H1 Hrun)
      as (H1' & H2' & H3' & H4' & H5').
    repeat split; congruence.
Qed.

(** A step of a caller, or of a caller's context, leaves the read alone. *)
Lemma exec_ofCaller s ev s' :
  ofCaller ev = true -> exec s ev = Some s' ->
  (reading s = true -> reading s' = true)
  /\ doneClosed s' = doneClosed s
  /\ err (archive s') = err (archive s)
  /\ files (archive s') = files (archive s).
Proof.
  intros Hev Hexec.
  destruct ev as [u|i e|i|i|i|i|nr nz|e]; simpl in Hexec, Hev;
    try (discriminate Hev).
  - injection Hexec as <-. auto.
  - destruct (callers s !! i) as [c|]; [|discriminate].
    destruct (ctxDone c); [discriminate|].
    injection Hexec as <-. auto.
  - destruct (callers s !! i) as [c|]; [|discriminate].
    destruct (pc c); try discriminate.
    destruct (setURL_stored (archive s) (url c)) as (He & _ & Hf & Hd).
    destruct (openStatus _) as [[| | |] e]; injection Hexec as <-; simpl; auto.
  - destruct (callers s !! i) as [c|]; [|discriminate].
    destruct (pc c); try discriminate.
    destruct (onceDone s); injection Hexec as <-; simpl; auto.
  - destruct (callers s !! i) as [c|]; [|discriminate].
    destruct (pc c); try discriminate.
    destruct (doneClosed s) eqn:Hd; [|discriminate].
    injection Hexec as <-. simpl. auto.
  - destruct (callers s !! i) as [c|]; [|discriminate].
    destruct (pc c); try discriminate.
    destruct (ctxDone c); [|discriminate].
    injection Hexec as <-. auto.
Qed.

Lemma openStatus_done s :
  doneClosed s = true ->
  snd (openStatus s) = storedResult (archive s)
  /\ fst (openStatus s) <> archiveOpening.
Proof.
  intros Hclosed. unfold openStatus, storedResult. rewrite Hclosed.
  destruct (err (archive s)); [split; [reflexivity | discriminate]|].
  destruct (resource (archive s)) as [res|]; [|split; [reflexivity | discriminate]].
  destruct (ResourceErr res); split; try reflexivity; discriminate.
Qed.

(** C2, as the code has it.  In every state that the callers of
[openArchive] on one archive can reach:
(1) at most one goroutine of [readArchive] was started;
(2) a caller that waits while [done] is not closed and whose context has
ended can take one step only, and that step returns the error of its context;
(3) while the read runs it can finish whatever the callers do: its step is
enabled, stores what [readArchive] computes and closes [done], and no step
of a caller or of a context stops the read or touches what it stores;
(4) once [done] is closed it stays closed, no further read is started and the
error stored by the read never changes; from then on a waiting caller returns
that stored error, and a caller that enters returns it too or, when the read
stored no error, the error that the resource reports at that moment. *)
Theorem openArchive_reads_once (s : state) :
  reachable s ->
  reads s <= 1
  /\ (forall i c e,
        callers s !! i = Some c -> pc c = Waiting -> ctxDone c = Some e ->
        doneClosed s = false ->
        exec s (SelectDone i) = None
        /\ exec s (SelectCtx i)
           = Some (setCaller s i (at_ c (Returned (Some (ctxErr e))))))
  /\ (reading s = true ->
      forall newResource newReader,
        exists s', exec s (ReadFinish newResource newReader) = Some s'
                   /\ doneClosed s' = true
                   /\ archive s' = readArchive (archive s) newResource newReader
                   /\ callers s' = callers s)
  /\ (forall ev s',
        ofCaller ev = true -> exec s ev = Some s' ->
        (reading s = true -> reading s' = true)
        /\ doneClosed s' = doneClosed s
        /\ err (archive s') = err (archive s)
        /\ files (archive s') = files (archive s))
  /\ (doneClosed s = true ->
      (forall trace s',
         run s trace = Some s' ->
         doneClosed s' = true /\ reads s' = reads s
         /\ err (archive s') = err (archive s))
      /\ (forall i c,
            callers s !! i = Some c -> pc c = Waiting ->
            exec s (SelectDone i)
            = Some (setCaller s i (at_ c (Returned (err (archive s))))))
      /\ (forall i c,
            callers s !! i = Some c -> pc c = Entered ->
            exists s', exec s (CheckStatus i) = Some s'
                       /\ callers s' !! i
                          = Some (at_ c (Returned (storedResult (archive s))))
                       /\ (err (archive s) <> None ->
                           storedResult (archive s) = err (archive s)))).
Proof.
  intros [trace0 Hrun0].
  pose proof (open_run_invariant trace0 _ _ open_invariant_init Hrun0) as Hinv.
  split; [|split; [|split; [|split]]].
  - destruct Hinv as [Hreads _ _]. rewrite Hreads. destruct (onceDone s); lia.
  - intros i c e Hi Hpc Hctx Hopen. simpl.
    rewrite Hi, Hpc, Hctx, Hopen. split; reflexivity.
  - intros Hreading nr nz. simpl. rewrite Hreading.
    eexists. split; [reflexivity|]. simpl. auto.
  - intros ev s' Hev Hexec. exact (exec_ofCaller s ev s' Hev Hexec).
  - intros Hclosed. split; [|split].
    + intros trace s' Hrun.
      destruct (run_after_done trace s s' Hinv Hclosed Hrun) as (H1 & H2 & H3 & _).
      auto.
    + intros i c Hi Hpc. simpl. rewrite Hi, Hpc, Hclosed. reflexivity.
    + intros i c Hi Hpc. simpl. rewrite Hi, Hpc.
      set (s1 := {| archive := setURL (archive s) (url c); onceDone := onceDone s;
                    reading := reading s; reads := reads s;
                    doneClosed := doneClosed s; callers := callers s |}).
      destruct (openStatus_done s1 Hclosed) as [Hsnd Hfst].
      destruct (setURL_stored (archive s) (url c)) as (_ & Hstored & _).
      simpl in Hsnd. rewrite Hstored in Hsnd.
      assert (Hlt : i < length (callers s)) by (eapply lookup_lt_Some, Hi).
      destruct (openStatus s1) as [status e] eqn:Hstatus. simpl in Hsnd, Hfst.
      subst e.
      exists (setCaller s1 i (at_ c (Returned (storedResult (archive s))))).
      split; [destruct status; try reflexivity; contradiction|].
      split.
      * simpl. apply list_lookup_insert_eq. exact Hlt.
      * unfold storedResult. destruct (err (archive s)); [reflexivity | contradiction].
Qed.

(** Two callers of a cold archive: the first starts the read, the second's
context is cancelled while it waits and it returns at once; the read then
finishes, and a third caller gets its result. *)
Lemma openArchive_reads_once_witness :
  exists s,
    run init
        [Call "http://store/public.zip?sig=1"; CheckStatus 0; OnceDo 0;
         Call "http://store/public.zip?sig=2"; CheckStatus 1; OnceDo 1;
         CtxDone 1 Canceled; SelectCtx 1;
         ReadFinish (inl goodResource) goodReader; SelectDone 0;
         Call "http://store/public.zip?sig=3"; CheckStatus 2] = Some s
    /\ reads s <= 1
    /\ pc <$> callers s
       = [Returned None; Returned (Some "context canceled"); Returned None].
Proof.
  eexists. split; [vm_compute; reflexivity|]. split.
  - refine (proj1 (openArchive_reads_once _ _)).
    exists [Call "http://store/public.zip?sig=1"; CheckStatus 0; OnceDo 0;
            Call "http://store/public.zip?sig=2"; CheckStatus 1; OnceDo 1;
            CtxDone 1 Canceled; SelectCtx 1;
            ReadFinish (inl goodResource) goodReader; SelectDone 0;
            Call "http://store/public.zip?sig=3"; CheckStatus 2].
    vm_compute. reflexivity.
  - reflexivity.
Defined.

(** C2, as stated, fails on the code: the read succeeds and its first caller
returns no error; the resource then fails, and the caller that comes later
is returned the error of the resource, not the result of the read. *)
Lemma later_caller_sees_failed_resource :
  exists s,
    run init
        [Call "http://store/public.zip?sig=1"; CheckStatus 0; OnceDo 0;
         ReadFinish (inl goodResource) goodReader; SelectDone 0;
         ResourceFails "httprange: range request returned invalid content";
         Call "http://store/public.zip?sig=2"; CheckStatus 1] = Some s
    /\ err (archive s) = None
    /\ pc <$> callers s
       = [Returned None;
          Returned (Some "httprange: range request returned invalid content")].
Proof. eexists. split; [vm_compute; reflexivity|]. split; reflexivity. Qed.

(** *** What a nil return means *)

Lemma nilMeansRead_ext s s' :
  doneClosed s' = doneClosed s -> err (archive s') = err (archive s) ->
  callers s' = callers s ->
  nilMeansRead s -> nilMeansRead s'.
Proof.
  intros Hd He Hc Hnil i c Hi Hpc. rewrite Hd, He. rewrite Hc in Hi.
  exact (Hnil i c Hi Hpc).
Qed.

Lemma nilMeansRead_setCaller s i c' :
  nilMeansRead s ->
  (pc c' = Returned None -> doneClosed s = true /\ err (archive s) = None) ->
  nilMeansRead (setCaller s i c').
Proof.
  intros Hnil Hnew j c Hj Hpc. simpl in *.
  apply list_lookup_insert_Some in Hj as [(-> & <- & _)|(_ & Hj)].
  - exact (Hnew Hpc).
  - exact (Hnil j c Hj Hpc).
Qed.

Lemma nilMeansRead_exec s ev s' :
  invariant s -> nilMeansRead s -> exec s ev = Some s' -> nilMeansRead s'.
Proof.
  intros [Hreads Hreading Hdone] Hnil Hexec.
  destruct ev as [u|i e|i|i|i|i|nr nz|e]; simpl in Hexec.
  - injection Hexec as <-. intros j c Hj Hpc. simpl in *.
    apply lookup_app_Some in Hj as [Hj|[_ Hj]].
    + exact (Hnil j c Hj Hpc).
    + apply list_lookup_singleton_Some in Hj as [_ <-]. discriminate.
  - destruct (callers s !! i) as [c|] eqn:Hi; [|discriminate].
    destruct (ctxDone c); [discriminate|].
    injection Hexec as <-. apply nilMeansRead_setCaller; [exact Hnil|].
    simpl. intros Hpc. exact (Hnil i c Hi Hpc).
  - destruct (callers s !! i) as [c|] eqn:Hi; [|discriminate].
    destruct (pc c); try discriminate.
    destruct (setURL_stored (archive s) (url c)) as (Herr & _).
    match type of Hexec with
    | context [openStatus ?s1] =>
        assert (Hnil1 : nilMeansRead s1)
          by (apply (nilMeansRead_ext s); [reflexivity | exact Herr | reflexivity
                                          | exact Hnil]);
        assert (Hst : fst (openStatus s1) <> archiveOpening ->
                      snd (openStatus s1) = None ->
                      doneClosed s1 = true /\ err (archive s1) = None);
        [|destruct (openStatus s1) as [st e0]; simpl in Hst]
    end.
    { unfold openStatus. simpl. destruct (doneClosed s); [|contradiction].
      intros _. destruct (err (setURL (archive s) (url c))); [discriminate|]. auto. }
    destruct st; injection Hexec as <-;
      (apply nilMeansRead_setCaller; [exact Hnil1|]); simpl;
      try discriminate; intros [= ->]; apply Hst; (discriminate || reflexivity).
  - destruct (callers s !! i) as [c|] eqn:Hi; [|discriminate].
    destruct (pc c); try discriminate.
    destruct (onceDone s); injection Hexec as <-.
    + apply nilMeansRead_setCaller; [exact Hnil | discriminate].
    + apply nilMeansRead_setCaller; [|discriminate].
      apply (nilMeansRead_ext s); auto.
  - destruct (callers s !! i) as [c|] eqn:Hi; [|discriminate].
    destruct (pc c); try discriminate.
    destruct (doneClosed s) eqn:Hd; [|discriminate].
    injection Hexec as <-. apply nilMeansRead_setCaller; [exact Hnil|].
    simpl. intros [= ->]. auto.
  - destruct (callers s !! i) as [c|] eqn:Hi; [|discriminate].
    destruct (pc c); try discriminate.
    destruct (ctxDone c); [|discriminate].
    injection Hexec as <-. apply nilMeansRead_setCaller; [exact Hnil | discriminate].
  - destruct (reading s) eqn:Hr; [|discriminate].
    injection Hexec as <-. intros j c Hj Hpc. simpl in *.
    destruct (Hnil j c Hj Hpc) as [Hd _].
    rewrite Hd, andb_false_r in Hreading. discriminate.
  - injection Hexec as <-. apply (nilMeansRead_ext s); auto.
    simpl. apply failResource_err.
Qed.

Lemma nilMeansRead_run trace : forall s s',
  invariant s -> nilMeansRead s -> run s trace = Some s' -> nilMeansRead s'.
Proof.
  induction trace as [|ev rest IH]; intros s s' Hinv Hnil Hrun; simpl in Hrun.
  - injection Hrun as <-. exact Hnil.
  - destruct (exec s ev) as [s1|] eqn:Hexec; [|discriminate].
    exact (IH s1 s' (open_exec_invariant s ev s1 Hinv Hexec)
              (nilMeansRead_exec s ev s1 Hinv Hnil Hexec) Hrun).
Qed.

(** [openArchive] returns nil only on an archive that has been read: when a
caller was returned no error, in whatever interleaving, the one read has
been started and has finished ([done] is closed), it stored no error, and
this stays so whatever happens afterwards. *)
Theorem nil_return_means_archive_read (s : state) (i : nat) (c : caller) :
  reachable s ->
  callers s !! i = Some c ->
  pc c = Returned None ->
  doneClosed s = true
  /\ reads s = 1
  /\ reading s = false
  /\ err (archive s) = None
  /\ forall trace s',
       run s trace = Some s' ->
       doneClosed s' = true /\ reads s' = 1 /\ err (archive s') = None
       /\ files (archive s') = files (archive s)
       /\ directories (archive s') = directories (archive s).
Proof.
  intros [trace0 Hrun0] Hi Hpc.
  pose proof (open_run_invariant trace0 _ _ open_invariant_init Hrun0) as Hinv.
  assert (Hnil0 : nilMeansRead init)
    by (intros j c0 Hj; simpl in Hj; rewrite lookup_nil in Hj; discriminate).
  destruct (nilMeansRead_run trace0 _ _ open_invariant_init Hnil0 Hrun0 i c Hi Hpc)
    as [Hd He].
  pose proof Hinv as [Hreads Hreading Hdone].
  assert (Hone : reads s = 1) by (rewrite Hreads, (Hdone Hd); reflexivity).
  split; [exact Hd|]. split; [exact Hone|].
  split; [rewrite Hreading, Hd; apply andb_false_r|].
  split; [exact He|].
  intros trace s' Hrun.
  destruct (run_after_done trace s s' Hinv Hd Hrun) as (H1 & H2 & H3 & H4 & H5).
  repeat split; congruence.
Qed.

(** A caller starts the read and waits for it; the read finishes and the
caller is returned nil. *)
Lemma nil_return_means_archive_read_witness :
  exists s,
    run init
        [Call "http://store/public.zip?sig=1"; CheckStatus 0; OnceDo 0;
         ReadFinish (inl goodResource) goodReader; SelectDone 0] = Some s
    /\ doneClosed s = true
    /\ reads s = 1
    /\ err (archive s) = None.
Proof.
  eexists. split; [vm_compute; reflexivity|].
  match goal with
  | |- doneClosed ?s = true /\ _ =>
      destruct (nil_return_means_archive_read s 0
                  {| url := "http://store/public.zip?sig=1"; ctxDone := None;
                     pc := Returned None |})
        as (H1 & H2 & _ & H4 & _)
  end.
  - exists [Call "http://store/public.zip?sig=1"; CheckStatus 0; OnceDo 0;
            ReadFinish (inl goodResource) goodReader; SelectDone 0].
    vm_compute. reflexivity.
  - reflexivity.
  - reflexivity.
  - auto.
Defined.

End ZipOpenFacts.

(** ** app.go *)

Module AppFacts.
Import GoStrings Http App.

Section WithExternals.
Context {ext : Externals}.

Lemma tryAuxiliaryHandlers_status a w r https host domain :
  RequestURI r = StatusPath (config a) ->
  tryAuxiliaryHandlers a w r https host domain = (true, healthCheck a w).
Proof.
  intros Huri. unfold tryAuxiliaryHandlers.
  rewrite Huri, String.eqb_refl. reflexivity.
Qed.

(** C7, as the code has it.  For every request whose request URI (the
request target as it was sent, query string included) equals the configured
status path, the server answers 200 with the body [success] if the domain map
has been set and 503 with [not yet ready] otherwise; the answer is the health
check's alone, whatever host and domain the lookup produced, and the domain's
handler is not called. *)
Theorem status_path_short_circuit (a : theApp) (r : Request) (https : bool) :
  RequestURI r = StatusPath (config a) ->
  serveContent a r https = healthCheck a []
  /\ recorded (serveContent a r https)
     = Some (if isReady a then (200%Z, "success")
             else (503%Z, "not yet ready" ++ String (ascii_of_nat 10) ""))
  /\ forall w host domain,
      tryAuxiliaryHandlers a w r https host domain = (true, healthCheck a w).
Proof.
  intros Huri.
  assert (Hserve : serveContent a r https = healthCheck a []).
  { unfold serveContent. destruct (getHostAndDomain a r) as [host domain].
    rewrite (tryAuxiliaryHandlers_status a [] r https host domain Huri).
    reflexivity. }
  split; [exact Hserve|]. split.
  - rewrite Hserve. unfold healthCheck. destruct (isReady a); reflexivity.
  - intros w host domain. apply tryAuxiliaryHandlers_status. exact Huri.
Qed.

Lemma ensureCertificate_error d e :
  snd (fst (ensureCertificate d)) = Some e ->
  fst (fst (ensureCertificate d)) = None.
Proof.
  unfold ensureCertificate.
  destruct (Config d) as [cfg|]; [|reflexivity].
  destruct (certificate d); [discriminate|].
  destruct (X509KeyPair _ _); [discriminate | reflexivity].
Qed.

(** C10.  [ServeTLS] never returns an error: without a server name and for a
host that the domain map does not hold it returns (nil, nil); for a known
domain it returns what [ensureCertificate] assembled and drops its error, so
a failed assembly yields (nil, nil) as well. *)
Theorem ServeTLS_returns_no_error (a : theApp) (ch : ClientHelloInfo) :
  snd (fst (ServeTLS a ch)) = None
  /\ (ServerName ch = "" -> fst (ServeTLS a ch) = (None, None))
  /\ (domainOf a (ServerName ch) = None -> fst (ServeTLS a ch) = (None, None))
  /\ (forall d e,
        ServerName ch <> "" ->
        domainOf a (ServerName ch) = Some d ->
        snd (fst (ensureCertificate d)) = Some e ->
        fst (ServeTLS a ch) = (None, None)).
Proof.
  unfold ServeTLS.
  destruct (String.eqb_spec (ServerName ch) "") as [Hempty|Hname].
  - repeat split; intros; try reflexivity; contradiction.
  - destruct (domainOf a (ServerName ch)) as [d|] eqn:Hdom.
    + pose proof (ensureCertificate_error d) as Herr.
      destruct (ensureCertificate d) as [[tls e'] d'] eqn:Hens. simpl in *.
      split; [reflexivity|]. split; [intros; contradiction|].
      split; [discriminate|].
      intros d0 e _ [= <-] He. rewrite Hens in He. simpl in He.
      rewrite (Herr e He). reflexivity.
    + repeat split; intros; try reflexivity; discriminate.
Qed.

End WithExternals.

(** The health check on an application with and without a domain map. *)
Lemma status_path_short_circuit_witness :
  recorded (serveContent readyApp statusRequest false) = Some (200%Z, "success")
  /\ recorded (serveContent coldApp statusRequest false)
     = Some (503%Z, "not yet ready" ++ String (ascii_of_nat 10) "").
Proof.
  split.
  - exact (proj1 (proj2 (status_path_short_circuit readyApp statusRequest false eq_refl))).
  - exact (proj1 (proj2 (status_path_short_circuit coldApp statusRequest false eq_refl))).
Defined.

(** C7, as stated, fails on the code: the request [GET /-/healthy?probe=1]
has the status path as its URL path, the domain map is set, and the server
answers with the 404 page of an unknown domain. *)
Lemma status_path_with_query_not_short_circuited :
  URL_Path statusRequestWithQuery = StatusPath (config readyApp)
  /\ isReady readyApp = true
  /\ serveContent readyApp statusRequestWithQuery false = [ServeError 404].
Proof. repeat split. Qed.

(** A handshake for a domain whose key pair does not assemble: the assembly
error is dropped. *)
Lemma ServeTLS_returns_no_error_witness :
  snd (fst (ensureCertificate brokenDomain))
  = Some "tls: failed to find any PEM data in certificate input"
  /\ fst (ServeTLS brokenApp {| ServerName := "broken.test" |}) = (None, None).
Proof.
  split; [reflexivity|].
  refine (proj2 (proj2 (proj2 (ServeTLS_returns_no_error brokenApp
            {| ServerName := "broken.test" |})))
          brokenDomain _ _ _ eq_refl).
  - discriminate.
  - vm_compute. reflexivity.
Defined.

(** *** Further properties of the source *)

Section Routing.
Context {ext : Externals}.

(** The domain's handler runs only after every check of
[tryAuxiliaryHandlers] has passed.  When [tryAuxiliaryHandlers] declines a
request, nothing has been written to the response, the request URI is not
the status path, the artifact proxy did not take the request, the domain map
has been set and the domain is not nil; and a request in clear text is
declined only when redirection to HTTPS is off and the domain is not HTTPS
only. *)
Theorem domain_handler_runs_after_all_checks
    (a : theApp) (w w' : list action) (r : Request) (https : bool)
    (host : string) (domain : option domain) :
  tryAuxiliaryHandlers a w r https host domain = (false, w') ->
  w' = w
  /\ RequestURI r <> StatusPath (config a)
  /\ (https = false ->
      RedirectHTTP (config a) = false /\ IsHTTPSOnly host r = false)
  /\ TryMakeRequest host r = None
  /\ isReady a = true
  /\ is_Some domain.
Proof.
  unfold tryAuxiliaryHandlers.
  destruct (String.eqb_spec (RequestURI r) (StatusPath (config a))) as [|Huri];
    [discriminate|].
  destruct (negb https && RedirectHTTP (config a)) eqn:Hredirect; [discriminate|].
  destruct (TryMakeRequest host r) as [calls|]; [discriminate|].
  destruct (isReady a); simpl; [|discriminate].
  destruct domain as [d|]; [|discriminate].
  destruct (negb https && IsHTTPSOnly host r) eqn:Honly; [discriminate|].
  intros [= <-].
  split; [reflexivity|]. split; [exact Huri|]. split; [|eauto].
  intros ->. simpl in Hredirect, Honly. auto.
Qed.

(** [ServeTLS] assembles the certificate of a domain once: when it returned
a certificate, the domain of the application it leaves holds that
certificate, and the next handshake for the same server name returns the
same certificate and leaves the application as it is. *)
Theorem ServeTLS_caches_certificate
    (a a' : theApp) (ch : ClientHelloInfo) (tls : TLSCertificate) :
  ServeTLS a ch = ((Some tls, None), a') ->
  (exists d, domainOf a' (ServerName ch) = Some d /\ certificate d = Some tls)
  /\ ServeTLS a' ch = ((Some tls, None), a').
Proof.
  unfold ServeTLS.
  destruct (String.eqb (ServerName ch) "") eqn:Hname; [discriminate|].
  unfold domainOf.
  destruct (dm a) as [m|] eqn:Hdm; [|discriminate].
  destruct (m !! ToLower (ServerName ch)) as [d|] eqn:Hd; [|discriminate].
  assert (Hens : forall d', ensureCertificate d = ((Some tls, None), d') ->
                   certificate d' = Some tls
                   /\ ensureCertificate d' = ((Some tls, None), d')).
  { unfold ensureCertificate. intros d'.
    destruct (Config d) as [cfg|] eqn:Hcfg; [|discriminate].
    destruct (certificate d) as [cert|] eqn:Hcert.
    - intros H. injection H as H1 H2. subst cert d'.
      destruct d as [g p c ce]. simpl in *. subst c ce. auto.
    - destruct (X509KeyPair (Certificate cfg) (Key cfg)) as [pair|e];
        [|discriminate].
      intros H. injection H as H1 H2. subst pair d'.
      destruct d as [g p c ce]. simpl in *. subst c ce. auto. }
  destruct (ensureCertificate d) as [[tls0 e0] d'] eqn:Hd'.
  intros [= -> <-]. simpl.
  assert (He0 : e0 = None).
  { unfold ensureCertificate in Hd'.
    destruct (Config d); [|discriminate].
    destruct (certificate d); [congruence|].
    destruct (X509KeyPair _ _); congruence. }
  subst e0. destruct (Hens d' eq_refl) as [Hcert Hagain].
  rewrite lookup_insert_eq. split; [eauto|].
  rewrite Hagain, insert_insert_eq. reflexivity.
Qed.

End Routing.

(** A request in clear text for a page of a known domain is declined by the
auxiliary handlers and goes to the domain. *)
Lemma domain_handler_runs_after_all_checks_witness :
  tryAuxiliaryHandlers securedApp [] pageRequest false "secure.test"
    (Some securedDomain) = (false, [])
  /\ isReady securedApp = true.
Proof.
  split; [reflexivity|].
  apply (domain_handler_runs_after_all_checks securedApp [] [] pageRequest false
           "secure.test" (Some securedDomain)).
  reflexivity.
Defined.

(** The first handshake for [secure.test] assembles the pair; the second
finds it. *)
Lemma ServeTLS_caches_certificate_witness :
  fst (ServeTLS securedApp {| ServerName := "secure.test" |})
  = (Some "certificate+key", None)
  /\ ServeTLS (snd (ServeTLS securedApp {| ServerName := "secure.test" |}))
       {| ServerName := "secure.test" |}
     = ((Some "certificate+key", None),
        snd (ServeTLS securedApp {| ServerName := "secure.test" |})).
Proof.
  split; [reflexivity|].
  apply (ServeTLS_caches_certificate securedApp
           (snd (ServeTLS securedApp {| ServerName := "secure.test" |}))
           {| ServerName := "secure.test" |} "certificate+key").
  reflexivity.
Defined.

End AppFacts.

(** ** The domain of package [main] *)

Module DomainFacts.
Import GoStrings Http App Domain.

Section WithExternals.
Context {ext : Externals} {fs : FileSystem}.

Lemma tryFile_cases d w r projectName subPath :
  (tryFile d w r projectName subPath = (false, w))
  \/ (exists servedPath mode,
        tryFile d w r projectName subPath
        = (true, (w ++ [Handled "http.ServeContent" servedPath])%list)
        /\ HasPrefix (fullPathOf d projectName subPath) (publicPathOf d projectName)
           = true
        /\ osLstat servedPath = inl mode
        /\ Zip.IsRegular mode = true
        /\ (exists file, osOpen servedPath = inl file /\ StatErr file = None)
        /\ (servedPath = fullPathOf d projectName subPath
            \/ (exists dirMode,
                  osLstat (fullPathOf d projectName subPath) = inl dirMode
                  /\ Zip.IsDir dirMode = true
                  /\ servedPath
                     = GoFilepath.Join [fullPathOf d projectName subPath;
                                        "index.html"]))).
Proof.
  unfold tryFile.
  destruct (HasPrefix (fullPathOf d projectName subPath) (publicPathOf d projectName))
    eqn:Hprefix; simpl; [|auto].
  destruct (osLstat (fullPathOf d projectName subPath)) as [fi|e] eqn:Hstat; [|auto].
  destruct (Zip.IsDir fi) eqn:Hdir.
  - destruct (osLstat (GoFilepath.Join [fullPathOf d projectName subPath; "index.html"]))
      as [fi'|e] eqn:Hstat'; [|auto].
    destruct (Zip.IsRegular fi') eqn:Hreg; simpl; [|auto].
    destruct (osOpen _) as [file|e] eqn:Hopen; [|auto].
    destruct (StatErr file) eqn:Hfstat; [auto|].
    right. eexists. exists fi'. split; [reflexivity|].
    repeat split; eauto 8.
  - destruct (Zip.IsRegular fi) eqn:Hreg; simpl; [|auto].
    destruct (osOpen _) as [file|e] eqn:Hopen; [|auto].
    destruct (StatErr file) eqn:Hfstat; [auto|].
    right. eexists. exists fi. split; [reflexivity|].
    repeat split; eauto 8.
Qed.

(** [tryFile] serves a file only after its checks.  When it returns true it
has made one call on the response, [http.ServeContent] with the file it
opened; the path built from the sub-path, cleaned, starts with the bytes of
the public path of the project; the file served is at that path, or at its
[index.html] when that path is a directory; and [os.Lstat] says that the
file served is regular.  When it returns false it has written nothing. *)
Theorem tryFile_serves_after_checks
    (d : domain) (w w' : list action) (r : Request)
    (projectName subPath : string) (served : bool) :
  tryFile d w r projectName subPath = (served, w') ->
  if served then
    exists servedPath mode,
      w' = (w ++ [Handled "http.ServeContent" servedPath])%list
      /\ HasPrefix (fullPathOf d projectName subPath) (publicPathOf d projectName)
         = true
      /\ osLstat servedPath = inl mode
      /\ Zip.IsRegular mode = true
      /\ Zip.IsDir mode = false
      /\ (servedPath = fullPathOf d projectName subPath
          \/ (exists dirMode,
                osLstat (fullPathOf d projectName subPath) = inl dirMode
                /\ Zip.IsDir dirMode = true
                /\ servedPath
                   = GoFilepath.Join [fullPathOf d projectName subPath; "index.html"]))
  else w' = w.
Proof.
  intros H.
  destruct (tryFile_cases d w r projectName subPath)
    as [Hno|(servedPath & mode & Hyes & Hprefix & Hstat & Hreg & _ & Hwhich)].
  - rewrite Hno in H. injection H as <- <-. reflexivity.
  - rewrite Hyes in H. injection H as <- <-.
    exists servedPath, mode. repeat split; auto.
    unfold Zip.IsRegular in Hreg. unfold Zip.IsDir.
    apply Z.eqb_eq in Hreg.
    replace Zip.ModeDir with (Z.land Zip.ModeType Zip.ModeDir) by reflexivity.
    rewrite Z.land_assoc, Hreg. reflexivity.
Qed.

(** The domain answers every request exactly once: [ServeHTTP] makes one
call on the response, which is [http.ServeContent] with a regular file, or
the not-found page of [http.NotFound]. *)
Theorem domain_ServeHTTP_answers_once
    (d : domain) (w : list action) (r : Request) :
  ServeHTTP d w r = notFound w
  \/ exists servedPath mode,
       ServeHTTP d w r = (w ++ [Handled "http.ServeContent" servedPath])%list
       /\ osLstat servedPath = inl mode
       /\ Zip.IsRegular mode = true.
Proof.
  assert (Htry : forall projectName subPath,
            tryFile d w r projectName subPath = (false, w)
            \/ exists servedPath mode,
                 tryFile d w r projectName subPath
                 = (true, (w ++ [Handled "http.ServeContent" servedPath])%list)
                 /\ osLstat servedPath = inl mode
                 /\ Zip.IsRegular mode = true).
  { intros projectName subPath.
    destruct (tryFile_cases d w r projectName subPath)
      as [Hno|(servedPath & mode & Hyes & _ & Hstat & Hreg & _)]; eauto 6. }
  assert (Hconfig : forall projectName subPath,
            match tryFile d w r projectName subPath with
            | (true, w') => w'
            | (false, w') => notFound w'
            end = notFound w
            \/ exists servedPath mode,
                 match tryFile d w r projectName subPath with
                 | (true, w') => w'
                 | (false, w') => notFound w'
                 end = (w ++ [Handled "http.ServeContent" servedPath])%list
                 /\ osLstat servedPath = inl mode
                 /\ Zip.IsRegular mode = true).
  { intros projectName subPath.
    destruct (Htry projectName subPath) as [->|(p & m & -> & H)]; eauto 6. }
  unfold ServeHTTP. destruct (Config d).
  - unfold serveFromConfig. apply Hconfig.
  - unfold serveFromGroup.
    destruct (SplitN3 (URL_Path r)) as [|first [|project rest]];
      try apply Hconfig.
    destruct (Htry project match rest with sub :: _ => sub | [] => "" end)
      as [->|(p & m & -> & H)]; [apply Hconfig | eauto 6].
Qed.

End WithExternals.

(** The root of the project is a directory: its [index.html] is served. *)
Lemma tryFile_serves_after_checks_witness :
  exists servedPath mode,
    [Handled "http.ServeContent" "/srv/pages/group/project/public/index.html"]
    = ([] ++ [Handled "http.ServeContent" servedPath])%list
    /\ osLstat (FileSystem := plainTree) servedPath = inl mode
    /\ Zip.IsRegular mode = true.
Proof.
  destruct (tryFile_serves_after_checks (ext := plainExternals) (fs := plainTree)
              groupDomain []
              [Handled "http.ServeContent" "/srv/pages/group/project/public/index.html"]
              (projectRequest "/project/") "project" "" true
              ltac:(vm_compute; reflexivity))
    as (servedPath & mode & Hw & _ & Hstat & Hreg & _).
  exists servedPath, mode. auto.
Defined.

(** The check of [tryFile] compares bytes: a sub-path that climbs out of
[public] into the directory [public-old] beside it passes. *)
Example tryFile_sibling_directory :
  ServeHTTP (ext := plainExternals) (fs := plainTree) groupDomain []
    (projectRequest "/project/../public-old/secret.txt")
  = [Handled "http.ServeContent" "/srv/pages/group/project/public-old/secret.txt"].
Proof. vm_compute. reflexivity. Qed.

End DomainFacts.

(** ** The archive that keeps the files under [public/] *)

Module OldZipFacts.
Import GoStrings Http OldZip.

Lemma processLoop_nil_map archive :
  (processLoop archive None = Some None
   /\ Forall (fun file => HasPrefix (Zip.FileName file) dirPrefix = false) archive)
  \/ (processLoop archive None = None
      /\ Exists (fun file => HasPrefix (Zip.FileName file) dirPrefix = true) archive).
Proof.
  induction archive as [|file rest IH]; simpl.
  - left. split; [reflexivity | constructor].
  - destruct (HasPrefix (Zip.FileName file) dirPrefix) eqn:Hprefix; simpl.
    + right. split; [reflexivity|]. apply Exists_cons_hd. exact Hprefix.
    + destruct IH as [[Hloop Hall]|[Hloop Hex]].
      * left. split; [exact Hloop|]. constructor; assumption.
      * right. split; [exact Hloop|]. apply Exists_cons_tl. exact Hex.
Qed.

(** An archive made by [newArchive] never serves a file, because [newArchive]
leaves the map of the files nil.  Opening it panics exactly when the ZIP was
read and holds a record whose name starts with [public/] (the first such
record is assigned to the nil map); otherwise the error of the read is
stored, the map stays nil, and [Lstat], [EvalSymlinks] and [Open] answer
not-exist for every name. *)
Theorem newArchive_never_serves
    (isHTTPArchive : string -> bool) (path : string)
    (opened : option (list Zip.File) * option error) :
  match openOnce (newArchive path) opened with
  | Panicked =>
      exists archive,
        fst opened = Some archive
        /\ Exists (fun file => HasPrefix (Zip.FileName file) dirPrefix = true) archive
  | Returned a =>
      files a = None
      /\ zipErr a = snd opened
      /\ match fst opened with
         | Some archive =>
             Forall (fun file => HasPrefix (Zip.FileName file) dirPrefix = false)
                    archive
         | None => True
         end
      /\ forall name,
           Lstat a name = inr Zip.ErrNotExist
           /\ EvalSymlinks a name = inr Zip.ErrNotExist
           /\ Open isHTTPArchive a name = OpenErr Zip.ErrNotExist
  end.
Proof.
  unfold openOnce, processZip. simpl.
  destruct opened as [[archive|] e]; simpl.
  - destruct (processLoop_nil_map archive) as [[-> Hall]|[-> Hex]].
    + repeat split; auto.
    + eauto.
  - repeat split; auto.
Qed.

End OldZipFacts.

(** ** The OAuth layer *)

Module AuthFacts.
Import GoStrings GoStringsFacts Http HttpFacts Auth.

(** *** Query values *)


Section WithExternals.
Context {ext : Externals}.


(** C9.  [RequireAuth] is the one exported method of [*Auth] without a nil
check: it goes straight to the session store of its receiver and panics on a
nil receiver, whatever the request.  The six other exported methods start
with the check and do on a nil receiver what the claim says:
[IsAuthSupported], [TryAuthenticate], [CheckAuthenticationWithoutProject] and
[CheckResponseForInvalidToken] return false, [GetTokenIfExists] returns the
empty token and no error, all without touching the response, and
[CheckAuthentication] serves the 500 page and returns true. *)
Theorem RequireAuth_lacks_nil_guard
    (r : Request) (domains : Source) (d : domain) (resp : ApiResponse)
    (w : list action) :
  RequireAuth None r w = Panicked
  /\ IsAuthSupported None = false
  /\ TryAuthenticate None r domains w = Returned false w
  /\ CheckAuthenticationWithoutProject None r d w = Returned false w
  /\ CheckResponseForInvalidToken None r resp w = Returned false w
  /\ GetTokenIfExists None r w = Returned ("", None) w
  /\ CheckAuthentication None r d w = Returned true (w ++ [ServeError 500])%list.
Proof. repeat split. Qed.

End WithExternals.

(** The authenticator of the tests is the one [New] builds. *)
Example New_testAuth :
  New (ext := plainExternals) "pages.gitlab-example.com" "something-very-secret"
      "id" "secret" "http://pages.gitlab-example.com/auth" "" "scope"
  = inl testAuth.
Proof. reflexivity. Qed.





(** *** Further properties of the source *)

Section Answers.
Context {ext : Externals}.

(** [domainAllowed] accepts a name without asking the source exactly when it
is the pages domain or when the name with a dot before it ends with the
bytes of the pages domain; any other name is accepted exactly when the
source returns a domain for it and no error.  The second test looks at
bytes, not at labels: every name that ends with the bytes of the pages
domain passes, whether or not a dot precedes them, and the source is not
asked. *)
Theorem domainAllowed_by_suffix_bytes
    (a' : Auth) (name : string) (domains : Source) :
  (domainAllowed a' name domains = true
   <-> name = pagesDomain a'
       \/ (exists front, "." ++ name = front ++ pagesDomain a')
       \/ (exists d, domains name = (Some d, None)))
  /\ (forall front,
        domainAllowed a' (front ++ pagesDomain a') (fun _ => (None, None)) = true).
Proof.
  assert (Hiff : forall n ds,
            domainAllowed a' n ds = true
            <-> n = pagesDomain a'
                \/ (exists front, "." ++ n = front ++ pagesDomain a')
                \/ (exists d, ds n = (Some d, None))).
  { intros n ds. unfold domainAllowed.
    destruct (String.eqb_spec n (pagesDomain a')) as [Heq|Hne]; simpl.
    - split; auto.
    - destruct (HasSuffix ("." ++ n) (pagesDomain a')) eqn:Hsuf.
      + apply HasSuffix_correct in Hsuf. split; auto.
      + assert (Hno : ~ exists front, "." ++ n = front ++ pagesDomain a').
        { intros H. apply HasSuffix_correct in H. congruence. }
        destruct (ds n) as [[d|] [e|]]; split;
          try discriminate; try reflexivity;
          try (intros [?|[?|[? ?]]]; try contradiction; discriminate).
        intros _. right. right. eauto. }
  split; [apply Hiff|].
  intros front. apply Hiff. right. left.
  exists (String "." front). reflexivity.
Qed.

(** *** Answered once *)

Lemma responses_snoc w act :
  responses (w ++ [act]) = responses w + (if isResponse act then 1 else 0).
Proof.
  induction w as [|x w IH]; simpl.
  - lia.
  - rewrite IH. lia.
Qed.

Lemma bind_Returned {A B} (m : M A) (k : A -> M B) w y w' :
  bind m k w = Returned y w' ->
  exists x w1, m w = Returned x w1 /\ k x w1 = Returned y w'.
Proof.
  unfold bind. destruct (m w) as [x w1|]; [eauto | discriminate].
Qed.

(** The scrutinee that blocks the reduction of a term. *)
Ltac head_scrutinee t :=
  match t with
  | match ?x with _ => _ end => head_scrutinee x
  | match ?x with _ => _ end => x
  | ?f _ => head_scrutinee f
  end.

(** Case analysis on whatever blocks the left-hand side of [H]. *)
Ltac split_head H :=
  match type of H with
  | ?lhs = _ => let x := head_scrutinee lhs in destruct x eqn:?
  end.

Ltac run_cases H :=
  repeat (split_head H; cbn beta iota in H);
  try discriminate H.

Lemma Save_responses s r w e w' :
  Save s r w = Returned e w' -> responses w' = responses w.
Proof.
  unfold Save, bind, call, ret. intros H. run_cases H.
  - injection H as <- <-. reflexivity.
  - injection H as <- <-. rewrite responses_snoc. simpl. lia.
Qed.

Lemma checkSession_responses a r w session e w' :
  checkSession a r w = Returned (session, e) w' ->
  responses w'
  = responses w + (match e with Some _ => 1 | None => 0 end)
  /\ (e = None ->
      w' = w
      /\ exists a', a = Some a'
           /\ snd (store a' r) = None
           /\ option_map Values_ session = option_map Values_ (fst (store a' r))).
Proof.
  unfold checkSession. intros H.
  apply bind_Returned in H as ([session0 e0] & w1 & Hget & H).
  unfold getSessionFromStore, receiver, ret in Hget.
  destruct a as [a'|]; [|discriminate].
  destruct (store a' r) as [stored err0] eqn:Hstore.
  injection Hget as <- <- <-.
  destruct err0 as [errsession|].
  - unfold deref in H. destruct stored as [s0|]; [|discriminate].
    apply bind_Returned in H as (errsave & w2 & Hsave & H).
    apply Save_responses in Hsave.
    unfold bind, call, ret in H.
    destruct errsave; injection H as <- <- <-;
      (split; [rewrite responses_snoc; simpl; lia | discriminate]).
  - unfold ret in H. injection H as <- <- <-.
    split; [lia|]. intros _. split; [reflexivity|].
    exists a'. rewrite Hstore. simpl. split; [reflexivity|]. split; [reflexivity|].
    destruct stored; reflexivity.
Qed.

Lemma EncryptAndSignCode_silent a domain code w x w' :
  EncryptAndSignCode a domain code w = Returned x w' -> w' = w.
Proof.
  unfold EncryptAndSignCode, receiver, ret. destruct a; [|discriminate].
  intros [= _ <-]. reflexivity.
Qed.

Lemma DecryptCode_silent a jwt domain w x w' :
  DecryptCode a jwt domain w = Returned x w' -> w' = w.
Proof.
  unfold DecryptCode, receiver, ret. destruct a; [|discriminate].
  intros [= _ <-]. reflexivity.
Qed.

Lemma fetchAccessToken_silent a code w x w' :
  fetchAccessToken a code w = Returned x w' -> w' = w.
Proof.
  unfold fetchAccessToken, receiver, ret. destruct a as [a'|]; [|discriminate].
  intros H. run_cases H; injection H as _ <-; reflexivity.
Qed.

Lemma validateState_silent r s w x w' :
  validateState r s w = Returned x w' -> w' = w.
Proof.
  unfold validateState, ret, panic. intros H.
  run_cases H; injection H as _ <-; reflexivity.
Qed.

Lemma handleProxyingAuth_responses a session r domains w b w' :
  handleProxyingAuth a session r domains w = Returned b w' ->
  responses w' = responses w + (if b then 1 else 0)
  /\ (b = false -> w' = w).
Proof.
  unfold handleProxyingAuth. intros H.
  destruct (shouldProxyAuthToGitlab r).
  - destruct (urlParseHost (Get (URL_Query r) "domain")) as [proxyHost|e].
    + unfold receiver in H. destruct a as [a'|]; [|discriminate].
      destruct (negb (domainAllowed a' _ domains)).
      * unfold bind, call, ret in H. injection H as <- <-.
        rewrite responses_snoc. simpl. split; [lia | discriminate].
      * unfold deref in H. destruct session as [s|]; [|discriminate].
        apply bind_Returned in H as (err & w1 & Hsave & H).
        apply Save_responses in Hsave.
        unfold bind, call, ret in H.
        destruct err; injection H as <- <-;
          rewrite responses_snoc; simpl; (split; [lia | discriminate]).
    + unfold bind, call, ret in H. injection H as <- <-.
      rewrite responses_snoc. simpl. split; [lia | discriminate].
  - unfold deref in H. destruct session as [s|]; [|discriminate].
    destruct (shouldProxyCallbackToCustomDomain s).
    + destruct (Values_ s !! "proxy_auth_domain") as [[proxyDomain|]|];
        try discriminate.
      apply bind_Returned in H as (err & w1 & Hsave & H).
      apply Save_responses in Hsave.
      destruct err.
      * unfold bind, call, ret in H. injection H as <- <-.
        rewrite responses_snoc. simpl. split; [lia | discriminate].
      * apply bind_Returned in H as (signed & w2 & Hsign & H).
        apply EncryptAndSignCode_silent in Hsign. subst w2.
        unfold bind, call, ret in H.
        destruct signed; injection H as <- <-;
          rewrite responses_snoc; simpl; (split; [lia | discriminate]).
    + unfold ret in H. injection H as <- <-. split; [lia | reflexivity].
Qed.

Lemma checkAuthenticationResponse_responses a session r w w' :
  checkAuthenticationResponse a session r w = Returned tt w' ->
  responses w' = responses w + 1.
Proof.
  unfold checkAuthenticationResponse, deref. intros H.
  destruct session as [s|]; [|discriminate].
  apply bind_Returned in H as (ok & w1 & Hok & H).
  apply validateState_silent in Hok. subst w1.
  destruct ok; simpl in H.
  - destruct (Values_ s !! "uri") as [[redirectURI|]|];
      try (unfold call in H; injection H as <-; rewrite responses_snoc; reflexivity).
    apply bind_Returned in H as (decrypted & w1 & Hdec & H).
    apply DecryptCode_silent in Hdec. subst w1.
    destruct decrypted as [code|e];
      [|unfold call in H; injection H as <-; rewrite responses_snoc; reflexivity].
    apply bind_Returned in H as (token & w1 & Htok & H).
    apply fetchAccessToken_silent in Htok. subst w1.
    destruct token as [tok|e];
      [|unfold call in H; injection H as <-; rewrite responses_snoc; reflexivity].
    apply bind_Returned in H as (err & w1 & Hsave & H).
    apply Save_responses in Hsave.
    destruct err; unfold call in H; injection H as <-;
      rewrite responses_snoc; simpl; lia.
  - unfold call in H. injection H as <-. rewrite responses_snoc. reflexivity.
Qed.

(** [TryAuthenticate] answers a request exactly when it reports it handled:
whenever it returns, it has given the response one answer (a page, an error
or a redirect) if it returns true and none if it returns false; and when it
returns false the response is as it found it, without a cookie either. *)
Theorem TryAuthenticate_answers_iff_handled
    (a : option Auth) (r : Request) (domains : Source)
    (w w' : list action) (handled : bool) :
  TryAuthenticate a r domains w = Returned handled w' ->
  responses w' = responses w + (if handled then 1 else 0)
  /\ (handled = false -> w' = w).
Proof.
  unfold TryAuthenticate. intros H.
  destruct a as [a'|];
    [|unfold ret in H; injection H as <- <-; split; [lia | reflexivity]].
  apply bind_Returned in H as ([session e] & w1 & Hsession & H).
  apply checkSession_responses in Hsession as [Hcount Hsame].
  destruct e as [e|].
  - unfold ret in H. injection H as <- <-. split; [lia | discriminate].
  - destruct (Hsame eq_refl) as [-> _].
    destruct (negb (URL_Path r =? callbackPath)%string).
    + unfold ret in H. injection H as <- <-. split; [lia | reflexivity].
    + apply bind_Returned in H as (proxied & w2 & Hproxy & H).
      apply handleProxyingAuth_responses in Hproxy as [Hp Hpsame].
      destruct proxied.
      * unfold ret in H. injection H as <- <-. split; [lia | discriminate].
      * rewrite (Hpsame eq_refl) in *.
        destruct (negb (Get (URL_Query r) "error" =? "")%string).
        -- unfold bind, call, ret in H. injection H as <- <-.
           rewrite responses_snoc. simpl. split; [lia | discriminate].
        -- destruct (verifyCodeAndStateGiven r).
           ++ apply bind_Returned in H as ([] & w3 & Hresp & H).
              apply checkAuthenticationResponse_responses in Hresp.
              unfold ret in H. injection H as <- <-. split; [lia | discriminate].
           ++ unfold ret in H. injection H as <- <-. split; [lia | reflexivity].
Qed.

(** *** Access *)

Lemma checkTokenExists_responses a session r w b w' :
  checkTokenExists a session r w = Returned b w' ->
  responses w' = responses w + (if b then 1 else 0)
  /\ (b = false ->
      w' = w /\ exists s, session = Some s /\ is_Some (Values_ s !! "access_token")).
Proof.
  unfold checkTokenExists, deref. intros H.
  destruct session as [s|]; [|discriminate].
  destruct (Values_ s !! "access_token") as [v|] eqn:Htoken.
  - unfold ret in H. injection H as <- <-. split; [lia|].
    intros _. split; [reflexivity|]. exists s. rewrite Htoken. eauto.
  - apply bind_Returned in H as (err & w1 & Hsave & H).
    apply Save_responses in Hsave.
    destruct err.
    + unfold bind, call, ret in H. injection H as <- <-.
      rewrite responses_snoc. simpl. split; [lia | discriminate].
    + apply bind_Returned in H as (address & w2 & Haddr & H).
      unfold getProxyAddress, receiver, ret in Haddr.
      destruct a; [|discriminate]. injection Haddr as _ <-.
      unfold bind, call, ret in H. injection H as <- <-.
      rewrite responses_snoc. simpl. split; [lia | discriminate].
Qed.

Lemma checkSessionIsValid_responses a r w session w' :
  checkSessionIsValid a r w = Returned session w' ->
  responses w'
  = responses w + (match session with None => 1 | Some _ => 0 end)
  /\ (forall s, session = Some s ->
        w' = w
        /\ exists a' s0,
             a = Some a' /\ store a' r = (Some s0, None)
             /\ Values_ s = Values_ s0
             /\ is_Some (Values_ s !! "access_token")).
Proof.
  unfold checkSessionIsValid. intros H.
  apply bind_Returned in H as ([session0 e] & w1 & Hsession & H).
  apply checkSession_responses in Hsession as [Hcount Hsame].
  destruct e as [e|].
  - unfold ret in H. injection H as <- <-. split; [lia | discriminate].
  - destruct (Hsame eq_refl) as (-> & a' & -> & Herr & Hvalues).
    apply bind_Returned in H as (redirected & w2 & Htoken & H).
    apply checkTokenExists_responses in Htoken as [Ht Htsame].
    destruct redirected; unfold ret in H; injection H as <- <-.
    + split; [lia | discriminate].
    + destruct (Htsame eq_refl) as (-> & s & -> & Hhas).
      split; [lia|]. intros s1 [= <-]. split; [reflexivity|].
      destruct (store a' r) as [[s0|] err0] eqn:Hstore; simpl in *;
        try discriminate.
      injection Hvalues as Hvalues. subst err0.
      exists a', s0. auto.
Qed.

Lemma destroySession_responses session r w w' :
  destroySession session r w = Returned tt w' ->
  responses w' = responses w + 1.
Proof.
  unfold destroySession, deref. intros H.
  destruct session as [s|]; [|discriminate].
  apply bind_Returned in H as (err & w1 & Hsave & H).
  apply Save_responses in Hsave.
  destruct err; unfold call in H; injection H as <-;
    rewrite responses_snoc; simpl; lia.
Qed.

Lemma checkResponseForInvalidToken_responses resp session r w b w' :
  checkResponseForInvalidToken_ resp session r w = Returned b w' ->
  responses w' = responses w + (if b then 1 else 0)
  /\ (b = false -> w' = w).
Proof.
  unfold checkResponseForInvalidToken_. intros H.
  destruct (StatusCode resp =? 401)%Z;
    [|unfold ret in H; injection H as <- <-; split; [lia | reflexivity]].
  destruct (decodeError (Body resp)) as [errResp|e];
    [|unfold ret in H; injection H as <- <-; split; [lia | reflexivity]].
  destruct (ErrorField errResp =? "invalid_token")%string;
    [|unfold ret in H; injection H as <- <-; split; [lia | reflexivity]].
  apply bind_Returned in H as ([] & w1 & Hdestroy & H).
  apply destroySession_responses in Hdestroy.
  unfold ret in H. injection H as <- <-. split; [lia | discriminate].
Qed.

Lemma checkAuthentication_responses a r d w b w' :
  checkAuthentication a r d w = Returned b w' ->
  responses w' = responses w + (if b then 1 else 0)
  /\ (b = false ->
      w' = w
      /\ exists a' s0 token resp,
           a = Some a' /\ store a' r = (Some s0, None)
           /\ Values_ s0 !! "access_token" = Some (VString token)
           /\ apiClient a'
                {| ApiMethod := "GET";
                   ApiURL := if (0 <? GetProjectID d r)%Z
                             then apiURLProject a' (GetProjectID d r)
                             else apiURLUser a';
                   ApiBody := "";
                   Authorization := Some ("Bearer " ++ token) |} = inl resp
           /\ StatusCode resp = 200%Z).
Proof.
  unfold checkAuthentication. intros H.
  apply bind_Returned in H as (session & w1 & Hvalid & H).
  apply checkSessionIsValid_responses in Hvalid as [Hcount Hsome].
  destruct session as [s|];
    [|unfold ret in H; injection H as <- <-; split; [lia | discriminate]].
  destruct (Hsome s eq_refl) as (-> & a' & s0 & -> & Hstore & Hvalues & Hhas).
  unfold receiver in H.
  destruct (NewRequest "GET" _) as [e|].
  { unfold bind, call, ret in H. injection H as <- <-.
    rewrite responses_snoc. simpl. split; [lia | discriminate]. }
  destruct (Values_ s !! "access_token") as [[token|]|] eqn:Htoken;
    try discriminate.
  destruct (apiClient a' _) as [resp|e] eqn:Hapi.
  - apply bind_Returned in H as (invalid & w2 & Hinvalid & H).
    apply checkResponseForInvalidToken_responses in Hinvalid as [Hi Hisame].
    destruct invalid.
    + unfold ret in H. injection H as <- <-. split; [lia | discriminate].
    + rewrite (Hisame eq_refl) in *.
      destruct (StatusCode resp =? 200)%Z eqn:Hstatus; simpl in H.
      * unfold ret in H. injection H as <- <-. split; [lia|].
        intros _. split; [reflexivity|].
        exists a', s0, token, resp. rewrite <- Hvalues.
        apply Z.eqb_eq in Hstatus. auto 8.
      * unfold bind, call, ret in H. injection H as <- <-.
        rewrite responses_snoc. simpl. split; [lia | discriminate].
  - unfold bind, call, ret in H. injection H as <- <-.
    rewrite responses_snoc. simpl. split; [lia | discriminate].
Qed.

(** [CheckAuthentication] lets a request through only on a 200 of the API.
When it returns false it has written nothing to the response, the session
of the store holds an access token, and the API answered 200 to a GET that
bears that token, on the pages-access URL of the project when the domain
gives a positive project id and on the user URL otherwise. *)
Theorem access_granted_only_on_200
    (a : option Auth) (r : Request) (d : domain) (w w' : list action) :
  CheckAuthentication a r d w = Returned false w' ->
  w' = w
  /\ exists a' s0 token resp,
       a = Some a' /\ store a' r = (Some s0, None)
       /\ Values_ s0 !! "access_token" = Some (VString token)
       /\ apiClient a'
            {| ApiMethod := "GET";
               ApiURL := if (0 <? GetProjectID d r)%Z
                         then apiURLProject a' (GetProjectID d r)
                         else apiURLUser a';
               ApiBody := "";
               Authorization := Some ("Bearer " ++ token) |} = inl resp
       /\ StatusCode resp = 200%Z.
Proof.
  unfold CheckAuthentication. destruct a as [a'|].
  - intros H. apply checkAuthentication_responses in H as [_ H]. exact (H eq_refl).
  - unfold bind, call, ret. discriminate.
Qed.

(** The checks answer a request exactly when they report it handled.
Whenever [CheckAuthentication], [CheckAuthenticationWithoutProject],
[RequireAuth] or [CheckResponseForInvalidToken] returns, it has given the
response one answer if it returns true and none if it returns false; and
[GetTokenIfExists] has given one answer if it returns an error and none
otherwise. *)
Theorem checks_answer_iff_handled
    (a : option Auth) (r : Request) (d : domain) (resp : ApiResponse)
    (w w' : list action) :
  (forall b, CheckAuthentication a r d w = Returned b w' ->
     responses w' = responses w + (if b then 1 else 0))
  /\ (forall b, CheckAuthenticationWithoutProject a r d w = Returned b w' ->
        responses w' = responses w + (if b then 1 else 0))
  /\ (forall b, RequireAuth a r w = Returned b w' ->
        responses w' = responses w + (if b then 1 else 0))
  /\ (forall b, CheckResponseForInvalidToken a r resp w = Returned b w' ->
        responses w' = responses w + (if b then 1 else 0))
  /\ (forall token e, GetTokenIfExists a r w = Returned (token, e) w' ->
        responses w'
        = responses w + (match e with Some _ => 1 | None => 0 end)).
Proof.
  split; [|split; [|split; [|split]]].
  - intros b. unfold CheckAuthentication. destruct a as [a'|].
    + intros H. apply checkAuthentication_responses in H as [H _]. exact H.
    + unfold bind, call, ret. intros [= <- <-]. rewrite responses_snoc. reflexivity.
  - intros b. unfold CheckAuthenticationWithoutProject. destruct a as [a'|].
    + intros H. apply checkAuthentication_responses in H as [H _]. exact H.
    + unfold ret. intros [= <- <-]. lia.
  - intros b. unfold RequireAuth. intros H.
    apply bind_Returned in H as (session & w1 & Hvalid & H).
    apply checkSessionIsValid_responses in Hvalid as [Hcount _].
    unfold ret in H. injection H as <- <-. destruct session; exact Hcount.
  - intros b. unfold CheckResponseForInvalidToken. destruct a as [a'|];
      [|unfold ret; intros [= <- <-]; lia].
    intros H. apply bind_Returned in H as ([session e] & w1 & Hsession & H).
    apply checkSession_responses in Hsession as [Hcount Hsame].
    destruct e as [e|]; [unfold ret in H; injection H as <- <-; lia|].
    destruct (Hsame eq_refl) as [-> _].
    apply bind_Returned in H as (invalid & w2 & Hinvalid & H).
    apply checkResponseForInvalidToken_responses in Hinvalid as [Hi _].
    destruct invalid; unfold ret in H; injection H as <- <-; lia.
  - intros token e. unfold GetTokenIfExists. destruct a as [a'|];
      [|unfold ret; intros [= <- <- <-]; lia].
    intros H. apply bind_Returned in H as ([session e0] & w1 & Hsession & H).
    apply checkSession_responses in Hsession as [Hcount Hsame].
    destruct e0 as [e0|]; [unfold ret in H; injection H as <- <- <-; lia|].
    destruct (Hsame eq_refl) as [-> _].
    unfold deref in H. destruct session as [s|]; [|discriminate].
    destruct (Values_ s !! "access_token") as [[t|]|]; try discriminate;
      unfold ret in H; injection H as <- <- <-; lia.
Qed.

(** *** The login state *)

(** The state of the login redirect is the state the callback is checked
against.  For a session without access token that can be saved,
[checkTokenExists] saves the session with a fresh state and the address
asked for, without proxying domain, and redirects to the pages domain with
that state; [validateState] on the saved session accepts exactly the
callbacks whose [state] parameter is not empty and equals that state, and
[checkAuthenticationResponse] answers any other callback with 401. *)
Theorem login_state_round_trip
    (a' : Auth) (s : Session) (r : Request) (w : list action) :
  Values_ s !! "access_token" = None ->
  SessionSave (loginSession s r) r = None ->
  checkTokenExists (Some a') (Some s) r w
  = Returned true
      (w ++ [SetCookie (loginSession s r);
             Redirect (redirectURI a' ++ "?domain=" ++ getRequestDomain r
                       ++ "&state=" ++ GenerateRandomState) 302])%list
  /\ Values_ (loginSession s r) !! "state" = Some (VString GenerateRandomState)
  /\ Values_ (loginSession s r) !! "uri" = Some (VString (getRequestAddress r))
  /\ Values_ (loginSession s r) !! "proxy_auth_domain" = None
  /\ forall callback w2,
       validateState callback (loginSession s r) w2
       = Returned (negb (Get (URL_Query callback) "state" =? "")%string
                   && (GenerateRandomState =? Get (URL_Query callback) "state")%string)
                  w2
       /\ ((Get (URL_Query callback) "state" =? "")%string
           || negb (GenerateRandomState =? Get (URL_Query callback) "state")%string
           = true ->
           checkAuthenticationResponse (Some a') (Some (loginSession s r)) callback w2
           = Returned tt (w2 ++ [ServeError 401])%list).
Proof.
  intros Htoken Hsave.
  assert (Hstate : Values_ (loginSession s r) !! "state"
                   = Some (VString GenerateRandomState)).
  { simpl. rewrite lookup_delete_ne by discriminate.
    rewrite lookup_insert_ne by discriminate. apply lookup_insert_eq. }
  split; [|split; [exact Hstate|split; [|split]]].
  - unfold checkTokenExists, deref. rewrite Htoken.
    fold (loginSession s r). unfold bind, Save. rewrite Hsave.
    unfold bind, call, ret, getProxyAddress, receiver. simpl.
    rewrite <- app_assoc. reflexivity.
  - simpl. rewrite lookup_delete_ne by discriminate. apply lookup_insert_eq.
  - simpl. apply lookup_delete_eq.
  - intros callback w2.
    assert (Hvalidate :
              validateState callback (loginSession s r) w2
              = Returned (negb (Get (URL_Query callback) "state" =? "")%string
                          && (GenerateRandomState
                              =? Get (URL_Query callback) "state")%string) w2).
    { unfold validateState. rewrite Hstate.
      destruct (Get (URL_Query callback) "state" =? "")%string; reflexivity. }
    split; [exact Hvalidate|].
    intros Hbad. unfold checkAuthenticationResponse, deref, bind.
    rewrite Hvalidate.
    destruct (Get (URL_Query callback) "state" =? "")%string; simpl in *;
      [reflexivity|].
    rewrite Hbad. reflexivity.
Qed.

(** *** The keys *)

Lemma TrimRightSlash_no_trailing_slash s :
  HasSuffix (TrimRightSlash s) "/" = false.
Proof.
  induction s as [|c s IH]; [reflexivity|]. simpl.
  destruct (TrimRightSlash s) as [|d t] eqn:Ht.
  - destruct (Ascii.eqb c "/") eqn:Hc; [reflexivity|].
    unfold HasSuffix. simpl. unfold String.eqb. simpl.
    rewrite Hc. reflexivity.
  - destruct (HasSuffix (String c (String d t)) "/") eqn:Hsuf; [|reflexivity].
    apply HasSuffix_correct in Hsuf as [front Hfront].
    destruct front as [|c' front]; [discriminate|].
    change (String c' front ++ "/") with (String c' (front ++ "/")) in Hfront.
    injection Hfront as _ Hrest.
    assert (Hyes : HasSuffix (String d t) "/" = true)
      by (apply HasSuffix_correct; eauto).
    congruence.
Qed.

Lemma TrimRightSlash_prefix s : HasPrefix s (TrimRightSlash s) = true.
Proof.
  induction s as [|c s IH]; [reflexivity|]. cbn [TrimRightSlash].
  destruct (TrimRightSlash s) as [|d t] eqn:Ht.
  - destruct (Ascii.eqb c "/"); [apply HasPrefix_nil|].
    apply HasPrefix_correct. exists s. reflexivity.
  - apply HasPrefix_correct in IH as [rest Hrest].
    apply HasPrefix_correct. exists rest. rewrite Hrest at 1. reflexivity.
Qed.

Lemma generateKeysFrom_spec secret count : forall i,
  match generateKeysFrom secret i count with
  | inl keys =>
      length keys = count
      /\ forall j, j < count -> option_map inl (keys !! j) = Some (hkdfKey secret (i + j))
  | inr e =>
      exists j, j < count /\ hkdfKey secret (i + j) = inr e
  end.
Proof.
  induction count as [|count IH]; intros i; simpl.
  - split; [reflexivity|]. intros j Hj. lia.
  - destruct (hkdfKey secret i) as [key|e] eqn:Hkey.
    + specialize (IH (S i)).
      destruct (generateKeysFrom secret (S i) count) as [keys|e].
      * destruct IH as [Hlen Hkeys]. split; [simpl; congruence|].
        intros [|j] Hj; simpl.
        -- rewrite Nat.add_0_r, Hkey. reflexivity.
        -- rewrite (Hkeys j) by lia. do 2 f_equal. lia.
      * destruct IH as (j & Hj & He). exists (S j). split; [lia|].
        rewrite <- He. f_equal. lia.
    + exists 0. split; [lia|]. rewrite Nat.add_0_r. exact Hkey.
Qed.

(** [New] fails only when the key reader fails, with the reader's error: the
length check of [generateKeys] never fires.  When it succeeds, the cookie
store has the first two keys read for the secret and the JWT key is the
third, the JWT lives one minute, and the GitLab server is the one given
without its trailing slashes. *)
Theorem New_derives_three_keys
    (pagesDomain storeSecret clientID clientSecret redirectURI gitLabServer
     authScope : string) :
  match New pagesDomain storeSecret clientID clientSecret redirectURI
            gitLabServer authScope with
  | inl a =>
      (exists k0 k1,
         hkdfKey storeSecret 0 = inl k0 /\ hkdfKey storeSecret 1 = inl k1
         /\ store a = NewCookieStore k0 k1)
      /\ hkdfKey storeSecret 2 = inl (jwtSigningKey a)
      /\ jwtExpiry a = Minute
      /\ HasSuffix (Auth.gitLabServer a) "/" = false
      /\ HasPrefix gitLabServer (Auth.gitLabServer a) = true
      /\ Auth.pagesDomain a = pagesDomain
      /\ Auth.clientSecret a = clientSecret
  | inr e => exists j, j < 3 /\ hkdfKey storeSecret j = inr e
  end.
Proof.
  unfold New, generateKeys.
  pose proof (generateKeysFrom_spec storeSecret 3 0) as Hspec.
  destruct (generateKeysFrom storeSecret 0 3) as [keys|e]; [|exact Hspec].
  destruct Hspec as [Hlen Hkeys]. rewrite Hlen. simpl.
  destruct keys as [|k0 [|k1 [|k2 [|k3 rest]]]]; try discriminate.
  pose proof (Hkeys 0 ltac:(lia)) as H0.
  pose proof (Hkeys 1 ltac:(lia)) as H1.
  pose proof (Hkeys 2 ltac:(lia)) as H2.
  simpl in H0, H1, H2.
  injection H0 as H0. injection H1 as H1. injection H2 as H2.
  simpl. split; [eauto|]. split; [auto|]. split; [reflexivity|].
  split; [apply TrimRightSlash_no_trailing_slash|].
  split; [apply TrimRightSlash_prefix|]. auto.
Qed.

End Answers.

(** A request with the token [abc] in its session for a page of project
1000: the API answers 200 and the request is let through. *)
Lemma access_granted_only_on_200_witness :
  CheckAuthentication (ext := plainExternals) (Some grantingAuth) plainRequest
    projectDomain [] = Returned false []
  /\ exists resp,
       apiClient grantingAuth
         {| ApiMethod := "GET";
            ApiURL := "https://gitlab.example.com/api/v4/projects/1000/pages_access";
            ApiBody := ""; Authorization := Some "Bearer abc" |} = inl resp
       /\ StatusCode resp = 200%Z.
Proof.
  split; [vm_compute; reflexivity|].
  destruct (access_granted_only_on_200 (ext := plainExternals) (Some grantingAuth)
              plainRequest projectDomain [] [] ltac:(vm_compute; reflexivity))
    as (_ & a' & s0 & token & resp & Ha & Hstore & Htoken & Hapi & Hstatus).
  injection Ha as <-. exists resp. split; [|exact Hstatus].
  injection Hstore as <-. injection Htoken as <-. exact Hapi.
Defined.

(** The callback with the session of a tenant is handled by one redirect. *)
Lemma TryAuthenticate_answers_iff_handled_witness :
  exists w',
    TryAuthenticate (ext := plainExternals) (Some testAuth) callbackRequest
      noDomains [] = Returned true w'
    /\ responses w' = 1.
Proof.
  eexists. split; [vm_compute; reflexivity|].
  match goal with
  | |- responses ?w' = 1 =>
      exact (proj1 (TryAuthenticate_answers_iff_handled (ext := plainExternals)
                      (Some testAuth) callbackRequest noDomains [] w' true
                      ltac:(vm_compute; reflexivity)))
  end.
Defined.

(** A first request for a page, over a session without token: the login
redirect carries the state that the saved session holds. *)
Lemma login_state_round_trip_witness :
  checkTokenExists (ext := plainExternals) (Some testAuth)
    (Some {| Values_ := ∅; SessionOptions := emptyOptions |}) plainRequest []
  = Returned true
      [SetCookie (loginSession (ext := plainExternals)
                    {| Values_ := ∅; SessionOptions := emptyOptions |} plainRequest);
       Redirect
         "http://pages.gitlab-example.com/auth?domain=http://pages.gitlab-example.com&state=c3RhdGUtc3RhdGUtc3RhdGU="
         302].
Proof.
  rewrite (proj1 (login_state_round_trip (ext := plainExternals) testAuth
                    {| Values_ := ∅; SessionOptions := emptyOptions |}
                    plainRequest [] (lookup_empty _) eq_refl)).
  reflexivity.
Defined.

End AuthFacts.

(** ** internal/netutil: the shared connection limiter *)

Module NetutilFacts.
Import Netutil.
Local Open Scope nat_scope.

Lemma sum_list_with_insert {A} (f : A -> nat) (l : list A) (i : nat) (x y : A) :
  l !! i = Some x ->
  sum_list_with f (<[i := y]> l) + f x = sum_list_with f l + f y.
Proof.
  revert i. induction l as [|a l IH]; intros [|i] Hi; simpl in *; try discriminate.
  - injection Hi as ->. lia.
  - specialize (IH i Hi). lia.
Qed.

Lemma sum_list_with_snoc {A} (f : A -> nat) (l : list A) (x : A) :
  sum_list_with f (l ++ [x]) = sum_list_with f l + f x.
Proof. rewrite sum_list_with_app. simpl. lia. Qed.

Lemma slots_setPc (calls : list acceptCall) i call p0 p :
  calls !! i = Some call -> pc call = p0 ->
  sum_list_with holdsSlot (<[i := {| onListener := onListener call; pc := p |}]> calls)
  + holdsAt p0
  = sum_list_with holdsSlot calls + holdsAt p.
Proof.
  intros Hi <-.
  exact (sum_list_with_insert holdsSlot calls i call
           {| onListener := onListener call; pc := p |} Hi).
Qed.

Lemma slots_setConn (cs : list conn) c x b :
  cs !! c = Some x -> released x = b ->
  sum_list_with holdsConn (<[c := {| released := true; closeCalls := S (closeCalls x) |}]> cs)
  + (if b then 0 else 1)
  = sum_list_with holdsConn cs.
Proof.
  intros Hc <-.
  pose proof (sum_list_with_insert holdsConn cs c x
                {| released := true; closeCalls := S (closeCalls x) |} Hc) as H.
  change (holdsConn {| released := true; closeCalls := S (closeCalls x) |})
    with 0 in H.
  change (holdsConn x) with (if released x then 0 else 1) in H. lia.
Qed.

Lemma limiter_invariant_init n k : invariant (NewLimiter n k).
Proof.
  split; simpl.
  - reflexivity.
  - lia.
  - intros l x Hl. apply lookup_replicate in Hl as [-> _]. discriminate.
  - intros i call Hi. rewrite lookup_nil in Hi. discriminate.
Qed.

(** Closing a listener keeps what the calls know about it. *)
Lemma inv_call_setListener s l x x' :
  listeners s !! l = Some x ->
  (doneClosed x = true -> doneClosed x' = true) ->
  (forall i call, accepts s !! i = Some call ->
     exists y, listeners s !! onListener call = Some y
               /\ (pc call = Accepting false -> doneClosed y = true)) ->
  forall i call, accepts (setListener s l x') !! i = Some call ->
    exists y, listeners (setListener s l x') !! onListener call = Some y
              /\ (pc call = Accepting false -> doneClosed y = true).
Proof.
  intros Hl Hmono Hcalls i call Hi. simpl in *.
  destruct (Hcalls i call Hi) as (y & Hy & Hdone).
  destruct (decide (l = onListener call)) as [->|Hne].
  - exists x'. split.
    + apply list_lookup_insert_eq. eapply lookup_lt_Some, Hy.
    + intros Hpc. apply Hmono. rewrite Hl in Hy. injection Hy as ->. auto.
  - exists y. split; [|exact Hdone].
    rewrite list_lookup_insert_ne by exact Hne. exact Hy.
Qed.

(** Moving one call to another place keeps the other calls as they are. *)
Lemma inv_call_setPc (ls : list listener) (calls : list acceptCall) i call p :
  calls !! i = Some call ->
  (p = Accepting false ->
   exists x, ls !! onListener call = Some x /\ doneClosed x = true) ->
  (forall j c, calls !! j = Some c ->
     exists y, ls !! onListener c = Some y
               /\ (pc c = Accepting false -> doneClosed y = true)) ->
  forall j c, <[i := {| onListener := onListener call; pc := p |}]> calls !! j = Some c ->
    exists y, ls !! onListener c = Some y
              /\ (pc c = Accepting false -> doneClosed y = true).
Proof.
  intros Hi Hp Hcalls j c Hj.
  destruct (decide (i = j)) as [->|Hne].
  - rewrite list_lookup_insert_eq in Hj by (eapply lookup_lt_Some, Hi).
    injection Hj as <-. simpl.
    destruct (Hcalls j call Hi) as (y & Hy & _).
    exists y. split; [exact Hy|]. intros Hpc.
    destruct (Hp Hpc) as (x & Hx & Hdone). congruence.
  - rewrite list_lookup_insert_ne in Hj by exact Hne. exact (Hcalls j c Hj).
Qed.

Lemma limiter_exec_invariant s e s' :
  invariant s -> exec s e = Some s' -> invariant s'.
Proof.
  intros [Hsem Hcap Hdone Hcall] Hexec. unfold slotsHeld in Hsem.
  destruct e as [l|i|i|i|i|i|c|l|l]; simpl in Hexec.
  - (* StartAccept *)
    destruct (listeners s !! l) as [x|] eqn:Hl; [|discriminate].
    injection Hexec as <-.
    split; unfold slotsHeld; simpl; [ | exact Hcap | exact Hdone | ].
    + rewrite sum_list_with_snoc.
      change (holdsSlot {| onListener := l; pc := Acquiring |}) with 0. lia.
    + intros i call Hi. apply lookup_app_Some in Hi as [Hi | [_ Hi]].
      * exact (Hcall i call Hi).
      * apply list_lookup_singleton_Some in Hi as [_ <-]. simpl.
        exists x. split; [exact Hl | discriminate].
  - (* AcquireSlot *)
    destruct (accepts s !! i) as [call|] eqn:Hi; [|discriminate].
    destruct (pc call) eqn:Hpc; try discriminate.
    destruct (sem s <? capacity s) eqn:Hlt; [|discriminate].
    apply Nat.ltb_lt in Hlt. injection Hexec as <-.
    pose proof (slots_setPc (accepts s) i call _ (Accepting true) Hi Hpc) as Hsum.
    simpl in Hsum.
    split; unfold slotsHeld; simpl; [ lia | lia | exact Hdone | ].
    apply (inv_call_setPc _ _ i call _ Hi); [discriminate | exact Hcall].
  - (* AcquireClosed *)
    destruct (accepts s !! i) as [call|] eqn:Hi; [|discriminate].
    destruct (pc call) eqn:Hpc; try discriminate.
    destruct (listeners s !! onListener call) as [x|] eqn:Hl; [|discriminate].
    destruct (doneClosed x) eqn:Hx; [|discriminate].
    injection Hexec as <-.
    pose proof (slots_setPc (accepts s) i call _ (Accepting false) Hi Hpc) as Hsum.
    simpl in Hsum.
    split; unfold slotsHeld; simpl; [ lia | exact Hcap | exact Hdone | ].
    apply (inv_call_setPc _ _ i call _ Hi); [|exact Hcall].
    intros _. exists x. auto.
  - (* AcceptOk *)
    destruct (accepts s !! i) as [call|] eqn:Hi; [|discriminate].
    destruct (pc call) as [|acquired| | |] eqn:Hpc; try discriminate.
    destruct (listeners s !! onListener call) as [x|] eqn:Hl; [|discriminate].
    destruct (underlyingClosed x) eqn:Hx; [discriminate|].
    injection Hexec as <-.
    assert (Hacq : acquired = true).
    { destruct acquired; [reflexivity|].
      destruct (Hcall i call Hi) as (y & Hy & Hy').
      rewrite Hl in Hy. injection Hy as <-.
      rewrite (Hdone _ _ Hl (Hy' Hpc)) in Hx. discriminate. }
    subst acquired.
    pose proof (slots_setPc (accepts s) i call _ (Accepted (length (conns s))) Hi Hpc)
      as Hsum.
    simpl in Hsum.
    split; unfold slotsHeld; simpl; [ | exact Hcap | exact Hdone | ].
    + rewrite sum_list_with_snoc.
      change (holdsConn {| released := false; closeCalls := 0 |}) with 1. lia.
    + apply (inv_call_setPc _ _ i call _ Hi); [discriminate | exact Hcall].
  - (* AcceptErr *)
    destruct (accepts s !! i) as [call|] eqn:Hi; [|discriminate].
    destruct (pc call) as [|[|]| | |] eqn:Hpc; try discriminate;
      injection Hexec as <-.
    + pose proof (slots_setPc (accepts s) i call _ Releasing Hi Hpc) as Hsum.
      simpl in Hsum.
      split; unfold slotsHeld; simpl; [ lia | exact Hcap | exact Hdone | ].
      apply (inv_call_setPc _ _ i call _ Hi); [discriminate | exact Hcall].
    + pose proof (slots_setPc (accepts s) i call _ AcceptFailed Hi Hpc) as Hsum.
      simpl in Hsum.
      split; unfold slotsHeld; simpl; [ lia | exact Hcap | exact Hdone | ].
      apply (inv_call_setPc _ _ i call _ Hi); [discriminate | exact Hcall].
  - (* ReleaseAfterErr *)
    destruct (accepts s !! i) as [call|] eqn:Hi; [|discriminate].
    destruct (pc call) eqn:Hpc; try discriminate.
    destruct (sem s) as [|n] eqn:Hn; [discriminate|].
    injection Hexec as <-.
    pose proof (slots_setPc (accepts s) i call _ AcceptFailed Hi Hpc) as Hsum.
    simpl in Hsum.
    split; unfold slotsHeld; simpl; [ lia | lia | exact Hdone | ].
    apply (inv_call_setPc _ _ i call _ Hi); [discriminate | exact Hcall].
  - (* CloseConn *)
    destruct (conns s !! c) as [x|] eqn:Hc; [|discriminate].
    destruct (released x) eqn:Hrel.
    + injection Hexec as <-.
      pose proof (slots_setConn (conns s) c x _ Hc Hrel) as Hsum. simpl in Hsum.
      split; unfold slotsHeld; simpl; [ lia | exact Hcap | exact Hdone | exact Hcall ].
    + destruct (sem s) as [|n] eqn:Hn; [discriminate|].
      injection Hexec as <-.
      pose proof (slots_setConn (conns s) c x _ Hc Hrel) as Hsum. simpl in Hsum.
      split; unfold slotsHeld; simpl; [ lia | lia | exact Hdone | exact Hcall ].
  - (* CloseUnderlying *)
    destruct (listeners s !! l) as [x|] eqn:Hl; [|discriminate].
    injection Hexec as <-.
    split; [ exact Hsem | exact Hcap | | ].
    + intros l' y Hy Hclosed. simpl in Hy.
      destruct (decide (l = l')) as [->|Hne].
      * rewrite list_lookup_insert_eq in Hy by (eapply lookup_lt_Some, Hl).
        injection Hy as <-. reflexivity.
      * rewrite list_lookup_insert_ne in Hy by exact Hne. eauto.
    + apply (inv_call_setListener s l x _ Hl); [auto | exact Hcall].
  - (* CloseDone *)
    destruct (listeners s !! l) as [x|] eqn:Hl; [|discriminate].
    destruct (underlyingClosed x) eqn:Hx; [|discriminate].
    injection Hexec as <-.
    split; [ exact Hsem | exact Hcap | | ].
    + intros l' y Hy Hclosed. simpl in Hy.
      destruct (decide (l = l')) as [->|Hne].
      * rewrite list_lookup_insert_eq in Hy by (eapply lookup_lt_Some, Hl).
        injection Hy as <-. reflexivity.
      * rewrite list_lookup_insert_ne in Hy by exact Hne. eauto.
    + apply (inv_call_setListener s l x _ Hl); [auto | exact Hcall].
Qed.

Lemma limiter_run_invariant trace : forall s s',
  invariant s -> run s trace = Some s' -> invariant s'.
Proof.
  induction trace as [|e rest IH]; intros s s' Hinv Hrun; simpl in Hrun.
  - injection Hrun as <-. exact Hinv.
  - destruct (exec s e) as [s1|] eqn:Hexec; [|discriminate].
    exact (IH s1 s' (limiter_exec_invariant s e s1 Hinv Hexec) Hrun).
Qed.

Lemma exec_capacity s e s' : exec s e = Some s' -> capacity s' = capacity s.
Proof.
  destruct e; simpl; intros H;
    repeat match type of H with
           | context [match ?x with _ => _ end] => destruct x; try discriminate
           end;
    injection H as <-; reflexivity.
Qed.

Lemma run_capacity trace : forall s s',
  run s trace = Some s' -> capacity s' = capacity s.
Proof.
  induction trace as [|e rest IH]; intros s s' Hrun; simpl in Hrun.
  - injection Hrun as <-. reflexivity.
  - destruct (exec s e) as [s1|] eqn:Hexec; [|discriminate].
    rewrite (IH s1 s' Hrun). exact (exec_capacity s e s1 Hexec).
Qed.

Lemma reachable_invariant n k s : reachable n k s -> invariant s.
Proof.
  intros [trace Hrun].
  exact (limiter_run_invariant trace _ _ (limiter_invariant_init n k) Hrun).
Qed.

Lemma sum_list_with_lookup {A} (f : A -> nat) (l : list A) (i : nat) (x : A) :
  l !! i = Some x -> f x <= sum_list_with f l.
Proof.
  revert i. induction l as [|a l IH]; intros [|i] Hi; simpl in *; try discriminate.
  - injection Hi as ->. lia.
  - specialize (IH i Hi). lia.
Qed.



(** *** A full limiter *)

(** While the connections that are open and the calls of [Accept] that hold
a slot together hold all [n] slots, a call that waits in [acquire] on a
listener that has not been closed can take neither branch of the [select]:
it stays blocked.  The first [Close] of any open connection frees a slot,
and the waiting call can then acquire it, which fills the limiter again. *)
Theorem full_limiter_blocks_accept
    (n k : nat) (s : state) (i : nat) (call : acceptCall) (l : listener) :
  reachable n k s ->
  slotsHeld s = n ->
  accepts s !! i = Some call ->
  pc call = Acquiring ->
  listeners s !! onListener call = Some l ->
  doneClosed l = false ->
  exec s (AcquireSlot i) = None
  /\ exec s (AcquireClosed i) = None
  /\ forall c x,
       conns s !! c = Some x -> released x = false ->
       exists s1 s2,
         exec s (CloseConn c) = Some s1
         /\ S (sem s1) = n
         /\ exec s1 (AcquireSlot i) = Some s2
         /\ sem s2 = n
         /\ accepts s2 !! i = Some {| onListener := onListener call;
                                      pc := Accepting true |}.
Proof.
  intros Hreach Hfull Hi Hpc Hl Hopen.
  pose proof (reachable_invariant n k s Hreach) as [Hsem Hcap Hdone Hcall].
  assert (Hn : capacity s = n).
  { destruct Hreach as [trace Hrun]. exact (run_capacity trace _ _ Hrun). }
  assert (Hsemn : sem s = n) by congruence.
  split; [|split].
  - simpl. rewrite Hi, Hpc, Hsemn, Hn, Nat.ltb_irrefl. reflexivity.
  - simpl. rewrite Hi, Hpc, Hl, Hopen. reflexivity.
  - intros c x Hc Hrel.
    pose proof (sum_list_with_lookup holdsConn (conns s) c x Hc) as Hle.
    unfold holdsConn at 1 in Hle. rewrite Hrel in Hle.
    unfold slotsHeld in Hsem.
    destruct (sem s) as [|m] eqn:Hm; [lia|].
    assert (Hlt : (m <? capacity s) = true) by (apply Nat.ltb_lt; lia).
    eexists. eexists.
    split; [simpl; rewrite Hc, Hrel, Hm; reflexivity|].
    split; [simpl; congruence|].
    split; [simpl; rewrite Hi, Hpc, Hlt; reflexivity|].
    split; [simpl; congruence|].
    simpl. apply list_lookup_insert_eq. eapply lookup_lt_Some, Hi.
Qed.

(** One listener on a limiter of capacity 1: the first call holds the slot
with its connection, the second waits until that connection is closed. *)
Lemma full_limiter_blocks_accept_witness :
  exists s,
    run (NewLimiter 1 1) [StartAccept 0; AcquireSlot 0; AcceptOk 0; StartAccept 0]
    = Some s
    /\ exec s (AcquireSlot 1) = None
    /\ exec s (AcquireClosed 1) = None.
Proof.
  eexists. split; [vm_compute; reflexivity|].
  match goal with
  | |- exec ?s _ = None /\ _ =>
      destruct (full_limiter_blocks_accept 1 1 s 1
                  {| onListener := 0; pc := Acquiring |}
                  {| underlyingClosed := false; doneClosed := false |})
        as (H1 & H2 & _)
  end.
  - exists [StartAccept 0; AcquireSlot 0; AcceptOk 0; StartAccept 0].
    vm_compute. reflexivity.
  - reflexivity.
  - reflexivity.
  - reflexivity.
  - reflexivity.
  - reflexivity.
  - auto.
Defined.

End NetutilFacts.
